(** * Reed-Solomon encoder of the QR generator (src/reed_solomon.ts)

    A shallow embedding of the class [ReedSolomon] and the properties of
    its methods.  JavaScript numbers are integers here ([Z]); the 32-bit
    conversions performed by the bit operators are written out.  Arrays of
    bytes are lists of [Z], read and updated by index.  A [throw] is the
    [Throw] case of the [outcome] type.  A second embedding, in the module
    [Heap], keeps the arrays in a store and passes references; the methods
    on values are shown to compute what the methods on references do.
    The last part reads the arrays as polynomials over the field of the
    bytes: the divisor is the product the source names, the ECC of a block
    is the remainder of a division by it, and every byte of a block has its
    place in the output. *)

From Stdlib Require Import ZArith List Lia Bool.
From stdpp Require Import base list.
Import ListNotations.
Local Open Scope Z_scope.

(** ** JavaScript integer operators *)

Module JS.

(** ToUint32: the value modulo 2^32. *)
Definition ToUint32 (n : Z) : Z := Z.land n 0xFFFFFFFF.

(** ToInt32: the value modulo 2^32, read as a signed 32-bit integer. *)
Definition ToInt32 (n : Z) : Z :=
  let u := ToUint32 n in
  if Z.testbit u 31 then u - 0x100000000 else u.

(** [a >>> n]: unsigned right shift, the count taken modulo 32. *)
Definition shru (a n : Z) : Z := Z.shiftr (ToUint32 a) (Z.land n 31).

(** [a << n]: left shift of a signed 32-bit integer. *)
Definition shl (a n : Z) : Z := ToInt32 (Z.shiftl (ToInt32 a) (Z.land n 31)).

(** [a ^ b] and [a & b] on signed 32-bit integers. *)
Definition xor (a b : Z) : Z := Z.lxor (ToInt32 a) (ToInt32 b).
Definition and (a b : Z) : Z := Z.land (ToInt32 a) (ToInt32 b).

(** [a % b]: the remainder has the sign of the dividend. *)
Definition rem (a b : Z) : Z := Z.rem a b.

(** [Math.floor(a / b)] for a non-zero divisor. *)
Definition floordiv (a b : Z) : Z := a / b.

(** [l.shift()]: removes the first element and returns it; on an empty
    array returns [undefined] ([None]) and leaves the array empty. *)
Definition shift (l : list Z) : option Z * list Z :=
  match l with
  | [] => (None, [])
  | x :: t => (Some x, t)
  end.

(** An operand of a bit operator that may be [undefined]:
    ToInt32(undefined) is 0. *)
Definition operand (v : option Z) : Z :=
  match v with
  | Some n => n
  | None => 0
  end.

(** A relative index of [slice]: negative counts from the end, and the
    result is clamped to the array. *)
Definition relIndex (len i : Z) : Z :=
  if i <? 0 then Z.max (len + i) 0 else Z.min i len.

(** [l.slice(start, end)]. *)
Definition slice (l : list Z) (start stop : Z) : list Z :=
  let len := Z.of_nat (length l) in
  let from := relIndex len start in
  let to := relIndex len stop in
  take (Z.to_nat (to - from)) (drop (Z.to_nat from) l).

End JS.

(** ** Outcomes *)

(** The strings thrown by the source, the TypeError raised by reading a
    property of [undefined], and [UndefinedElement], which marks an array
    access outside the bounds where JavaScript would store [undefined] in
    an array of bytes; no function of this file ever yields it (lemmas
    [*_in_bounds] below). *)
Inductive exn : Type :=
| VersionOutOfRange   (* "Version number out of range" *)
| DegreeOutOfRange    (* "Degree out of range" *)
| ByteOutOfRange      (* "Byte out of range" *)
| AssertionError      (* "Assertion error" *)
| InvalidArgument     (* "Invalid argument" *)
| TypeError
| UndefinedElement.

Inductive outcome (A : Type) : Type :=
| Ok (a : A)
| Throw (e : exn).
Arguments Ok {A} a.
Arguments Throw {A} e.

Definition bind {A B : Type} (m : outcome A) (k : A -> outcome B) : outcome B :=
  match m with
  | Ok a => k a
  | Throw e => Throw e
  end.

Notation "'let*' x ':=' m 'in' k" := (bind m (fun x => k))
  (at level 10, x pattern, m at level 100, k at level 200).

(** A loop over the elements of [l] threading the state [s]. *)
Fixpoint foldM {A St : Type} (f : St -> A -> outcome St) (l : list A) (s : St) : outcome St :=
  match l with
  | [] => Ok s
  | a :: l' => let* s' := f s a in foldM f l' s'
  end.

(** [l.forEach((x, i) => ...)], the index starting at [i]. *)
Fixpoint forEach {A St : Type} (f : St -> A -> nat -> outcome St) (l : list A) (i : nat) (s : St) : outcome St :=
  match l with
  | [] => Ok s
  | a :: l' => let* s' := f s a i in forEach f l' (S i) s'
  end.

(** [a[i]] where the element must exist. *)
Definition get (a : list Z) (i : nat) : outcome Z :=
  match a !! i with
  | Some v => Ok v
  | None => Throw UndefinedElement
  end.

(** ** The class ReedSolomon *)

Definition getNumRawDataModules (ver : Z) : outcome Z :=
  if (ver <? 1) || (ver >? 40) then Throw VersionOutOfRange
  else
    let result := (16 * ver + 128) * ver + 64 in
    let result :=
      if ver >=? 2 then
        let numAlign := JS.floordiv ver 7 + 2 in
        let result := result - ((25 * numAlign - 10) * numAlign - 55) in
        if ver >=? 7 then result - 36 else result
      else result in
    if negb ((208 <=? result) && (result <=? 29648)) then Throw AssertionError
    else Ok result.

(** Modelled from the spec: the error-correction levels of
    error_correction_levels.js, which is not among the sources: "one of
    {L, M, Q, H}". *)
Inductive ErrorCorrectionLevel : Type := L | M | Q | H.

(** Modelled from the spec: the part of the class QRCode (qr.js, not among
    the sources) that this file reads: the version, the level, and the two
    capacity tables "indexed by [ErrorCorrectionLevel][Version]", whose
    entries are numbers. *)
Record QRCode : Type := {
  version : Z;
  error_correction_level : ErrorCorrectionLevel;
  ECC_CODEWORDS_PER_BLOCK : ErrorCorrectionLevel -> Z -> Z;
  NUM_ERROR_CORRECTION_BLOCKS : ErrorCorrectionLevel -> Z -> Z
}.

Definition getNumDataCodewords (ver : Z) (QrCode : QRCode) : outcome Z :=
  let ecl := error_correction_level QrCode in
  let* raw := getNumRawDataModules ver in
  Ok (JS.floordiv raw 8 -
      ECC_CODEWORDS_PER_BLOCK QrCode ecl ver * NUM_ERROR_CORRECTION_BLOCKS QrCode ecl ver).

(** The body of the loop of [reedSolomonMultiply] ("Russian peasant
    multiplication") for the bit [i] of [y]. *)
Definition multiplyStep (x y : Z) (z : Z) (i : Z) : Z :=
  let z := JS.xor (JS.shl z 1) (JS.shru z 7 * 0x11D) in
  JS.xor z (JS.and (JS.shru y i) 1 * x).

Definition reedSolomonMultiply (x y : Z) : outcome Z :=
  if negb (JS.shru x 8 =? 0) || negb (JS.shru y 8 =? 0) then Throw ByteOutOfRange
  else
    let z := fold_left (multiplyStep x y) [7; 6; 5; 4; 3; 2; 1; 0] 0 in
    if negb (JS.shru z 8 =? 0) then Throw AssertionError
    else Ok z.

(** One pass of the inner loop of [reedSolomonComputeDivisor]: position [j]
    of the running product is multiplied by [root] and, unless it is the
    last one, combined with its right neighbour. *)
Definition divisorStep (root : Z) (result : list Z) (j : nat) : outcome (list Z) :=
  let* rj := get result j in
  let* m := reedSolomonMultiply rj root in
  let result := <[j := m]> result in
  if (j + 1 <? length result)%nat then
    let* rj := get result j in
    let* rj1 := get result (j + 1) in
    Ok (<[j := JS.xor rj rj1]> result)
  else Ok result.

Definition reedSolomonComputeDivisor (degree : Z) : outcome (list Z) :=
  if (degree <? 1) || (degree >? 255) then Throw DegreeOutOfRange
  else
    let result := replicate (Z.to_nat (degree - 1)) 0 ++ [1] in
    let* (result, root) :=
      foldM (fun '(result, root) (i : Z) =>
               let* result := foldM (divisorStep root) (seq 0 (length result)) result in
               let* root := reedSolomonMultiply root 0x02 in
               Ok (result, root))
            (seqZ 0 degree) (result, 1) in
    Ok result.

(** [result[i] ^= v]. *)
Definition xorAt (result : list Z) (i : nat) (v : Z) : outcome (list Z) :=
  let* ri := get result i in
  Ok (<[i := JS.xor ri v]> result).

(** The callback of [divisor.forEach] in [reedSolomonComputeRemainder]. *)
Definition xorCoef (factor : Z) (result : list Z) (coef : Z) (i : nat) : outcome (list Z) :=
  let* m := reedSolomonMultiply coef factor in
  xorAt result i m.

(** The body of the loop of [reedSolomonComputeRemainder] for the byte [b]. *)
Definition remainderStep (divisor : list Z) (result : list Z) (b : Z) : outcome (list Z) :=
  let '(first, result) := JS.shift result in
  let factor := JS.xor b (JS.operand first) in
  let result := result ++ [0] in
  forEach (xorCoef factor) divisor 0%nat result.

Definition reedSolomonComputeRemainder (data divisor : list Z) : outcome (list Z) :=
  let result := map (fun _ => 0) divisor in
  foldM (remainderStep divisor) data result.

(** The numbers computed at the head of [addEccAndInterleave]. *)
Record BlockParams : Type := {
  numBlocks : Z;
  blockEccLen : Z;
  rawCodewords : Z;
  numShortBlocks : Z;
  shortBlockLen : Z
}.

(** "Calculate parameter numbers".  When [numBlocks] is 0 JavaScript gets
    NaN and Infinity for the last two; no block is built then and neither
    number is used before [blocks[0].length] raises a TypeError. *)
Definition blockParams (QrCode : QRCode) : outcome BlockParams :=
  let ver := version QrCode in
  let ecl := error_correction_level QrCode in
  let numBlocks := NUM_ERROR_CORRECTION_BLOCKS QrCode ecl ver in
  let blockEccLen := ECC_CODEWORDS_PER_BLOCK QrCode ecl ver in
  let* raw := getNumRawDataModules ver in
  let rawCodewords := JS.floordiv raw 8 in
  let numShortBlocks := numBlocks - JS.rem rawCodewords numBlocks in
  let shortBlockLen := JS.floordiv rawCodewords numBlocks in
  Ok {| numBlocks := numBlocks; blockEccLen := blockEccLen;
        rawCodewords := rawCodewords; numShortBlocks := numShortBlocks;
        shortBlockLen := shortBlockLen |}.

(** The body of the loop "Split data into blocks and append ECC to each
    block", on the cursor [k] and the blocks built so far. *)
Definition splitStep (data rsDiv : list Z) (p : BlockParams)
    (st : Z * list (list Z)) (i : Z) : outcome (Z * list (list Z)) :=
  let '(k, blocks) := st in
  let dat :=
    JS.slice data k
      (k + shortBlockLen p - blockEccLen p + (if i <? numShortBlocks p then 0 else 1)) in
  let k := k + Z.of_nat (length dat) in
  let* ecc := reedSolomonComputeRemainder dat rsDiv in
  let dat := if i <? numShortBlocks p then dat ++ [0] else dat in
  Ok (k, blocks ++ [dat ++ ecc]).

Definition splitBlocks (data : list Z) (p : BlockParams) : outcome (list (list Z)) :=
  let* rsDiv := reedSolomonComputeDivisor (blockEccLen p) in
  let* (k, blocks) := foldM (splitStep data rsDiv p) (seqZ 0 (numBlocks p)) (0, []) in
  Ok blocks.

(** The body of the loop "Interleave (not concatenate) the bytes from every
    block into a single sequence", for the position [i]. *)
Definition interleaveStep (blocks : list (list Z)) (p : BlockParams)
    (result : list Z) (i : Z) : outcome (list Z) :=
  forEach (fun result block j =>
             if negb (i =? shortBlockLen p - blockEccLen p)
                || (Z.of_nat j >=? numShortBlocks p)
             then let* b := get block (Z.to_nat i) in Ok (result ++ [b])
             else Ok result)
          blocks 0%nat result.

Definition interleave (blocks : list (list Z)) (p : BlockParams) : outcome (list Z) :=
  match blocks !! 0%nat with
  | None => Throw TypeError
  | Some block0 => foldM (interleaveStep blocks p) (seqZ 0 (Z.of_nat (length block0))) []
  end.

(** The blocks built by a call of [addEccAndInterleave], with the numbers
    they were built from: the method up to the start of the interleaving. *)
Definition constructedBlocks (data : list Z) (QrCode : QRCode)
    : outcome (BlockParams * list (list Z)) :=
  let ver := version QrCode in
  let* n := getNumDataCodewords ver QrCode in
  if negb (Z.of_nat (length data) =? n) then Throw InvalidArgument
  else
    let* p := blockParams QrCode in
    let* blocks := splitBlocks data p in
    Ok (p, blocks).

Definition addEccAndInterleave (data : list Z) (QrCode : QRCode) : outcome (list Z) :=
  let* (p, blocks) := constructedBlocks data QrCode in
  let* result := interleave blocks p in
  if negb (Z.of_nat (length result) =? rawCodewords p) then Throw AssertionError
  else Ok result.

(** ** Arrays as objects

    A JavaScript array is an object: a variable holds a reference to it,
    two variables may hold the same reference, and [shift], [push] and an
    assignment to an element change the object in place.  This second
    embedding of [reedSolomonComputeRemainder] keeps the arrays in a store
    and passes references, so that what the method changes, and what it
    leaves alone, can be stated. *)

Module Heap.

(** A reference is the position of the array in the store. *)
Abbreviation ref := nat (only parsing).

(** The array objects, in the order of their allocation. *)
Abbreviation store := (list (list Z)) (only parsing).

(** A computation stops on an exception, or when a [for ... of] loop has
    run longer than the bound given to it (which JavaScript does not have). *)
Inductive halt : Type :=
| Exn (e : exn)
| OutOfFuel.

Definition M (A : Type) : Type := store -> (A + halt) * store.

Definition ret {A : Type} (a : A) : M A := fun s => (inl a, s).

Definition bind {A B : Type} (m : M A) (k : A -> M B) : M B :=
  fun s =>
    match m s with
    | (inl a, s') => k a s'
    | (inr h, s') => (inr h, s')
    end.

Notation "'let!' x ':=' m 'in' k" := (bind m (fun x => k))
  (at level 10, x pattern, m at level 100, k at level 200).

(** A call of a function that touches no array. *)
Definition lift {A : Type} (m : outcome A) : M A :=
  fun s =>
    match m with
    | Ok a => (inl a, s)
    | Throw e => (inr (Exn e), s)
    end.

(** The elements of the array at [r].  The references of a program point
    into the store; the statements below assume it of the arguments. *)
Definition contents (s : store) (r : ref) : list Z := default [] (s !! r).

Definition read (r : ref) : M (list Z) := fun s => (inl (contents s r), s).

Definition write (r : ref) (a : list Z) : M unit := fun s => (inl tt, <[r := a]> s).

(** A new array. *)
Definition alloc (a : list Z) : M ref := fun s => (inl (length s), s ++ [a]).

(** [a.map(_ => 0)]: a new array. *)
Definition mapZero (a : ref) : M ref :=
  let! elements := read a in
  alloc (map (fun _ => 0) elements).

(** [a.shift()], in place. *)
Definition shift (a : ref) : M (option Z) :=
  let! elements := read a in
  let '(first, rest) := JS.shift elements in
  let! _ := write a rest in
  ret first.

(** [a.push(v)], in place. *)
Definition push (a : ref) (v : Z) : M unit :=
  let! elements := read a in
  write a (elements ++ [v]).

(** [a[i] ^= v], in place; the element must exist, as for [get]. *)
Definition xorAt (a : ref) (i : nat) (v : Z) : M unit :=
  let! elements := read a in
  match elements !! i with
  | Some x => write a (<[i := JS.xor x v]> elements)
  | None => lift (Throw UndefinedElement)
  end.

(** [a.forEach((x, i) => ...)]: the length is read once, before the first
    call; each element is read when its turn comes. *)
Fixpoint forEachFrom (a : ref) (f : Z -> nat -> M unit) (i n : nat) : M unit :=
  match n with
  | O => ret tt
  | S n' =>
      let! elements := read a in
      let! _ := match elements !! i with
                | Some x => f x i
                | None => ret tt
                end in
      forEachFrom a f (S i) n'
  end.

Definition forEach (a : ref) (f : Z -> nat -> M unit) : M unit :=
  let! elements := read a in
  forEachFrom a f 0%nat (length elements).

(** [for (const x of a) ...]: before each pass the index is compared with
    the length the array has then.  [fuel] bounds the number of passes. *)
Fixpoint forOf (fuel : nat) (a : ref) (i : nat) (body : Z -> M unit) : M unit :=
  fun s =>
    match contents s a !! i with
    | None => (inl tt, s)
    | Some x =>
        match fuel with
        | O => (inr OutOfFuel, s)
        | S fuel' => (let! _ := body x in forOf fuel' a (S i) body) s
        end
    end.

(** The callback of [divisor.forEach]. *)
Definition xorCoef (result : ref) (factor : Z) (coef : Z) (i : nat) : M unit :=
  let! m := lift (reedSolomonMultiply coef factor) in
  xorAt result i m.

(** The body of the loop for the byte [b]. *)
Definition remainderStep (result divisor : ref) (b : Z) : M unit :=
  let! first := shift result in
  let factor := JS.xor b (JS.operand first) in
  let! _ := push result 0 in
  forEach divisor (xorCoef result factor).

(** The method on references.  The loop gets as many passes as the data
    has elements on entry. *)
Definition reedSolomonComputeRemainder (data divisor : ref) : M ref :=
  let! result := mapZero divisor in
  let! elements := read data in
  let! _ := forOf (length elements) data 0%nat (remainderStep result divisor) in
  ret result.

(** [a.slice(start, end)]: a new array. *)
Definition slice (a : ref) (start stop : Z) : M ref :=
  let! elements := read a in
  alloc (JS.slice elements start stop).

(** [a.concat(b)]: a new array. *)
Definition concat (a b : ref) : M ref :=
  let! x := read a in
  let! y := read b in
  alloc (x ++ y).

(** [a.length]. *)
Definition arrayLength (a : ref) : M Z :=
  let! elements := read a in
  ret (Z.of_nat (length elements)).

Fixpoint foldM {A St : Type} (f : St -> A -> M St) (l : list A) (st : St) : M St :=
  match l with
  | [] => ret st
  | a :: l' => let! st' := f st a in foldM f l' st'
  end.

(** The body of the loop "Split data into blocks and append ECC to each
    block" on references.  [blocks], an array that only this loop holds,
    is the list of the references of the blocks built so far. *)
Definition splitStep (data rsDiv : ref) (p : BlockParams)
    (st : Z * list ref) (i : Z) : M (Z * list ref) :=
  let '(k, blocks) := st in
  let! dat :=
    slice data k
      (k + shortBlockLen p - blockEccLen p + (if i <? numShortBlocks p then 0 else 1)) in
  let! len := arrayLength dat in
  let k := k + len in
  let! ecc := reedSolomonComputeRemainder dat rsDiv in
  let! _ := if i <? numShortBlocks p then push dat 0 else ret tt in
  let! block := concat dat ecc in
  ret (k, blocks ++ [block]).

(** The loop, all its passes with the one divisor [rsDiv] computed before
    it. *)
Definition splitLoop (data rsDiv : ref) (p : BlockParams) : M (Z * list ref) :=
  foldM (splitStep data rsDiv p) (seqZ 0 (numBlocks p)) (0, []).

End Heap.

(** * Predicates and examples used in the statements *)

Definition Byte (n : Z) : Prop := 0 <= n <= 255.

Definition isByte (n : Z) : bool := (0 <=? n) && (n <=? 255).

(** [post P E m]: [m] returns a value satisfying [P] or throws an exception
    satisfying [E]. *)
Definition post {A : Type} (P : A -> Prop) (E : exn -> Prop) (m : outcome A) : Prop :=
  match m with
  | Ok a => P a
  | Throw e => E e
  end.

Definition outcome_eqb (a b : outcome Z) : bool :=
  match a, b with
  | Ok x, Ok y => x =? y
  | _, _ => false
  end.

(** The closed form as the specification words it: the quadratic term, less
    the alignment-pattern modules from version 2 on, less 36 from version 7
    on. *)
Definition rawDataModulesFormula (ver : Z) : Z :=
  (16 * ver + 128) * ver + 64
  - (if 2 <=? ver
     then let numAlign := ver / 7 + 2 in (25 * numAlign - 10) * numAlign - 55
     else 0)
  - (if 7 <=? ver then 36 else 0).

(** The exceptions a multiplication may raise. *)
Definition multiplyExn (e : exn) : Prop := e = ByteOutOfRange \/ e = AssertionError.

(** The numbers of a call whose tables give at least one block and an ECC
    length that fits, for data of [len] bytes. *)
Record wfParams (p : BlockParams) (len : Z) : Prop := {
  wf_blocks : 1 <= numBlocks p;
  wf_short : 1 <= numShortBlocks p <= numBlocks p;
  wf_raw : rawCodewords p =
           numBlocks p * shortBlockLen p + (numBlocks p - numShortBlocks p);
  wf_ecc : 1 <= blockEccLen p <= 255;
  wf_fit : blockEccLen p <= shortBlockLen p;
  wf_len : len = rawCodewords p - blockEccLen p * numBlocks p
}.

(** The number of data bytes of the first [i] blocks. *)
Definition cursor (p : BlockParams) (i : Z) : Z :=
  i * (shortBlockLen p - blockEccLen p) + Z.max 0 (i - numShortBlocks p).

(** What every block built by the loop satisfies: the uniform length, and
    in a short block the zero pad byte right after the data. *)
Definition blockOk (p : BlockParams) (j : nat) (block : list Z) : Prop :=
  Z.of_nat (length block) = shortBlockLen p + 1 /\
  (Z.of_nat j < numShortBlocks p ->
   block !! Z.to_nat (shortBlockLen p - blockEccLen p) = Some 0).

Definition blocksOk (p : BlockParams) (blocks : list (list Z)) : Prop :=
  forall j block, blocks !! j = Some block -> blockOk p j block.

(** The table entries a call reads. *)
Definition tableNumBlocks (QrCode : QRCode) : Z :=
  NUM_ERROR_CORRECTION_BLOCKS QrCode (error_correction_level QrCode) (version QrCode).

Definition tableEccLen (QrCode : QRCode) : Z :=
  ECC_CODEWORDS_PER_BLOCK QrCode (error_correction_level QrCode) (version QrCode).

(** The numbers of a call for a version from 1 to 40. *)
Definition paramsOf (QrCode : QRCode) : BlockParams :=
  let raw := rawDataModulesFormula (version QrCode) / 8 in
  {| numBlocks := tableNumBlocks QrCode;
     blockEccLen := tableEccLen QrCode;
     rawCodewords := raw;
     numShortBlocks := tableNumBlocks QrCode - Z.rem raw (tableNumBlocks QrCode);
     shortBlockLen := raw / tableNumBlocks QrCode |}.

(** The exceptions of a call, each with the condition under which it is
    thrown. *)
Definition callExn (data : list Z) (QrCode : QRCode) (e : exn) : Prop :=
  (e = VersionOutOfRange /\ ~ (1 <= version QrCode <= 40)) \/
  (e = InvalidArgument /\ 1 <= version QrCode <= 40 /\
   getNumDataCodewords (version QrCode) QrCode <> Ok (Z.of_nat (length data))) \/
  (e = DegreeOutOfRange /\ ~ (1 <= tableEccLen QrCode <= 255)) \/
  (e = TypeError /\ tableNumBlocks QrCode <= 0) \/
  (multiplyExn e /\ ~ Forall Byte data).

(** What holds when the blocks of a call have been built. *)
Definition blocksBuilt (data : list Z) (QrCode : QRCode)
    (pb : BlockParams * list (list Z)) : Prop :=
  1 <= version QrCode <= 40 /\
  getNumDataCodewords (version QrCode) QrCode = Ok (Z.of_nat (length data)) /\
  1 <= tableEccLen QrCode <= 255 /\
  fst pb = paramsOf QrCode /\
  ((tableNumBlocks QrCode <= 0 /\ snd pb = []) \/
   (wfParams (paramsOf QrCode) (Z.of_nat (length data)) /\
    Z.of_nat (length (snd pb)) = tableNumBlocks QrCode /\
    blocksOk (paramsOf QrCode) (snd pb))).

(** The sum of the lengths of the blocks. *)
Definition sumLengths (blocks : list (list Z)) : Z :=
  fold_right (fun block n => Z.of_nat (length block) + n) 0 blocks.

(** The preconditions of a call: a version from 1 to 40, table entries with
    at least one block and an ECC length from 1 to 255 that fits in a short
    block, and as many data bytes as [getNumDataCodewords] gives. *)
Record callPre (data : list Z) (QrCode : QRCode) : Prop := {
  pre_version : 1 <= version QrCode <= 40;
  pre_blocks : 1 <= tableNumBlocks QrCode;
  pre_ecc : 1 <= tableEccLen QrCode <= 255;
  pre_fit : tableEccLen QrCode <=
            (rawDataModulesFormula (version QrCode) / 8) / tableNumBlocks QrCode;
  pre_bytes : Forall Byte data;
  pre_length : getNumDataCodewords (version QrCode) QrCode = Ok (Z.of_nat (length data))
}.

(** The entries of the standard's tables for version 1, level M (one block
    with 10 ECC bytes) and for version 5, level Q (four blocks with 18 ECC
    bytes each), and data for them. *)
Definition qr1M : QRCode :=
  {| version := 1; error_correction_level := M;
     ECC_CODEWORDS_PER_BLOCK := fun _ _ => 10;
     NUM_ERROR_CORRECTION_BLOCKS := fun _ _ => 1 |}.

Definition qr5Q : QRCode :=
  {| version := 5; error_correction_level := Q;
     ECC_CODEWORDS_PER_BLOCK := fun _ _ => 18;
     NUM_ERROR_CORRECTION_BLOCKS := fun _ _ => 4 |}.

Definition data1M : list Z :=
  [32; 91; 11; 120; 209; 114; 220; 77; 67; 64; 236; 17; 236; 17; 236; 17].

Definition data5Q : list Z := seqZ 1 62.

(** [writesOnly result s run pure]: the run of a computation from the
    store [s] has changed at most the array at [result], and what it
    returned and left there is what the computation on values gives. *)
Definition writesOnly (result : Heap.ref) (s : Heap.store)
    (run : (unit + Heap.halt) * Heap.store) (pure : outcome (list Z)) : Prop :=
  exists a,
    snd run = <[result := a]> s /\
    match pure with
    | Ok a' => fst run = inl tt /\ a = a'
    | Throw e => fst run = inr (Heap.Exn e)
    end.


(** ** The field of the bytes and polynomials over it *)

(** The product [reedSolomonMultiply] returns (0 where it throws). *)
Definition mul (x y : Z) : Z :=
  match reedSolomonMultiply x y with
  | Ok z => z
  | Throw _ => 0
  end.

(** Powers by repeated multiplication, as [reedSolomonComputeDivisor] steps
    its [root]. *)
Fixpoint gpow (a : Z) (n : nat) : Z :=
  match n with
  | O => 1
  | S n' => mul (gpow a n') a
  end.

(** A function on bytes that maps [^] to [^]. *)
Definition additive (f : Z -> Z) : Prop :=
  forall a b, Byte a -> Byte b -> f (Z.lxor a b) = Z.lxor (f a) (f b).

(** The first [n] powers of [a] from [p] on: [p], [p * a], [p * a * a], ... *)
Fixpoint powers (a : Z) (n : nat) (p : Z) : list Z :=
  match n with
  | O => []
  | S n' => p :: powers a n' (mul p a)
  end.

(** No element occurs twice. *)
Fixpoint nodupb (l : list Z) : bool :=
  match l with
  | [] => true
  | x :: t => negb (existsb (Z.eqb x) t) && nodupb t
  end.

(** The value at [a] of the polynomial with the coefficients [p], which
    the source stores "from highest to lowest power" (Horner's rule), the
    sum being [^] and the product the multiplication of the bytes. *)
Definition evalPoly (p : list Z) (a : Z) : Z :=
  fold_left (fun acc c => Z.lxor (mul acc a) c) p 0.

(** The product of [a ^ 2^i] for [i] below [n]: the value at [a] of
    "the product polynomial (x - r^0) * (x - r^1) * ... * (x - r^{n-1})"
    of the source, where r is 2 and the difference is [^]. *)
Fixpoint rootsProduct (a : Z) (n : nat) : Z :=
  match n with
  | O => 1
  | S n' => mul (rootsProduct a n') (Z.lxor a (gpow 2 n'))
  end.

(** What a pass of the inner loop of [reedSolomonComputeDivisor] leaves in
    the array: every coefficient times [root], [^] its right neighbour. *)
Fixpoint shiftMul (root : Z) (l : list Z) : list Z :=
  match l with
  | [] => []
  | c :: t => Z.lxor (mul c root) (hd 0 t) :: shiftMul root t
  end.

(** The array after [divisor.forEach((coef, i) => result[i] ^= multiply(coef, factor))]. *)
Fixpoint addScaled (factor : Z) (result divisor : list Z) : list Z :=
  match result, divisor with
  | x :: result', coef :: divisor' =>
      Z.lxor x (mul coef factor) :: addScaled factor result' divisor'
  | _, _ => result
  end.

(** ** The blocks of a call *)

(** The data of block [j]: the bytes of [data] from the cursor of the
    block to the cursor of the next one. *)
Definition blockData (data : list Z) (p : BlockParams) (j : Z) : list Z :=
  JS.slice data (cursor p j) (cursor p (j + 1)).

(** The pad byte that a short block gets after its data. *)
Definition padOf (p : BlockParams) (j : Z) : list Z :=
  if j <? numShortBlocks p then [0] else [].

(** Block [j] as the loop builds it with the divisor [rsDiv]. *)
Definition blockOf (data rsDiv : list Z) (p : BlockParams) (j : nat) (block : list Z) : Prop :=
  exists ecc,
    reedSolomonComputeRemainder (blockData data p (Z.of_nat j)) rsDiv = Ok ecc /\
    block = blockData data p (Z.of_nat j) ++ padOf p (Z.of_nat j) ++ ecc.

(** Where the interleaving puts element [i] of block [j]: the elements
    with the index [i] of all blocks follow those with the index [i - 1],
    less the pad bytes of the short blocks. *)
Definition outIndex (p : BlockParams) (i j : Z) : Z :=
  i * numBlocks p + j
  - (if i <? shortBlockLen p - blockEccLen p then 0 else numShortBlocks p).

(** Element [i] of block [j] is kept by the interleaving: it is not the
    pad byte of a short block. *)
Definition kept (p : BlockParams) (i j : Z) : Prop :=
  ~ (i = shortBlockLen p - blockEccLen p /\ j < numShortBlocks p).

(** The length of the output when the elements with an index below [i],
    and the element [i] of the first [j] blocks, have been handled. *)
Definition outCount (p : BlockParams) (i j : Z) : Z :=
  i * numBlocks p
  - (if i <=? shortBlockLen p - blockEccLen p then 0 else numShortBlocks p)
  + (if i =? shortBlockLen p - blockEccLen p then Z.max 0 (j - numShortBlocks p) else j).

(** The output at that point: the elements handled are at their places,
    and there is nothing else. *)
Definition layout (blocks : list (list Z)) (p : BlockParams) (i : Z) (j : nat)
    (out : list Z) : Prop :=
  Z.of_nat (length out) = outCount p i (Z.of_nat j) /\
  (forall i' j' block,
     0 <= i' < i \/ (i' = i /\ (j' < j)%nat) ->
     kept p i' (Z.of_nat j') -> blocks !! j' = Some block ->
     out !! Z.to_nat (outIndex p i' (Z.of_nat j')) = block !! Z.to_nat i') /\
  forall n, (n < length out)%nat ->
    exists i' j',
      (0 <= i' < i \/ (i' = i /\ (j' < j)%nat)) /\ (j' < length blocks)%nat /\
      kept p i' (Z.of_nat j') /\ n = Z.to_nat (outIndex p i' (Z.of_nat j')).

(** * Properties *)

(** ** Bytes and 32-bit conversions *)

Lemma isByte_spec n : isByte n = true <-> Byte n.
Proof. unfold isByte, Byte. rewrite andb_true_iff, !Z.leb_le. tauto. Qed.

(** A property checked on the 256 bytes holds of every byte. *)
Lemma forallb_bytes (f : Z -> bool) :
  forallb f (seqZ 0 256) = true -> forall n, Byte n -> f n = true.
Proof.
  intros Hall n Hn. rewrite forallb_forall in Hall. apply Hall.
  apply list_elem_of_In, elem_of_seqZ. unfold Byte in Hn. lia.
Qed.

Lemma ToUint32_mod n : JS.ToUint32 n = n mod 2 ^ 32.
Proof.
  unfold JS.ToUint32. change 0xFFFFFFFF with (Z.ones 32).
  apply Z.land_ones. lia.
Qed.

(** [JS.ToInt32] is the residue modulo 2^32 that lies from -2^31 up to
    2^31 - 1. *)
Lemma ToInt32_mod n : JS.ToInt32 n = (n + 2 ^ 31) mod 2 ^ 32 - 2 ^ 31.
Proof.
  unfold JS.ToInt32. rewrite ToUint32_mod. cbv zeta.
  pose proof (Z.mod_pos_bound n (2 ^ 32) ltac:(lia)) as Hu.
  destruct (Z.testbit (n mod 2 ^ 32) 31) eqn:Hbit.
  - apply Z.testbit_true in Hbit; [| lia].
    assert (2 ^ 31 <= n mod 2 ^ 32) by (Z.div_mod_to_equations; lia).
    change 0x100000000 with (2 ^ 32). Z.div_mod_to_equations. lia.
  - apply Z.testbit_false in Hbit; [| lia].
    assert (n mod 2 ^ 32 < 2 ^ 31) by (Z.div_mod_to_equations; lia).
    Z.div_mod_to_equations. lia.
Qed.

Lemma ToUint32_small n : 0 <= n < 2 ^ 32 -> JS.ToUint32 n = n.
Proof. intros. rewrite ToUint32_mod. apply Z.mod_small. lia. Qed.

Lemma ToInt32_small n : 0 <= n < 2 ^ 31 -> JS.ToInt32 n = n.
Proof.
  intros Hn. unfold JS.ToInt32. rewrite ToUint32_small by lia.
  destruct (Z.eq_dec n 0) as [-> | Hnz]; [reflexivity |].
  rewrite Z.bits_above_log2; [reflexivity | lia |].
  apply Z.log2_lt_pow2; lia.
Qed.

Lemma ToInt32_byte n : Byte n -> JS.ToInt32 n = n.
Proof. unfold Byte. intros. apply ToInt32_small. lia. Qed.

Lemma lxor_byte a b : Byte a -> Byte b -> Byte (Z.lxor a b).
Proof.
  unfold Byte. intros Ha Hb.
  assert (0 <= Z.lxor a b) as Hnn by (apply Z.lxor_nonneg; lia).
  split; [exact Hnn |].
  destruct (Z.eq_dec (Z.lxor a b) 0) as [-> | Hnz]; [lia |].
  enough (Z.lxor a b < 2 ^ 8) by lia.
  apply Z.log2_lt_pow2; [lia |].
  pose proof (Z.log2_lxor a b ltac:(lia) ltac:(lia)) as Hlog.
  assert (Z.log2 a < 8) as Hla.
  { destruct (Z.eq_dec a 0) as [-> | ?]; [reflexivity |]. apply Z.log2_lt_pow2; lia. }
  assert (Z.log2 b < 8) as Hlb.
  { destruct (Z.eq_dec b 0) as [-> | ?]; [reflexivity |]. apply Z.log2_lt_pow2; lia. }
  lia.
Qed.

Lemma xor_byte a b : Byte a -> Byte b -> Byte (JS.xor a b).
Proof.
  intros Ha Hb. unfold JS.xor. rewrite !ToInt32_byte by assumption.
  by apply lxor_byte.
Qed.

Lemma shru8_byte n : Byte n -> JS.shru n 8 = 0.
Proof.
  unfold Byte. intros Hn. unfold JS.shru. rewrite ToUint32_small by lia.
  change (Z.land 8 31) with 8. rewrite Z.shiftr_div_pow2 by lia.
  apply Z.div_small. lia.
Qed.

(** The bit of [y] selected by a pass of the multiplication is 0 or 1. *)
Lemma and_one n : JS.and n 1 = 0 \/ JS.and n 1 = 1.
Proof.
  unfold JS.and. change (JS.ToInt32 1) with (Z.ones 1).
  rewrite Z.land_ones by lia.
  pose proof (Z.mod_pos_bound (JS.ToInt32 n) (2 ^ 1) ltac:(lia)). lia.
Qed.

(** ** The outcome of a computation *)

Lemma post_bind {A B : Type} (P : A -> Prop) (Q : B -> Prop) (E : exn -> Prop)
    (m : outcome A) (k : A -> outcome B) :
  post P E m -> (forall a, P a -> post Q E (k a)) -> post Q E (bind m k).
Proof. destruct m as [a | e]; simpl; auto. Qed.

Lemma post_weaken {A : Type} (P Q : A -> Prop) (E F : exn -> Prop) (m : outcome A) :
  post P E m -> (forall a, P a -> Q a) -> (forall e, E e -> F e) -> post Q F m.
Proof. destruct m as [a | e]; simpl; auto. Qed.

(** A loop keeps an invariant of its state. *)
Lemma post_foldM {A St : Type} (Inv : St -> Prop) (E : exn -> Prop)
    (f : St -> A -> outcome St) (l : list A) :
  (forall s a, a ∈ l -> Inv s -> post Inv E (f s a)) ->
  forall s, Inv s -> post Inv E (foldM f l s).
Proof.
  induction l as [| a l IH]; intros Hstep s Hs; simpl; [exact Hs |].
  eapply post_bind.
  - apply Hstep; [left | exact Hs].
  - intros s' Hs'. apply IH; [| exact Hs'].
    intros s0 a0 Hin. apply Hstep. by right.
Qed.

(** A counted loop [for (i = m; i < m + n; i++)] moves an invariant that
    depends on the counter from [m] to [m + n]. *)
Lemma post_foldM_seqZ {St : Type} (Inv : Z -> St -> Prop) (E : exn -> Prop)
    (f : St -> Z -> outcome St) (n : nat) :
  forall m s,
    (forall i s, m <= i < m + Z.of_nat n -> Inv i s -> post (Inv (i + 1)) E (f s i)) ->
    Inv m s -> post (Inv (m + Z.of_nat n)) E (foldM f (seqZ m (Z.of_nat n)) s).
Proof.
  induction n as [| n IH]; intros m s Hstep Hs.
  - simpl. rewrite Z.add_0_r. exact Hs.
  - rewrite seqZ_cons by lia. simpl foldM.
    eapply post_bind.
    + apply Hstep; [lia | exact Hs].
    + intros s' Hs'.
      replace (Z.pred (Z.of_nat (S n))) with (Z.of_nat n) by lia.
      replace (m + Z.of_nat (S n)) with (Z.succ m + Z.of_nat n) by lia.
      apply IH; [| by replace (Z.succ m) with (m + 1) by lia].
      intros i s0 Hi. apply Hstep. lia.
Qed.

(** [forEach] moves an invariant that depends on the index along the array. *)
Lemma post_forEach {A St : Type} (Inv : nat -> St -> Prop) (E : exn -> Prop)
    (f : St -> A -> nat -> outcome St) (l : list A) :
  forall i s,
    (forall j a s, l !! j = Some a -> Inv (i + j)%nat s ->
                   post (Inv (S (i + j))) E (f s a (i + j)%nat)) ->
    Inv i s -> post (Inv (i + length l)%nat) E (forEach f l i s).
Proof.
  induction l as [| a l IH]; intros i s Hstep Hs; simpl.
  - by rewrite Nat.add_0_r.
  - eapply post_bind.
    + specialize (Hstep 0%nat a s eq_refl). rewrite Nat.add_0_r in Hstep.
      apply Hstep, Hs.
    + intros s' Hs'. replace (i + S (length l))%nat with (S i + length l)%nat by lia.
      apply IH; [| exact Hs'].
      intros j a0 s0 Hj Hinv. specialize (Hstep (S j) a0 s0 Hj).
      replace (i + S j)%nat with (S i + j)%nat in Hstep by lia. by apply Hstep.
Qed.

(** ** Multiplication in GF(2^8) *)

Lemma double_byte z :
  Byte z -> Byte (JS.xor (JS.shl z 1) (JS.shru z 7 * 0x11D)).
Proof.
  intros Hz. apply isByte_spec.
  revert z Hz. apply forallb_bytes. vm_compute. reflexivity.
Qed.

Lemma multiplyStep_byte x y z i : Byte x -> Byte z -> Byte (multiplyStep x y z i).
Proof.
  intros Hx Hz. unfold multiplyStep.
  apply xor_byte; [by apply double_byte |].
  destruct (and_one (JS.shru y i)) as [-> | ->].
  - rewrite Z.mul_0_l. unfold Byte. lia.
  - by rewrite Z.mul_1_l.
Qed.

Lemma multiply_loop_byte x y (l : list Z) z :
  Byte x -> Byte z -> Byte (fold_left (multiplyStep x y) l z).
Proof.
  intros Hx. revert z. induction l as [| i l IH]; intros z Hz; simpl; [exact Hz |].
  apply IH. by apply multiplyStep_byte.
Qed.

(** On bytes the multiplication returns a byte. *)
Lemma multiply_byte x y :
  Byte x -> Byte y -> exists z, reedSolomonMultiply x y = Ok z /\ Byte z.
Proof.
  intros Hx Hy. unfold reedSolomonMultiply.
  rewrite (shru8_byte x Hx), (shru8_byte y Hy).
  change (negb (0 =? 0) || negb (0 =? 0)) with false. cbv beta iota zeta.
  set (z := fold_left _ _ _).
  assert (Byte z) as Hz.
  { apply multiply_loop_byte; [exact Hx | unfold Byte; lia]. }
  rewrite (shru8_byte z Hz). change (negb (0 =? 0)) with false.
  cbv beta iota. eauto.
Qed.

(** The exceptions of a multiplication. *)
Lemma multiply_throws x y e :
  reedSolomonMultiply x y = Throw e -> e = ByteOutOfRange \/ e = AssertionError.
Proof.
  unfold reedSolomonMultiply.
  destruct (_ || _); [intros [= <-]; by left |].
  destruct (negb _); [intros [= <-]; by right | discriminate].
Qed.

(** The multiplication returns a byte when both arguments are bytes, and
    throws only when one of them is not. *)
Lemma multiply_post x y :
  post (fun z => Byte x -> Byte y -> Byte z)
       (fun e => (e = ByteOutOfRange \/ e = AssertionError) /\ ~ (Byte x /\ Byte y))
       (reedSolomonMultiply x y).
Proof.
  destruct (reedSolomonMultiply x y) as [z | e] eqn:Hm; simpl.
  - intros Hx Hy. destruct (multiply_byte x y Hx Hy) as (z' & Hz' & Hb). congruence.
  - split; [by eapply multiply_throws |].
    intros [Hx Hy]. destruct (multiply_byte x y Hx Hy) as (z' & Hz' & Hb). congruence.
Qed.

Lemma outcome_eqb_eq a b : outcome_eqb a b = true -> a = b.
Proof.
  destruct a as [x | ?], b as [y | ?]; simpl; try discriminate.
  intros ->%Z.eqb_eq. reflexivity.
Qed.

(** The multiplication table is symmetric: checked below the diagonal. *)
Lemma multiply_table_symmetric x y :
  Byte x -> 0 <= y < x -> reedSolomonMultiply x y = reedSolomonMultiply y x.
Proof.
  intros Hx Hy. apply outcome_eqb_eq.
  assert (forallb (fun x => forallb (fun y =>
            outcome_eqb (reedSolomonMultiply x y) (reedSolomonMultiply y x))
            (seqZ 0 x)) (seqZ 0 256) = true) as Hall by (vm_compute; reflexivity).
  pose proof (forallb_bytes _ Hall x Hx) as Hrow. cbv beta in Hrow.
  rewrite forallb_forall in Hrow. apply Hrow.
  apply list_elem_of_In, elem_of_seqZ. lia.
Qed.

Lemma multiply_one x : Byte x -> reedSolomonMultiply x 1 = Ok x.
Proof.
  intros Hx. apply outcome_eqb_eq. revert x Hx.
  apply forallb_bytes. vm_compute. reflexivity.
Qed.

Lemma multiply_zero x : Byte x -> reedSolomonMultiply x 0 = Ok 0.
Proof.
  intros Hx. apply outcome_eqb_eq. revert x Hx.
  apply forallb_bytes. vm_compute. reflexivity.
Qed.

(** C6: on bytes, [reedSolomonMultiply] has 1 as a unit and 0 as an
    absorbing element on the right, and it is commutative, although its
    loop reads the bits of [y] and adds copies of [x]. *)
Theorem multiply_field_laws (x y : Z) :
  Byte x -> Byte y ->
  reedSolomonMultiply x 1 = Ok x /\
  reedSolomonMultiply x 0 = Ok 0 /\
  reedSolomonMultiply x y = reedSolomonMultiply y x.
Proof.
  intros Hx Hy. split; [by apply multiply_one |]. split; [by apply multiply_zero |].
  destruct (Z.lt_trichotomy x y) as [Hlt | [-> | Hgt]].
  - symmetry. apply multiply_table_symmetric; [exact Hy | unfold Byte in Hx; lia].
  - reflexivity.
  - apply multiply_table_symmetric; [exact Hx | unfold Byte in Hy; lia].
Qed.

(** The laws at 87 and 131. *)
Lemma multiply_field_laws_witness :
  reedSolomonMultiply 87 1 = Ok 87 /\
  reedSolomonMultiply 87 0 = Ok 0 /\
  reedSolomonMultiply 87 131 = reedSolomonMultiply 131 87.
Proof. apply (multiply_field_laws 87 131); unfold Byte; lia. Defined.

(** C7: on bytes, the accumulator of [reedSolomonMultiply] is a byte after
    each pass of the loop (a pass takes a byte to a byte, and the loop
    starts from 0), and the multiplication returns a byte: the final
    "Assertion error" is not thrown. *)
Theorem multiply_closed (x y : Z) :
  Byte x -> Byte y ->
  (forall z i, Byte z -> Byte (multiplyStep x y z i)) /\
  (forall n, Byte (fold_left (multiplyStep x y) (take n [7; 6; 5; 4; 3; 2; 1; 0]) 0)) /\
  (exists z, reedSolomonMultiply x y = Ok z /\ 0 <= z <= 255) /\
  reedSolomonMultiply x y <> Throw AssertionError.
Proof.
  intros Hx Hy. split; [intros z i; by apply multiplyStep_byte |].
  split; [intros n; apply multiply_loop_byte; [exact Hx | unfold Byte; lia] |].
  destruct (multiply_byte x y Hx Hy) as (z & Hz & Hb).
  split; [by exists z | by rewrite Hz].
Qed.

(** The closure at 87 and 131. *)
Lemma multiply_closed_witness :
  (forall z i, Byte z -> Byte (multiplyStep 87 131 z i)) /\
  (forall n, Byte (fold_left (multiplyStep 87 131) (take n [7; 6; 5; 4; 3; 2; 1; 0]) 0)) /\
  (exists z, reedSolomonMultiply 87 131 = Ok z /\ 0 <= z <= 255) /\
  reedSolomonMultiply 87 131 <> Throw AssertionError.
Proof. apply (multiply_closed 87 131); unfold Byte; lia. Defined.

(** ** The number of raw data modules *)

(** A property checked on the 40 versions holds of every version. *)
Lemma forallb_versions (f : Z -> bool) :
  forallb f (seqZ 1 40) = true -> forall ver, 1 <= ver <= 40 -> f ver = true.
Proof.
  intros Hall ver Hver. rewrite forallb_forall in Hall. apply Hall.
  apply list_elem_of_In, elem_of_seqZ. lia.
Qed.

Lemma getNumRawDataModules_formula ver :
  1 <= ver <= 40 ->
  getNumRawDataModules ver = Ok (rawDataModulesFormula ver) /\
  208 <= rawDataModulesFormula ver <= 29648.
Proof.
  intros Hver.
  enough (outcome_eqb (getNumRawDataModules ver) (Ok (rawDataModulesFormula ver))
          && (208 <=? rawDataModulesFormula ver)
          && (rawDataModulesFormula ver <=? 29648) = true) as Hb.
  { rewrite !andb_true_iff, !Z.leb_le in Hb. destruct Hb as [[Heq ?] ?].
    split; [by apply outcome_eqb_eq | lia]. }
  revert ver Hver. apply forallb_versions. vm_compute. reflexivity.
Qed.

Lemma getNumRawDataModules_range ver :
  ~ (1 <= ver <= 40) -> getNumRawDataModules ver = Throw VersionOutOfRange.
Proof.
  intros Hver. unfold getNumRawDataModules.
  destruct ((ver <? 1) || (ver >? 40)) eqn:Hc; [reflexivity | lia].
Qed.

(** C8: for a version from 1 to 40, [getNumRawDataModules] returns the
    closed form of the specification; the value lies between 208 and 29648,
    so the "Assertion error" is not thrown. *)
Theorem getNumRawDataModules_closed_form (ver : Z) :
  1 <= ver <= 40 ->
  getNumRawDataModules ver = Ok (rawDataModulesFormula ver) /\
  208 <= rawDataModulesFormula ver <= 29648 /\
  getNumRawDataModules ver <> Throw AssertionError.
Proof.
  intros Hver. destruct (getNumRawDataModules_formula ver Hver) as [Heq Hb].
  split; [exact Heq |]. split; [exact Hb |]. by rewrite Heq.
Qed.

(** The closed form at version 7. *)
Lemma getNumRawDataModules_closed_form_witness :
  getNumRawDataModules 7 = Ok (rawDataModulesFormula 7) /\
  208 <= rawDataModulesFormula 7 <= 29648 /\
  getNumRawDataModules 7 <> Throw AssertionError.
Proof. apply (getNumRawDataModules_closed_form 7). lia. Defined.

(** ** The divisor polynomial *)

Lemma get_lt (a : list Z) (i : nat) :
  (i < length a)%nat -> exists v, a !! i = Some v /\ get a i = Ok v.
Proof.
  intros Hi. destruct (lookup_lt_is_Some_2 a i Hi) as [v Hv].
  exists v. unfold get. by rewrite Hv.
Qed.

Lemma divisorStep_post root result j :
  Byte root -> Forall Byte result -> (j < length result)%nat ->
  post (fun r => length r = length result /\ Forall Byte r) (fun _ => False)
       (divisorStep root result j).
Proof.
  intros Hroot Hres Hj. unfold divisorStep.
  destruct (get_lt result j Hj) as (rj & Hrj & ->). cbn [bind].
  assert (Byte rj) as Hbrj by (eapply Forall_lookup_1; eauto).
  destruct (multiply_byte rj root Hbrj Hroot) as (m & -> & Hm). cbn [bind].
  assert (Forall Byte (<[j:=m]> result)) as Hres' by (by apply Forall_insert).
  rewrite length_insert.
  destruct (j + 1 <? length result)%nat eqn:Hlt.
  - apply Nat.ltb_lt in Hlt.
    destruct (get_lt (<[j:=m]> result) j) as (rj' & Hrj' & ->);
      [by rewrite length_insert |]. cbn [bind].
    destruct (get_lt (<[j:=m]> result) (j + 1)) as (rj1 & Hrj1 & ->);
      [by rewrite length_insert |]. cbn [bind post].
    rewrite !length_insert. split; [reflexivity |].
    apply Forall_insert; [exact Hres' |].
    apply xor_byte; eapply Forall_lookup_1; eauto.
  - cbn [post]. by rewrite length_insert.
Qed.

Lemma divisorPass_post root result :
  Byte root -> Forall Byte result ->
  post (fun r => length r = length result /\ Forall Byte r) (fun _ => False)
       (foldM (divisorStep root) (seq 0 (length result)) result).
Proof.
  intros Hroot Hres.
  apply (post_foldM (fun r => length r = length result /\ Forall Byte r)); [| by split].
  intros s j Hj [Hlen Hs].
  apply elem_of_seq in Hj.
  eapply post_weaken; [apply divisorStep_post; try assumption; lia | | tauto].
  intros r [Hr ?]. split; [congruence | assumption].
Qed.

Lemma reedSolomonComputeDivisor_post degree :
  post (fun r => 1 <= degree <= 255 /\ Z.of_nat (length r) = degree /\ Forall Byte r)
       (fun e => e = DegreeOutOfRange /\ ~ (1 <= degree <= 255))
       (reedSolomonComputeDivisor degree).
Proof.
  unfold reedSolomonComputeDivisor.
  destruct ((degree <? 1) || (degree >? 255)) eqn:Hc.
  { cbn [post]. split; [reflexivity | lia]. }
  assert (1 <= degree <= 255) as Hdeg by lia. clear Hc.
  set (Inv := fun s : list Z * Z =>
                Z.of_nat (length (fst s)) = degree /\ Forall Byte (fst s) /\ Byte (snd s)).
  eapply post_bind with (P := Inv).
  - eapply post_weaken with (E := fun _ => False); [| intros a Ha; exact Ha | tauto].
    apply post_foldM.
    + intros [result root] i _ (Hlen & Hres & Hroot). cbn [fst snd] in *.
      eapply post_bind; [by apply divisorPass_post |].
      intros r [Hr Hbr]. cbn beta.
      destruct (multiply_byte root 2 Hroot) as (root' & -> & Hroot');
        [unfold Byte; lia |].
      cbn [bind post]. unfold Inv. cbn [fst snd].
      split; [by rewrite Hr | by split].
    + unfold Inv. cbn [fst snd]. rewrite length_app, length_replicate. cbn [length].
      split; [lia |]. split; [| unfold Byte; lia].
      apply Forall_app. split; [apply Forall_replicate | repeat constructor];
        unfold Byte; lia.
  - intros [result root] (Hlen & Hres & _). cbn [fst snd post] in *.
    split; [exact Hdeg | by split].
Qed.

(** C4: for a degree from 1 to 255, [reedSolomonComputeDivisor] returns as
    many coefficients as the degree (the leading 1 is not stored); for any
    other degree it throws "Degree out of range". *)
Theorem reedSolomonComputeDivisor_length (d : Z) :
  (1 <= d <= 255 ->
   exists r, reedSolomonComputeDivisor d = Ok r /\ Z.of_nat (length r) = d) /\
  (~ (1 <= d <= 255) -> reedSolomonComputeDivisor d = Throw DegreeOutOfRange).
Proof.
  pose proof (reedSolomonComputeDivisor_post d) as Hpost.
  destruct (reedSolomonComputeDivisor d) as [r | e]; cbn [post] in Hpost.
  - destruct Hpost as (Hd & Hlen & _). split; [by exists r | tauto].
  - destruct Hpost as [-> Hd]. split; [tauto | reflexivity].
Qed.

(** The degrees 7 and 256. *)
Lemma reedSolomonComputeDivisor_length_witness :
  (exists r, reedSolomonComputeDivisor 7 = Ok r /\ Z.of_nat (length r) = 7) /\
  reedSolomonComputeDivisor 256 = Throw DegreeOutOfRange.
Proof.
  split.
  - apply (reedSolomonComputeDivisor_length 7). lia.
  - apply (reedSolomonComputeDivisor_length 256). lia.
Defined.

(** The generator polynomials of degree 7 and 10 of the QR Code standard. *)
Example reedSolomonComputeDivisor_7 :
  reedSolomonComputeDivisor 7 = Ok [127; 122; 154; 164; 11; 68; 117].
Proof. vm_compute. reflexivity. Qed.

Example reedSolomonComputeDivisor_10 :
  reedSolomonComputeDivisor 10 = Ok [216; 194; 159; 111; 199; 94; 95; 113; 157; 193].
Proof. vm_compute. reflexivity. Qed.

(** ** The remainder *)

Lemma remainder_forEach_post divisor factor result :
  (length divisor <= length result)%nat ->
  post (fun r => length r = length result /\
                 (Forall Byte divisor -> Byte factor -> Forall Byte result -> Forall Byte r))
       (fun e => multiplyExn e /\ ~ (Forall Byte divisor /\ Byte factor))
       (forEach (xorCoef factor) divisor 0%nat result).
Proof.
  intros Hlen.
  pose (Inv := fun (_ : nat) (s : list Z) =>
                 length s = length result /\
                 (Forall Byte divisor -> Byte factor -> Forall Byte result -> Forall Byte s)).
  apply (post_forEach Inv); [| by split].
  intros j coef s Hcoef [Hs Hbs]. cbn [Nat.add]. unfold xorCoef.
  eapply post_bind.
  - eapply post_weaken; [apply multiply_post | intros m Hm; exact Hm |].
    intros e [He Hn]. split; [exact He |]. intros [Hd Hf]. apply Hn.
    split; [| exact Hf]. eapply Forall_lookup_1; eauto.
  - intros m Hm. cbn beta. unfold xorAt.
    destruct (get_lt s j) as (sj & Hsj & ->).
    { apply lookup_lt_Some in Hcoef. lia. }
    cbn [bind post]. split; [by rewrite length_insert |].
    intros Hd Hf Hr. apply Forall_insert; [by apply Hbs |].
    apply xor_byte.
    + eapply Forall_lookup_1; [by apply Hbs | exact Hsj].
    + apply Hm; [| exact Hf]. exact (Forall_lookup_1 Byte divisor j coef Hd Hcoef).
Qed.

Lemma remainderStep_post divisor result b :
  (length divisor <= length result)%nat ->
  post (fun r => length r = Nat.max 1 (length result) /\
                 (Forall Byte divisor -> Byte b -> Forall Byte result -> Forall Byte r))
       (fun e => multiplyExn e /\ ~ (Forall Byte divisor /\ Byte b /\ Forall Byte result))
       (remainderStep divisor result b).
Proof.
  intros Hlen. unfold remainderStep.
  destruct result as [| x t]; cbn [JS.shift JS.operand].
  - eapply post_weaken; [apply remainder_forEach_post; cbn [length app] in *; lia | |].
    + intros r [Hr Hb]. cbn [length app] in Hr. split; [exact Hr |].
      intros Hd Hbb _. apply Hb; [exact Hd | | repeat constructor; unfold Byte; lia].
      apply xor_byte; [exact Hbb | unfold Byte; lia].
    + intros e [He Hn]. split; [exact He |]. intros (Hd & Hbb & _). apply Hn.
      split; [exact Hd |]. apply xor_byte; [exact Hbb | unfold Byte; lia].
  - assert (length (t ++ [0]) = length (x :: t)) as Hlt
        by (rewrite length_app; cbn [length]; lia).
    eapply post_weaken; [apply remainder_forEach_post; lia | |].
    + intros r [Hr Hb]. split; [rewrite Hr, Hlt; cbn [length]; lia |].
      intros Hd Hbb Hxt. apply Forall_cons in Hxt as [Hx Ht].
      apply Hb; [exact Hd | by apply xor_byte |].
      apply Forall_app. split; [exact Ht | repeat constructor; unfold Byte; lia].
    + intros e [He Hn]. split; [exact He |]. intros (Hd & Hbb & Hxt). apply Hn.
      apply Forall_cons in Hxt as [Hx Ht]. split; [exact Hd | by apply xor_byte].
Qed.

Lemma remainderLoop_post divisor data :
  forall result,
    (length divisor <= length result)%nat ->
    post (fun r => length r = match data with
                              | [] => length result
                              | _ :: _ => Nat.max 1 (length result)
                              end /\
                   (Forall Byte divisor -> Forall Byte data -> Forall Byte result ->
                    Forall Byte r))
         (fun e => multiplyExn e /\
                   ~ (Forall Byte divisor /\ Forall Byte data /\ Forall Byte result))
         (foldM (remainderStep divisor) data result).
Proof.
  induction data as [| b data IH]; intros result Hlen; cbn [foldM post].
  - split; [reflexivity | auto].
  - eapply post_bind.
    + eapply post_weaken; [by apply remainderStep_post | intros r Hr; exact Hr |].
      intros e [He Hn]. split; [exact He |]. intros (Hd & Hbd & Hr). apply Hn.
      apply Forall_cons in Hbd as [Hb _]. auto.
    + intros s [Hs Hbs]. cbn beta.
      eapply post_weaken; [apply IH; lia | |].
      * intros r [Hr Hbr]. split.
        { rewrite Hr, Hs. destruct data; lia. }
        intros Hd Hbd Hres. apply Forall_cons in Hbd as [Hb Hdata].
        apply Hbr; [exact Hd | exact Hdata | by apply Hbs].
      * intros e [He Hn]. split; [exact He |]. intros (Hd & Hbd & Hres). apply Hn.
        apply Forall_cons in Hbd as [Hb Hdata]. auto.
Qed.

Lemma reedSolomonComputeRemainder_post data divisor :
  post (fun r => length r = match data with
                            | [] => length divisor
                            | _ :: _ => Nat.max 1 (length divisor)
                            end /\
                 (Forall Byte divisor -> Forall Byte data -> Forall Byte r))
       (fun e => multiplyExn e /\ ~ (Forall Byte divisor /\ Forall Byte data))
       (reedSolomonComputeRemainder data divisor).
Proof.
  unfold reedSolomonComputeRemainder.
  assert (Forall Byte (map (fun _ : Z => 0) divisor)) as Hzero.
  { induction divisor; cbn [map]; constructor; [unfold Byte; lia | assumption]. }
  eapply post_weaken; [apply remainderLoop_post; by rewrite length_map | |].
  - intros r [Hr Hb]. rewrite length_map in Hr. split; [exact Hr | auto].
  - intros e [He Hn]. split; [exact He |]. intros [Hd Hbd]. by apply Hn.
Qed.

(** On bytes, with a divisor that is not empty, the remainder is returned
    and has the length of the divisor. *)
Lemma reedSolomonComputeRemainder_bytes data divisor :
  Forall Byte data -> Forall Byte divisor -> divisor <> [] ->
  exists ecc, reedSolomonComputeRemainder data divisor = Ok ecc /\
              length ecc = length divisor /\ Forall Byte ecc.
Proof.
  intros Hdata Hdiv Hne.
  pose proof (reedSolomonComputeRemainder_post data divisor) as Hpost.
  destruct (reedSolomonComputeRemainder data divisor) as [r | e]; cbn [post] in Hpost.
  - destruct Hpost as [Hr Hb]. exists r. split; [reflexivity |].
    split; [| by apply Hb].
    destruct divisor; [done |]. destruct data; cbn [length] in *; lia.
  - destruct Hpost as [_ Hn]. exfalso. by apply Hn.
Qed.

(** C5, as the code has it: on a data sequence of bytes and a divisor
    sequence of bytes, [reedSolomonComputeRemainder] returns a sequence that
    has the length of the divisor when the divisor is not empty (or the
    data is); with an empty divisor and data that is not empty it returns
    one element. *)
Theorem reedSolomonComputeRemainder_length (data divisor : list Z) :
  Forall Byte data -> Forall Byte divisor ->
  exists r, reedSolomonComputeRemainder data divisor = Ok r /\
            (divisor <> [] \/ data = [] -> length r = length divisor) /\
            (divisor = [] -> data <> [] -> length r = 1%nat).
Proof.
  intros Hdata Hdiv.
  pose proof (reedSolomonComputeRemainder_post data divisor) as Hpost.
  destruct (reedSolomonComputeRemainder data divisor) as [r | e]; cbn [post] in Hpost.
  - destruct Hpost as [Hr _]. exists r. split; [reflexivity |]. split.
    + intros [Hne | ->]; [| exact Hr].
      destruct divisor; [done |]. destruct data; cbn [length] in *; lia.
    + intros -> Hne. destruct data; [done | exact Hr].
  - destruct Hpost as [_ Hn]. exfalso. by apply Hn.
Qed.

(** Three data bytes and a divisor of two coefficients. *)
Lemma reedSolomonComputeRemainder_length_witness :
  exists r, reedSolomonComputeRemainder [32; 91; 11] [3; 2] = Ok r /\
            ([3; 2] <> [] \/ [32; 91; 11] = [] -> length r = length [3; 2]) /\
            ([3; 2] = [] -> [32; 91; 11] <> [] -> length r = 1%nat).
Proof.
  apply (reedSolomonComputeRemainder_length [32; 91; 11] [3; 2]);
    repeat constructor; unfold Byte; lia.
Defined.

(** C5 as stated fails on an empty divisor: for the data [0] the remainder
    has one element, not none. *)
Lemma reedSolomonComputeRemainder_length_counterexample :
  reedSolomonComputeRemainder [0] [] = Ok [0] /\
  length [0] <> length (@nil Z) /\
  ~ (forall data divisor : list Z,
       Forall Byte data ->
       exists r, reedSolomonComputeRemainder data divisor = Ok r /\
                 length r = length divisor).
Proof.
  split; [reflexivity |]. split; [discriminate |].
  intros Hall. destruct (Hall [0] []) as (r & Hr & Hlen).
  - repeat constructor; unfold Byte; lia.
  - cbv in Hr. injection Hr as <-. discriminate Hlen.
Qed.

(** The ECC of the 16 data bytes of "HELLO WORLD" at version 1, level M. *)
Example reedSolomonComputeRemainder_1M :
  reedSolomonComputeRemainder data1M
    [216; 194; 159; 111; 199; 94; 95; 113; 157; 193] =
  Ok [196; 35; 39; 119; 235; 215; 231; 226; 93; 23].
Proof. vm_compute. reflexivity. Qed.

(** ** Splitting into blocks *)

Lemma slice_length (l : list Z) (a b : Z) :
  0 <= a <= b -> b <= Z.of_nat (length l) ->
  Z.of_nat (length (JS.slice l a b)) = b - a.
Proof.
  intros Hab Hb. unfold JS.slice, JS.relIndex.
  destruct (a <? 0) eqn:Ha; [lia |]. destruct (b <? 0) eqn:Hb0; [lia |].
  rewrite length_take, length_drop. lia.
Qed.

Lemma slice_Forall (P : Z -> Prop) (l : list Z) (a b : Z) :
  Forall P l -> Forall P (JS.slice l a b).
Proof. intros Hl. unfold JS.slice. by apply Forall_take, Forall_drop. Qed.

Lemma splitStep_post data rsDiv p k blocks i :
  wfParams p (Z.of_nat (length data)) ->
  Forall Byte rsDiv -> Z.of_nat (length rsDiv) = blockEccLen p ->
  0 <= i < numBlocks p ->
  k = cursor p i -> Z.of_nat (length blocks) = i -> blocksOk p blocks ->
  post (fun st => fst st = cursor p (i + 1) /\
                  Z.of_nat (length (snd st)) = i + 1 /\ blocksOk p (snd st))
       (fun e => multiplyExn e /\ ~ Forall Byte data)
       (splitStep data rsDiv p (k, blocks) i).
Proof.
  intros [HB HNS HR HE Hfit Hlen] Hdiv Hdivlen Hi Hk Hblocks Hok.
  unfold splitStep.
  set (n := shortBlockLen p - blockEccLen p + (if i <? numShortBlocks p then 0 else 1)).
  replace (k + shortBlockLen p - blockEccLen p
           + (if i <? numShortBlocks p then 0 else 1)) with (k + n) by (unfold n; lia).
  assert (0 <= n) as Hn by (unfold n; destruct (i <? _); lia).
  assert (k + n = cursor p (i + 1)) as Hnext.
  { subst k. unfold cursor, n. destruct (i <? numShortBlocks p) eqn:Hs; lia. }
  assert (0 <= k) as Hk0 by (subst k; unfold cursor; nia).
  assert (cursor p (i + 1) <= Z.of_nat (length data)) as Hend.
  { rewrite Hlen, HR. unfold cursor. nia. }
  set (dat := JS.slice data k (k + n)).
  assert (Z.of_nat (length dat) = n) as Hdat.
  { unfold dat. rewrite slice_length; lia. }
  eapply post_bind.
  - eapply post_weaken; [apply (reedSolomonComputeRemainder_post dat rsDiv) | |].
    + intros ecc Hecc. exact Hecc.
    + intros e [He Hnb]. split; [exact He |]. intros Hbytes. apply Hnb.
      split; [exact Hdiv | by apply slice_Forall].
  - intros ecc [Hecc _]. cbn [post fst snd].
    assert (Z.of_nat (length ecc) = blockEccLen p) as Hecclen.
    { rewrite Hecc. destruct dat; lia. }
    split; [lia |]. split; [rewrite length_app; cbn [length]; lia |].
    intros j block Hj.
    destruct (decide (j < length blocks)%nat) as [Hlt | Hge].
    { rewrite lookup_app_l in Hj by exact Hlt. by apply Hok. }
    assert (j = length blocks) as -> .
    { apply lookup_lt_Some in Hj. rewrite length_app in Hj. cbn [length] in Hj. lia. }
    rewrite list_lookup_middle in Hj by reflexivity. injection Hj as <-.
    unfold blockOk. rewrite Hblocks.
    destruct (i <? numShortBlocks p) eqn:Hs.
    + rewrite !length_app. cbn [length]. split; [unfold n in Hdat; lia |].
      intros _. rewrite <- app_assoc.
      replace (Z.to_nat (shortBlockLen p - blockEccLen p)) with (length dat)
        by (unfold n in Hdat; lia).
      by apply list_lookup_middle.
    + rewrite length_app. split; [unfold n in Hdat; lia | lia].
Qed.

Lemma splitBlocks_post data p :
  wfParams p (Z.of_nat (length data)) ->
  post (fun blocks => Z.of_nat (length blocks) = numBlocks p /\ blocksOk p blocks)
       (fun e => multiplyExn e /\ ~ Forall Byte data)
       (splitBlocks data p).
Proof.
  intros Hwf. unfold splitBlocks.
  pose proof (reedSolomonComputeDivisor_post (blockEccLen p)) as Hdiv.
  destruct (reedSolomonComputeDivisor (blockEccLen p)) as [rsDiv | e];
    cbn [post] in Hdiv; [| destruct Hdiv as [_ Hn]; destruct Hwf; tauto].
  destruct Hdiv as (_ & Hdivlen & Hdivb). cbn [bind].
  pose (Inv := fun (i : Z) (st : Z * list (list Z)) =>
                 fst st = cursor p i /\ Z.of_nat (length (snd st)) = i /\
                 blocksOk p (snd st)).
  eapply post_bind with (P := Inv (numBlocks p)).
  - replace (numBlocks p) with (0 + Z.of_nat (Z.to_nat (numBlocks p))) at 2
      by (destruct Hwf; lia).
    replace (numBlocks p) with (Z.of_nat (Z.to_nat (numBlocks p))) at 1
      by (destruct Hwf; lia).
    apply post_foldM_seqZ.
    + intros i [k blocks] Hi (Hk & Hb & Hok). cbn [fst snd] in *.
      apply splitStep_post; try assumption. destruct Hwf; lia.
    + unfold Inv, cursor, blocksOk. cbn [fst snd length].
      split; [destruct Hwf; lia |]. split; [reflexivity |].
      intros j block Hj. by rewrite lookup_nil in Hj.
  - intros [k blocks] (_ & Hb & Hok). cbn [post fst snd] in *. by split.
Qed.

(** ** Interleaving *)

Lemma interleaveStep_post blocks p result i :
  blocksOk p blocks -> 0 <= numShortBlocks p <= Z.of_nat (length blocks) ->
  0 <= i <= shortBlockLen p ->
  post (fun r => Z.of_nat (length r) =
                 Z.of_nat (length result) + Z.of_nat (length blocks)
                 - (if i =? shortBlockLen p - blockEccLen p then numShortBlocks p else 0))
       (fun _ => False)
       (interleaveStep blocks p result i).
Proof.
  intros Hok HNS Hi. unfold interleaveStep.
  pose (Inv := fun (j : nat) (s : list Z) =>
                 Z.of_nat (length s) =
                 Z.of_nat (length result) + Z.of_nat j
                 - (if i =? shortBlockLen p - blockEccLen p
                    then Z.min (Z.of_nat j) (numShortBlocks p) else 0)).
  eapply post_weaken with (P := Inv (0 + length blocks)%nat) (E := fun _ => False);
    [| | tauto].
  - apply (post_forEach Inv).
    + intros j block s Hj Hs. cbn [Nat.add]. unfold Inv in *.
      destruct (Hok j block Hj) as [Hlen _].
      destruct (negb (i =? shortBlockLen p - blockEccLen p)
                || (Z.of_nat j >=? numShortBlocks p)) eqn:Hc.
      * destruct (get_lt block (Z.to_nat i)) as (b & _ & ->); [lia |].
        cbn [bind post]. rewrite length_app. cbn [length].
        destruct (i =? shortBlockLen p - blockEccLen p); lia.
      * cbn [post]. destruct (i =? shortBlockLen p - blockEccLen p); lia.
    + unfold Inv. destruct (i =? _); lia.
  - unfold Inv. intros r Hr. cbn [Nat.add] in Hr.
    destruct (i =? shortBlockLen p - blockEccLen p); lia.
Qed.

Lemma interleave_post blocks p len :
  wfParams p len -> Z.of_nat (length blocks) = numBlocks p -> blocksOk p blocks ->
  post (fun out => Z.of_nat (length out) = rawCodewords p) (fun _ => False)
       (interleave blocks p).
Proof.
  intros [HB HNS HR HE Hfit Hlen] Hblocks Hok. unfold interleave.
  destruct (lookup_lt_is_Some_2 blocks 0%nat) as [block0 Hb0]; [lia |].
  rewrite Hb0.
  assert (Z.of_nat (length block0) = shortBlockLen p + 1) as Hlen0
      by apply (Hok 0%nat block0 Hb0).
  pose (Inv := fun (i : Z) (out : list Z) =>
                 Z.of_nat (length out) =
                 i * numBlocks p
                 - (if i <=? shortBlockLen p - blockEccLen p then 0 else numShortBlocks p)).
  eapply post_weaken with (P := Inv (0 + Z.of_nat (length block0))) (E := fun _ => False);
    [| | tauto].
  - apply post_foldM_seqZ.
    + intros i out Hi Hout. unfold Inv in *.
      eapply post_weaken; [apply interleaveStep_post; try assumption; lia | | tauto].
      intros r Hr. cbn beta. rewrite Hr, Hout, Hblocks.
      destruct (i =? shortBlockLen p - blockEccLen p) eqn:H1;
        destruct (i <=? shortBlockLen p - blockEccLen p) eqn:H2;
        destruct (i + 1 <=? shortBlockLen p - blockEccLen p) eqn:H3; lia.
    + unfold Inv. cbn [length]. destruct (0 <=? _) eqn:H0; lia.
  - unfold Inv. intros out Hout. rewrite Hout, Hlen0, HR.
    destruct (0 + (shortBlockLen p + 1) <=? shortBlockLen p - blockEccLen p) eqn:H1; lia.
Qed.

(** ** The places of the bytes in the output *)

Lemma layout_next blocks p len i out :
  wfParams p len -> Z.of_nat (length blocks) = numBlocks p -> 0 <= i ->
  layout blocks p i (length blocks) out -> layout blocks p (i + 1) 0 out.
Proof.
  intros [HB HNS HR HE Hfit Hlen] Hbl Hi (Hcount & Hplaces & Honly). split; [| split].
  - rewrite Hcount. unfold outCount. rewrite Hbl. change (Z.of_nat 0) with 0.
    destruct (i <=? shortBlockLen p - blockEccLen p) eqn:H1;
      destruct (i + 1 <=? shortBlockLen p - blockEccLen p) eqn:H2;
      destruct (i =? shortBlockLen p - blockEccLen p) eqn:H3;
      destruct (i + 1 =? shortBlockLen p - blockEccLen p) eqn:H4; lia.
  - intros i' j' block Hdone Hkept Hj. apply Hplaces; [| assumption ..].
    apply lookup_lt_Some in Hj. lia.
  - intros n Hn. destruct (Honly n Hn) as (i' & j' & Hdone & Hj & Hkept & ->).
    exists i', j'. split; [lia |]. split; [exact Hj |]. by split.
Qed.

Lemma interleaveStep_layout blocks p len result i :
  wfParams p len -> Z.of_nat (length blocks) = numBlocks p -> blocksOk p blocks ->
  0 <= i <= shortBlockLen p ->
  layout blocks p i 0 result ->
  post (layout blocks p (i + 1) 0) (fun _ => False) (interleaveStep blocks p result i).
Proof.
  intros Hwf Hbl Hok Hi Hres. unfold interleaveStep.
  eapply post_weaken with (P := layout blocks p i (0 + length blocks)) (E := fun _ => False);
    [| intros out Hout; apply (layout_next blocks p len); (assumption || lia) | tauto].
  apply (post_forEach (layout blocks p i)); [| exact Hres].
  intros j block s Hj (Hcount & Hplaces & Honly). cbn [Nat.add].
  destruct Hwf as [HB HNS HR HE Hfit Hlen].
  destruct (Hok j block Hj) as [Hblen _].
  pose proof (lookup_lt_Some _ _ _ Hj) as Hjlt.
  destruct (negb (i =? shortBlockLen p - blockEccLen p)
            || (Z.of_nat j >=? numShortBlocks p)) eqn:Hc.
  - destruct (get_lt block (Z.to_nat i)) as (b & Hb & ->); [lia |].
    cbn [bind post].
    assert (Z.to_nat (outIndex p i (Z.of_nat j)) = length s) as Hidx.
    { unfold outCount in Hcount. unfold outIndex.
      destruct (i <=? shortBlockLen p - blockEccLen p) eqn:H1;
        destruct (i <? shortBlockLen p - blockEccLen p) eqn:H2;
        destruct (i =? shortBlockLen p - blockEccLen p) eqn:H3;
        cbn [negb orb] in Hc; lia. }
    assert (kept p i (Z.of_nat j)) as Hkj.
    { unfold kept. destruct (i =? shortBlockLen p - blockEccLen p) eqn:H3;
        cbn [negb orb] in Hc; lia. }
    split; [| split].
    + rewrite length_app. cbn [length]. unfold outCount in *.
      destruct (i <=? shortBlockLen p - blockEccLen p) eqn:H1;
        destruct (i =? shortBlockLen p - blockEccLen p) eqn:H3;
        cbn [negb orb] in Hc; lia.
    + intros i' j' block' Hdone Hkept Hj'.
      destruct (decide (i' = i /\ j' = j)) as [[-> ->] | Hne].
      * rewrite Hj in Hj'. injection Hj' as <-.
        rewrite Hidx, Hb. by apply list_lookup_middle.
      * assert (s !! Z.to_nat (outIndex p i' (Z.of_nat j')) = block' !! Z.to_nat i') as Hold
            by (apply Hplaces; [lia | assumption ..]).
        destruct (Hok j' block' Hj') as [Hblen' _].
        destruct (lookup_lt_is_Some_2 block' (Z.to_nat i')) as [x Hx]; [lia |].
        rewrite Hx in Hold |- *. by apply lookup_app_l_Some.
    + intros n Hn. rewrite length_app in Hn. cbn [length] in Hn.
      destruct (decide (n = length s)) as [-> | Hne].
      * exists i, j. split; [lia |]. split; [exact Hjlt |]. split; [exact Hkj |].
        by rewrite Hidx.
      * destruct (Honly n ltac:(lia)) as (i' & j' & Hdone & Hj' & Hkept & ->).
        exists i', j'. split; [lia |]. split; [exact Hj' |]. by split.
  - cbn [post]. split; [| split].
    + rewrite Hcount. unfold outCount.
      destruct (i <=? shortBlockLen p - blockEccLen p) eqn:H1;
        destruct (i =? shortBlockLen p - blockEccLen p) eqn:H3;
        cbn [negb orb] in Hc; lia.
    + intros i' j' block' Hdone Hkept Hj'. apply Hplaces; [| assumption ..].
      destruct (decide (i' = i /\ j' = j)) as [[-> ->] | Hne]; [| lia].
      exfalso. apply Hkept.
      destruct (i =? shortBlockLen p - blockEccLen p) eqn:H3;
        cbn [negb orb] in Hc; lia.
    + intros n Hn. destruct (Honly n Hn) as (i' & j' & Hdone & Hj' & Hkept & ->).
      exists i', j'. split; [lia |]. split; [exact Hj' |]. by split.
Qed.

Lemma interleave_layout blocks p len :
  wfParams p len -> Z.of_nat (length blocks) = numBlocks p -> blocksOk p blocks ->
  exists out,
    interleave blocks p = Ok out /\
    Z.of_nat (length out) = rawCodewords p /\
    (forall i j block,
       blocks !! j = Some block -> (i < length block)%nat ->
       kept p (Z.of_nat i) (Z.of_nat j) ->
       out !! Z.to_nat (outIndex p (Z.of_nat i) (Z.of_nat j)) = block !! i) /\
    forall n, (n < length out)%nat ->
      exists i j block,
        blocks !! j = Some block /\ (i < length block)%nat /\
        kept p (Z.of_nat i) (Z.of_nat j) /\
        n = Z.to_nat (outIndex p (Z.of_nat i) (Z.of_nat j)).
Proof.
  intros Hwf Hbl Hok. unfold interleave.
  destruct (lookup_lt_is_Some_2 blocks 0%nat) as [block0 Hb0];
    [destruct Hwf; lia |].
  rewrite Hb0.
  assert (Z.of_nat (length block0) = shortBlockLen p + 1) as Hlen0
      by apply (Hok 0%nat block0 Hb0).
  assert (post (layout blocks p (0 + Z.of_nat (length block0)) 0) (fun _ => False)
            (foldM (interleaveStep blocks p) (seqZ 0 (Z.of_nat (length block0))) []))
    as Hloop.
  { apply (post_foldM_seqZ (fun i => layout blocks p i 0)).
    - intros i out Hi Hout. apply (interleaveStep_layout blocks p len); try assumption. lia.
    - split; [| split].
      + unfold outCount. cbn [length]. change (Z.of_nat 0) with 0.
        destruct Hwf.
        destruct (0 <=? shortBlockLen p - blockEccLen p) eqn:H1;
          destruct (0 =? shortBlockLen p - blockEccLen p) eqn:H3; lia.
      + intros i' j' block Hdone. lia.
      + intros n Hn. cbn [length] in Hn. lia. }
  destruct (foldM _ _ _) as [out | e]; cbn [post] in Hloop; [| done].
  destruct Hloop as (Hcount & Hplaces & Honly). exists out.
  split; [reflexivity |]. split; [| split].
  - rewrite Hcount. unfold outCount. destruct Hwf. change (Z.of_nat 0) with 0.
    destruct (0 + Z.of_nat (length block0) <=? shortBlockLen p - blockEccLen p) eqn:H1;
      destruct (0 + Z.of_nat (length block0) =? shortBlockLen p - blockEccLen p) eqn:H3;
      lia.
  - intros i j block Hj Hi Hkept.
    destruct (Hok j block Hj) as [Hblen _].
    rewrite <- (Nat2Z.id i) at 2. apply Hplaces; [lia | assumption ..].
  - intros n Hn. destruct (Honly n Hn) as (i' & j' & Hdone & Hj' & Hkept & ->).
    destruct (lookup_lt_is_Some_2 blocks j' Hj') as [block Hblock].
    destruct (Hok j' block Hblock) as [Hblen _].
    exists (Z.to_nat i'), j', block. rewrite Z2Nat.id by lia.
    split; [exact Hblock |]. split; [lia |]. by split.
Qed.

(** ** The whole call *)

Lemma call_numbers QrCode :
  1 <= version QrCode <= 40 ->
  getNumDataCodewords (version QrCode) QrCode =
    Ok (rawCodewords (paramsOf QrCode) - tableEccLen QrCode * tableNumBlocks QrCode) /\
  blockParams QrCode = Ok (paramsOf QrCode) /\
  26 <= rawCodewords (paramsOf QrCode) <= 3706.
Proof.
  intros Hver. destruct (getNumRawDataModules_formula _ Hver) as [Hraw Hb].
  unfold getNumDataCodewords, blockParams. rewrite Hraw. cbn [bind].
  split; [reflexivity |]. split; [reflexivity |].
  cbn [paramsOf rawCodewords].
  split; [apply Z.div_le_lower_bound | apply Z.div_le_upper_bound]; lia.
Qed.

Lemma paramsOf_wf QrCode len :
  1 <= version QrCode <= 40 ->
  1 <= tableNumBlocks QrCode -> 1 <= tableEccLen QrCode <= 255 ->
  0 <= len ->
  len = rawCodewords (paramsOf QrCode) - tableEccLen QrCode * tableNumBlocks QrCode ->
  wfParams (paramsOf QrCode) len.
Proof.
  intros Hver HB HE Hlen0 Hlen.
  destruct (call_numbers QrCode Hver) as (_ & _ & HR).
  cbn [paramsOf rawCodewords] in *.
  set (R := rawDataModulesFormula (version QrCode) / 8) in *.
  set (B := tableNumBlocks QrCode) in *. set (E := tableEccLen QrCode) in *.
  assert (Z.rem R B = R mod B) as Hrem by (apply Z.rem_mod_nonneg; lia).
  pose proof (Z.mod_pos_bound R B ltac:(lia)) as Hmod.
  pose proof (Z.div_mod R B ltac:(lia)) as Hdiv.
  assert (E <= R / B) as Hfit by (apply Z.div_le_lower_bound; lia).
  constructor; unfold paramsOf;
    cbn [numBlocks blockEccLen rawCodewords numShortBlocks shortBlockLen];
    fold R B E; lia.
Qed.

Lemma constructedBlocks_post data QrCode :
  post (blocksBuilt data QrCode)
       (fun e => callExn data QrCode e /\ e <> TypeError)
       (constructedBlocks data QrCode).
Proof.
  unfold constructedBlocks.
  destruct (decide (1 <= version QrCode <= 40)) as [Hver | Hver].
  2:{ unfold getNumDataCodewords. rewrite getNumRawDataModules_range by exact Hver.
      cbn [bind post]. split; [left; by split | discriminate]. }
  destruct (call_numbers QrCode Hver) as (Hn & Hp & HR). rewrite Hn. cbn [bind].
  destruct (Z.of_nat (length data) =? _) eqn:Hlen; cbn [negb].
  2:{ cbn [post]. split; [| discriminate]. right; left.
      split; [reflexivity |]. split; [exact Hver |]. rewrite Hn. intros [= Heq].
      apply Z.eqb_neq in Hlen. apply Hlen. symmetry. exact Heq. }
  apply Z.eqb_eq in Hlen. rewrite Hp. cbn [bind].
  pose proof (reedSolomonComputeDivisor_post (tableEccLen QrCode)) as Hdiv.
  destruct (decide (1 <= tableNumBlocks QrCode)) as [HB | HB].
  - destruct (decide (1 <= tableEccLen QrCode <= 255)) as [HE | HE].
    + assert (wfParams (paramsOf QrCode) (Z.of_nat (length data))) as Hwf
          by (apply paramsOf_wf; try assumption; lia).
      eapply post_bind.
      * eapply post_weaken; [by apply splitBlocks_post | intros b Hb; exact Hb |].
        intros e [He Hnb]. split; [by repeat right |].
        destruct He as [-> | ->]; discriminate.
      * intros blocks [Hbl Hok]. cbn [post]. unfold blocksBuilt. cbn [fst snd].
        split; [exact Hver |]. split; [by rewrite Hn, Hlen |].
        split; [exact HE |]. split; [reflexivity |]. right.
        split; [exact Hwf | split; [exact Hbl | exact Hok]].
    + unfold splitBlocks. cbn [paramsOf blockEccLen].
      destruct (reedSolomonComputeDivisor (tableEccLen QrCode)) as [rsDiv | e];
        cbn [post] in Hdiv; [tauto |].
      destruct Hdiv as [-> _]. cbn [bind post].
      split; [right; right; left; by split | discriminate].
  - unfold splitBlocks. cbn [paramsOf blockEccLen numBlocks].
    destruct (reedSolomonComputeDivisor (tableEccLen QrCode)) as [rsDiv | e];
      cbn [post] in Hdiv.
    + rewrite seqZ_nil by lia. cbn [foldM bind post]. unfold blocksBuilt. cbn [fst snd].
      split; [exact Hver |]. split; [by rewrite Hn, Hlen |].
      split; [tauto |]. split; [reflexivity |]. left. split; [lia | reflexivity].
    + destruct Hdiv as [-> HE]. cbn [bind post].
      split; [right; right; left; by split | discriminate].
Qed.

(** A complete account of a call: it returns [rawCodewords] bytes, or throws
    one of five exceptions, each under its own condition. *)
Lemma addEccAndInterleave_post data QrCode :
  post (fun out => 1 <= version QrCode <= 40 /\
                   getNumDataCodewords (version QrCode) QrCode =
                     Ok (Z.of_nat (length data)) /\
                   1 <= tableEccLen QrCode <= 255 /\
                   1 <= tableNumBlocks QrCode /\
                   Z.of_nat (length out) = rawCodewords (paramsOf QrCode))
       (callExn data QrCode)
       (addEccAndInterleave data QrCode).
Proof.
  unfold addEccAndInterleave.
  eapply post_bind.
  - eapply post_weaken; [apply constructedBlocks_post | intros pb Hpb; exact Hpb |].
    intros e [He _]. exact He.
  - intros [p blocks] (Hver & Hn & HE & Hp & Hcases). cbn [fst snd] in *. subst p.
    destruct Hcases as [[HB ->] | (Hwf & Hbl & Hok)].
    + cbn [interleave lookup list_lookup bind post]. right; right; right; left. by split.
    + pose proof (interleave_post blocks _ _ Hwf Hbl Hok) as Hout.
      destruct (interleave blocks (paramsOf QrCode)) as [out | e]; cbn [post] in Hout;
        [| tauto].
      cbn [bind]. rewrite Hout, Z.eqb_refl. cbn [negb post].
      split; [exact Hver |]. split; [exact Hn |]. split; [exact HE |].
      split; [exact (wf_blocks _ _ Hwf) | exact Hout].
Qed.

(** No function yields [UndefinedElement]: every array access of the
    source is within the bounds, whatever the arguments. *)
Lemma reedSolomonComputeDivisor_in_bounds degree :
  reedSolomonComputeDivisor degree <> Throw UndefinedElement.
Proof.
  pose proof (reedSolomonComputeDivisor_post degree) as Hpost.
  intros Heq. rewrite Heq in Hpost. cbn [post] in Hpost. by destruct Hpost.
Qed.

Lemma reedSolomonComputeRemainder_in_bounds data divisor :
  reedSolomonComputeRemainder data divisor <> Throw UndefinedElement.
Proof.
  pose proof (reedSolomonComputeRemainder_post data divisor) as Hpost.
  intros Heq. rewrite Heq in Hpost. cbn [post] in Hpost.
  by destruct Hpost as [[? | ?] _].
Qed.

Lemma addEccAndInterleave_in_bounds data QrCode :
  addEccAndInterleave data QrCode <> Throw UndefinedElement.
Proof.
  pose proof (addEccAndInterleave_post data QrCode) as Hpost.
  intros Heq. rewrite Heq in Hpost. cbn [post] in Hpost.
  destruct Hpost as [[? _] | [[? _] | [[? _] | [[? _] | [[? | ?] _]]]]]; discriminate.
Qed.

Lemma sumLengths_uniform (blocks : list (list Z)) (n : Z) :
  Forall (fun block => Z.of_nat (length block) = n) blocks ->
  sumLengths blocks = Z.of_nat (length blocks) * n.
Proof.
  induction 1 as [| block blocks Hb _ IH]; cbn [sumLengths fold_right length]; [lia |].
  fold (sumLengths blocks). rewrite IH, Hb. lia.
Qed.

Lemma blocksOk_sumLengths p blocks len :
  wfParams p len -> Z.of_nat (length blocks) = numBlocks p -> blocksOk p blocks ->
  sumLengths blocks = rawCodewords p + numShortBlocks p.
Proof.
  intros Hwf Hbl Hok.
  rewrite (sumLengths_uniform blocks (shortBlockLen p + 1)).
  - rewrite Hbl. destruct Hwf. lia.
  - apply Forall_lookup. intros j block Hj. by apply (Hok j block).
Qed.

(** The blocks of a call that has at least one block to build. *)
Lemma constructedBlocks_built data QrCode p blocks :
  1 <= tableNumBlocks QrCode ->
  constructedBlocks data QrCode = Ok (p, blocks) ->
  p = paramsOf QrCode /\ wfParams p (Z.of_nat (length data)) /\
  Z.of_nat (length blocks) = numBlocks p /\ blocksOk p blocks.
Proof.
  intros HB Heq. pose proof (constructedBlocks_post data QrCode) as Hpost.
  rewrite Heq in Hpost. cbn [post] in Hpost.
  destruct Hpost as (_ & _ & _ & Hp & Hcases). cbn [fst snd] in *. subst p.
  destruct Hcases as [[HB0 _] | (Hwf & Hbl & Hok)]; [lia |].
  split; [reflexivity |]. split; [exact Hwf |]. split; [exact Hbl | exact Hok].
Qed.

Lemma callPre_not_thrown data QrCode e :
  callPre data QrCode -> ~ callExn data QrCode e.
Proof.
  intros [Hver HB HE _ Hbytes Hlen] [[_ ?] | [(_ & _ & ?) | [[_ ?] | [[_ ?] | [_ ?]]]]];
    try tauto; lia.
Qed.

Lemma callPre_1M : callPre data1M qr1M.
Proof.
  constructor; try (vm_compute; intuition discriminate); try reflexivity.
  unfold data1M. repeat constructor; unfold Byte; lia.
Qed.

(** With one block the output is the data followed by its ECC. *)
Example addEccAndInterleave_1M :
  addEccAndInterleave data1M qr1M =
  Ok (data1M ++ [196; 35; 39; 119; 235; 215; 231; 226; 93; 23]).
Proof. vm_compute. reflexivity. Qed.

(** C1: for a version from 1 to 40 and table entries with at least one
    block and an ECC length from 1 to 255 that fits in a short block,
    [addEccAndInterleave] on [numDataCodewords] data bytes returns
    floor(numRawDataModules / 8) bytes; the final "Assertion error" is not
    thrown. *)
Theorem addEccAndInterleave_length (data : list Z) (QrCode : QRCode) :
  callPre data QrCode ->
  exists raw out,
    getNumRawDataModules (version QrCode) = Ok raw /\
    addEccAndInterleave data QrCode = Ok out /\
    Z.of_nat (length out) = raw / 8 /\
    addEccAndInterleave data QrCode <> Throw AssertionError.
Proof.
  intros Hpre. pose proof (addEccAndInterleave_post data QrCode) as Hpost.
  destruct (getNumRawDataModules_formula _ (pre_version _ _ Hpre)) as [Hraw _].
  exists (rawDataModulesFormula (version QrCode)).
  destruct (addEccAndInterleave data QrCode) as [out | e]; cbn [post] in Hpost.
  - exists out. destruct Hpost as (_ & _ & _ & _ & Hlen).
    split; [exact Hraw |]. split; [reflexivity |]. split; [exact Hlen | discriminate].
  - exfalso. by apply (callPre_not_thrown data QrCode e).
Qed.

(** Version 5, level Q: four blocks, two of them short. *)
Lemma addEccAndInterleave_length_witness :
  exists raw out,
    getNumRawDataModules (version qr5Q) = Ok raw /\
    addEccAndInterleave data5Q qr5Q = Ok out /\
    Z.of_nat (length out) = raw / 8 /\
    addEccAndInterleave data5Q qr5Q <> Throw AssertionError.
Proof.
  apply (addEccAndInterleave_length data5Q qr5Q).
  constructor; try (vm_compute; intuition discriminate); try reflexivity.
  apply Forall_seqZ. unfold Byte. lia.
Defined.

(** C2, as the code has it: in a call that satisfies the preconditions the
    blocks are built, and the sum of their lengths (data, the pad byte of
    each short block, ECC) is [rawCodewords] plus [numShortBlocks]: without
    the pad bytes it is [rawCodewords]. *)
Theorem constructedBlocks_sumLengths (data : list Z) (QrCode : QRCode) :
  callPre data QrCode ->
  exists raw p blocks,
    getNumRawDataModules (version QrCode) = Ok raw /\
    constructedBlocks data QrCode = Ok (p, blocks) /\
    rawCodewords p = raw / 8 /\
    Z.of_nat (length blocks) = numBlocks p /\
    sumLengths blocks = rawCodewords p + numShortBlocks p /\
    sumLengths blocks - numShortBlocks p = rawCodewords p.
Proof.
  intros Hpre. pose proof (constructedBlocks_post data QrCode) as Hpost.
  destruct (getNumRawDataModules_formula _ (pre_version _ _ Hpre)) as [Hraw _].
  exists (rawDataModulesFormula (version QrCode)).
  destruct (constructedBlocks data QrCode) as [[p blocks] | e] eqn:Heq;
    cbn [post] in Hpost.
  - destruct (constructedBlocks_built data QrCode p blocks (pre_blocks _ _ Hpre) Heq)
      as (-> & Hwf & Hbl & Hok).
    exists (paramsOf QrCode), blocks.
    pose proof (blocksOk_sumLengths _ _ _ Hwf Hbl Hok) as Hsum.
    split; [exact Hraw |]. split; [reflexivity |]. split; [reflexivity |].
    split; [exact Hbl |]. split; [exact Hsum | lia].
  - exfalso. destruct Hpost as [He _]. by apply (callPre_not_thrown data QrCode e).
Qed.

(** Version 5, level Q: four blocks, two of them short. *)
Lemma constructedBlocks_sumLengths_witness :
  exists raw p blocks,
    getNumRawDataModules (version qr5Q) = Ok raw /\
    constructedBlocks data5Q qr5Q = Ok (p, blocks) /\
    rawCodewords p = raw / 8 /\
    Z.of_nat (length blocks) = numBlocks p /\
    sumLengths blocks = rawCodewords p + numShortBlocks p /\
    sumLengths blocks - numShortBlocks p = rawCodewords p.
Proof.
  apply (constructedBlocks_sumLengths data5Q qr5Q).
  constructor; try (vm_compute; intuition discriminate); try reflexivity.
  apply Forall_seqZ. unfold Byte. lia.
Defined.

(** C2 as stated fails: for version 1, level M, the one block built from 16
    data bytes has 27 elements (16 data bytes, the pad byte, 10 ECC bytes),
    and [rawCodewords] is 26. *)
Lemma constructedBlocks_sumLengths_counterexample :
  callPre data1M qr1M /\
  exists p blocks,
    constructedBlocks data1M qr1M = Ok (p, blocks) /\
    sumLengths blocks = 27 /\ rawCodewords p = 26 /\
    sumLengths blocks <> rawCodewords p.
Proof.
  split; [exact callPre_1M |].
  eexists _, _. split; [vm_compute; reflexivity |].
  split; [reflexivity |]. split; [reflexivity | discriminate].
Qed.

(** C3: for a version from 1 to 40, whatever the table entries and the
    data, [addEccAndInterleave] throws "Invalid argument" exactly when the
    length of the data differs from [getNumDataCodewords]; on such a length
    no other exception comes first. *)
Theorem addEccAndInterleave_invalid_argument (data : list Z) (QrCode : QRCode) :
  1 <= version QrCode <= 40 ->
  exists n,
    getNumDataCodewords (version QrCode) QrCode = Ok n /\
    (addEccAndInterleave data QrCode = Throw InvalidArgument <->
     Z.of_nat (length data) <> n).
Proof.
  intros Hver. destruct (call_numbers QrCode Hver) as (Hn & _ & _).
  eexists. split; [exact Hn |]. split.
  - intros Heq. pose proof (addEccAndInterleave_post data QrCode) as Hpost.
    rewrite Heq in Hpost. cbn [post] in Hpost.
    destruct Hpost as [[? _] | [(_ & _ & Hne) | [[? _] | [[? _] | [[? | ?] _]]]]];
      try discriminate.
    intros Hlen. apply Hne. by rewrite Hn, Hlen.
  - intros Hne. unfold addEccAndInterleave, constructedBlocks. rewrite Hn. cbn [bind].
    apply Z.eqb_neq in Hne. rewrite Hne. reflexivity.
Qed.

(** Version 5, level Q, with three data bytes where 62 are due. *)
Lemma addEccAndInterleave_invalid_argument_witness :
  exists n,
    getNumDataCodewords (version qr5Q) qr5Q = Ok n /\
    (addEccAndInterleave [1; 2; 3] qr5Q = Throw InvalidArgument <->
     Z.of_nat (length [1; 2; 3]) <> n).
Proof.
  apply (addEccAndInterleave_invalid_argument [1; 2; 3] qr5Q). simpl. lia.
Defined.

(** C10: in a call for a version from 1 to 40 with at least one block,
    [numShortBlocks] is [numBlocks] less the remainder of [rawCodewords] by
    [numBlocks], and lies between 1 and [numBlocks]; it is [numBlocks] when
    [numBlocks] divides [rawCodewords], so also for a single block.  When
    the call returns, every short block, the first one among them, has the
    zero pad byte right after its data, and the interleaving skips these
    pad bytes and nothing else: every element of a block that is not the
    pad byte of a short block is in the output, at its place, and every
    index of the output is the place of such an element; so the output has
    [numShortBlocks] fewer bytes than the blocks together. *)
Theorem numShortBlocks_range (QrCode : QRCode) :
  1 <= version QrCode <= 40 -> 1 <= tableNumBlocks QrCode ->
  exists p,
    blockParams QrCode = Ok p /\
    numBlocks p = tableNumBlocks QrCode /\
    numShortBlocks p = numBlocks p - JS.rem (rawCodewords p) (numBlocks p) /\
    JS.rem (rawCodewords p) (numBlocks p) = rawCodewords p mod numBlocks p /\
    1 <= numShortBlocks p <= numBlocks p /\
    (JS.rem (rawCodewords p) (numBlocks p) = 0 -> numShortBlocks p = numBlocks p) /\
    (numBlocks p = 1 -> numShortBlocks p = 1) /\
    forall data out,
      addEccAndInterleave data QrCode = Ok out ->
      exists blocks block0,
        constructedBlocks data QrCode = Ok (p, blocks) /\
        blocks !! 0%nat = Some block0 /\
        (forall j block,
            blocks !! j = Some block -> Z.of_nat j < numShortBlocks p ->
            block !! Z.to_nat (shortBlockLen p - blockEccLen p) = Some 0) /\
        Z.of_nat (length out) = sumLengths blocks - numShortBlocks p /\
        (forall i j block,
            blocks !! j = Some block -> (i < length block)%nat ->
            ~ (Z.of_nat i = shortBlockLen p - blockEccLen p /\
               Z.of_nat j < numShortBlocks p) ->
            out !! Z.to_nat (outIndex p (Z.of_nat i) (Z.of_nat j)) = block !! i) /\
        (forall n, (n < length out)%nat ->
            exists i j block,
              blocks !! j = Some block /\ (i < length block)%nat /\
              ~ (Z.of_nat i = shortBlockLen p - blockEccLen p /\
                 Z.of_nat j < numShortBlocks p) /\
              n = Z.to_nat (outIndex p (Z.of_nat i) (Z.of_nat j))).
Proof.
  intros Hver HB. destruct (call_numbers QrCode Hver) as (_ & Hp & HR).
  exists (paramsOf QrCode). split; [exact Hp |]. split; [reflexivity |].
  split; [reflexivity |].
  assert (JS.rem (rawCodewords (paramsOf QrCode)) (numBlocks (paramsOf QrCode)) =
          rawCodewords (paramsOf QrCode) mod numBlocks (paramsOf QrCode)) as Hmod.
  { unfold JS.rem. apply Z.rem_mod_nonneg; cbn [paramsOf numBlocks]; lia. }
  split; [exact Hmod |].
  assert (0 <= JS.rem (rawCodewords (paramsOf QrCode)) (numBlocks (paramsOf QrCode))
          < numBlocks (paramsOf QrCode)) as Hrem.
  { rewrite Hmod. apply Z.mod_pos_bound. cbn [paramsOf numBlocks]. lia. }
  assert (numShortBlocks (paramsOf QrCode) =
          numBlocks (paramsOf QrCode)
          - JS.rem (rawCodewords (paramsOf QrCode)) (numBlocks (paramsOf QrCode)))
    as HNS by reflexivity.
  split; [lia |]. split; [lia |]. split; [lia |].
  intros data out Hout.
  pose proof (addEccAndInterleave_post data QrCode) as Hpost.
  rewrite Hout in Hpost. cbn [post] in Hpost. destruct Hpost as (_ & _ & _ & _ & Hlen).
  destruct (constructedBlocks data QrCode) as [[p blocks] | e] eqn:Heq.
  2:{ unfold addEccAndInterleave in Hout. rewrite Heq in Hout. discriminate Hout. }
  destruct (constructedBlocks_built data QrCode p blocks HB Heq)
    as (-> & Hwf & Hbl & Hok).
  destruct (interleave_layout blocks _ _ Hwf Hbl Hok)
    as (out' & Hrun & _ & Hplaces & Honly).
  assert (out' = out) as ->.
  { unfold addEccAndInterleave in Hout. rewrite Heq in Hout. cbn [bind] in Hout.
    rewrite Hrun in Hout. cbn [bind] in Hout.
    destruct (negb _); [discriminate Hout | by injection Hout]. }
  destruct blocks as [| block0 rest] eqn:Hblocks; [cbn [length] in Hbl; lia |].
  rewrite <- Hblocks in *. exists blocks, block0.
  split; [reflexivity |]. split; [by rewrite Hblocks |]. split; [| split; [| split]].
  - intros j block Hj Hshort. by apply (Hok j block Hj).
  - rewrite (blocksOk_sumLengths _ _ _ Hwf Hbl Hok). lia.
  - exact Hplaces.
  - exact Honly.
Qed.

(** Version 1, level M, a single block, on the 16 data bytes [data1M]: the
    call returns the data and the 10 ECC bytes, without the pad byte that
    the block has between them. *)
Lemma numShortBlocks_range_witness :
  let out := data1M ++ [196; 35; 39; 119; 235; 215; 231; 226; 93; 23] in
  exists p,
    blockParams qr1M = Ok p /\
    numBlocks p = tableNumBlocks qr1M /\
    numShortBlocks p = numBlocks p - JS.rem (rawCodewords p) (numBlocks p) /\
    JS.rem (rawCodewords p) (numBlocks p) = rawCodewords p mod numBlocks p /\
    1 <= numShortBlocks p <= numBlocks p /\
    (JS.rem (rawCodewords p) (numBlocks p) = 0 -> numShortBlocks p = numBlocks p) /\
    (numBlocks p = 1 -> numShortBlocks p = 1) /\
    addEccAndInterleave data1M qr1M = Ok out /\
    exists blocks block0,
      constructedBlocks data1M qr1M = Ok (p, blocks) /\
      blocks !! 0%nat = Some block0 /\
      (forall j block,
          blocks !! j = Some block -> Z.of_nat j < numShortBlocks p ->
          block !! Z.to_nat (shortBlockLen p - blockEccLen p) = Some 0) /\
      Z.of_nat (length out) = sumLengths blocks - numShortBlocks p /\
      (forall i j block,
          blocks !! j = Some block -> (i < length block)%nat ->
          ~ (Z.of_nat i = shortBlockLen p - blockEccLen p /\
             Z.of_nat j < numShortBlocks p) ->
          out !! Z.to_nat (outIndex p (Z.of_nat i) (Z.of_nat j)) = block !! i) /\
      (forall n, (n < length out)%nat ->
          exists i j block,
            blocks !! j = Some block /\ (i < length block)%nat /\
            ~ (Z.of_nat i = shortBlockLen p - blockEccLen p /\
               Z.of_nat j < numShortBlocks p) /\
            n = Z.to_nat (outIndex p (Z.of_nat i) (Z.of_nat j))).
Proof.
  intros out.
  assert (addEccAndInterleave data1M qr1M = Ok out) as Hcall
      by (vm_compute; reflexivity).
  destruct (numShortBlocks_range qr1M) as (p & H1 & H2 & H3 & H4 & H5 & H6 & H7 & H8);
    [simpl; lia | simpl; lia |].
  exists p. split; [exact H1 |]. split; [exact H2 |]. split; [exact H3 |].
  split; [exact H4 |]. split; [exact H5 |]. split; [exact H6 |]. split; [exact H7 |].
  split; [exact Hcall |]. exact (H8 data1M out Hcall).
Defined.

(** ** The remainder on references *)

Lemma contents_lookup (s : Heap.store) (r : Heap.ref) :
  (r < length s)%nat -> s !! r = Some (Heap.contents s r).
Proof.
  intros Hr. unfold Heap.contents.
  destruct (lookup_lt_is_Some_2 s r Hr) as [a ->]. reflexivity.
Qed.

Lemma contents_insert_eq (s : Heap.store) (r : Heap.ref) (a : list Z) :
  (r < length s)%nat -> Heap.contents (<[r := a]> s) r = a.
Proof. intros Hr. unfold Heap.contents. by rewrite list_lookup_insert_eq. Qed.

Lemma contents_insert_ne (s : Heap.store) (r r' : Heap.ref) (a : list Z) :
  r <> r' -> Heap.contents (<[r := a]> s) r' = Heap.contents s r'.
Proof. intros Hr. unfold Heap.contents. by rewrite list_lookup_insert_ne. Qed.

Lemma insert_contents (s : Heap.store) (r : Heap.ref) :
  (r < length s)%nat -> <[r := Heap.contents s r]> s = s.
Proof. intros Hr. apply list_insert_id. by apply contents_lookup. Qed.

Lemma contents_app_l (s ext : Heap.store) (r : Heap.ref) :
  (r < length s)%nat -> Heap.contents (s ++ ext) r = Heap.contents s r.
Proof. intros Hr. unfold Heap.contents. by rewrite lookup_app_l. Qed.

Lemma writesOnly_unchanged result s e :
  (result < length s)%nat -> writesOnly result s (inr (Heap.Exn e), s) (Throw e).
Proof.
  intros Hr. exists (Heap.contents s result). cbn [fst snd].
  split; [symmetry; by apply insert_contents | reflexivity].
Qed.

Lemma xorCoef_sim result factor coef i s :
  (result < length s)%nat ->
  writesOnly result s (Heap.xorCoef result factor coef i s)
             (xorCoef factor (Heap.contents s result) coef i).
Proof.
  intros Hr. unfold Heap.xorCoef, xorCoef, Heap.bind, Heap.lift.
  destruct (reedSolomonMultiply coef factor) as [m | e]; cbn [bind].
  2:{ by apply writesOnly_unchanged. }
  unfold Heap.xorAt, xorAt, get, Heap.bind, Heap.read.
  destruct (Heap.contents s result !! i) as [x |]; cbn [bind].
  - unfold Heap.write. eexists. cbn [fst snd]. split; [reflexivity | by split].
  - unfold Heap.lift. by apply writesOnly_unchanged.
Qed.

Lemma forEachFrom_sim result divisor factor n :
  forall i s,
    result <> divisor -> (result < length s)%nat ->
    (i + n)%nat = length (Heap.contents s divisor) ->
    writesOnly result s
      (Heap.forEachFrom divisor (Heap.xorCoef result factor) i n s)
      (forEach (xorCoef factor) (drop i (Heap.contents s divisor)) i
               (Heap.contents s result)).
Proof.
  induction n as [| n IH]; intros i s Hne Hr Hlen.
  - cbn [Heap.forEachFrom]. unfold Heap.ret. rewrite drop_ge by lia. cbn [forEach].
    exists (Heap.contents s result). cbn [fst snd].
    split; [symmetry; by apply insert_contents | by split].
  - cbn [Heap.forEachFrom]. unfold Heap.bind at 1. unfold Heap.read at 1.
    destruct (lookup_lt_is_Some_2 (Heap.contents s divisor) i) as [x Hx]; [lia |].
    rewrite Hx, (drop_S _ _ _ Hx). cbn [forEach].
    destruct (xorCoef_sim result factor x i s Hr) as (a1 & Hs1 & Hpure).
    unfold Heap.bind.
    destruct (Heap.xorCoef result factor x i s) as [o s1]. cbn [fst snd] in Hs1, Hpure.
    subst s1.
    destruct (xorCoef factor (Heap.contents s result) x i) as [a1' | e]; cbn [bind].
    + destruct Hpure as [-> ->].
      destruct (IH (S i) (<[result := a1']> s)) as (a & Hs & Hp).
      * exact Hne.
      * by rewrite length_insert.
      * rewrite contents_insert_ne by exact Hne. lia.
      * rewrite contents_insert_ne in Hp by exact Hne.
        rewrite contents_insert_eq in Hp by exact Hr.
        exists a. split; [by rewrite Hs, list_insert_insert_eq | exact Hp].
    + rewrite Hpure. exists a1. by split.
Qed.

Lemma remainderStep_sim result divisor b s :
  result <> divisor -> (result < length s)%nat ->
  writesOnly result s (Heap.remainderStep result divisor b s)
             (remainderStep (Heap.contents s divisor) (Heap.contents s result) b).
Proof.
  intros Hne Hr. unfold Heap.remainderStep, remainderStep.
  unfold Heap.bind at 1. unfold Heap.shift, Heap.bind, Heap.read, Heap.write, Heap.ret.
  destruct (JS.shift (Heap.contents s result)) as [first rest].
  unfold Heap.push, Heap.bind, Heap.read, Heap.write, Heap.forEach.
  rewrite contents_insert_eq by exact Hr. rewrite list_insert_insert_eq.
  unfold Heap.bind, Heap.read.
  set (s2 := <[result := rest ++ [0]]> s).
  assert (Heap.contents s2 divisor = Heap.contents s divisor) as Hdiv
      by (by apply contents_insert_ne).
  assert (Heap.contents s2 result = rest ++ [0]) as Hres
      by (by apply contents_insert_eq).
  destruct (forEachFrom_sim result divisor (JS.xor b (JS.operand first))
              (length (Heap.contents s2 divisor)) 0%nat s2) as (a & Hs & Hp);
    [exact Hne | unfold s2; by rewrite length_insert | reflexivity |].
  rewrite drop_0, Hres in Hp. rewrite <- Hdiv.
  exists a. split; [| exact Hp].
  rewrite Hs. unfold s2. by rewrite list_insert_insert_eq.
Qed.

Lemma forOf_sim result data divisor fuel :
  forall i s,
    result <> data -> result <> divisor -> (result < length s)%nat ->
    (length (Heap.contents s data) <= fuel + i)%nat ->
    writesOnly result s
      (Heap.forOf fuel data i (Heap.remainderStep result divisor) s)
      (foldM (remainderStep (Heap.contents s divisor))
             (drop i (Heap.contents s data)) (Heap.contents s result)).
Proof.
  induction fuel as [| fuel IH]; intros i s Hnd Hne Hr Hfuel.
  - cbn [Heap.forOf]. rewrite lookup_ge_None_2 by lia. rewrite drop_ge by lia.
    cbn [foldM]. exists (Heap.contents s result). cbn [fst snd].
    split; [symmetry; by apply insert_contents | by split].
  - cbn [Heap.forOf].
    destruct (Heap.contents s data !! i) as [b |] eqn:Hb.
    2:{ apply lookup_ge_None in Hb. rewrite drop_ge by lia. cbn [foldM].
        exists (Heap.contents s result). cbn [fst snd].
        split; [symmetry; by apply insert_contents | by split]. }
    rewrite (drop_S _ _ _ Hb). cbn [foldM].
    destruct (remainderStep_sim result divisor b s Hne Hr) as (a1 & Hs1 & Hpure).
    unfold Heap.bind.
    destruct (Heap.remainderStep result divisor b s) as [o s1].
    cbn [fst snd] in Hs1, Hpure. subst s1.
    destruct (remainderStep (Heap.contents s divisor) (Heap.contents s result) b)
      as [a1' | e]; cbn [bind].
    + destruct Hpure as [-> ->].
      destruct (IH (S i) (<[result := a1']> s)) as (a & Hs & Hp).
      * exact Hnd.
      * exact Hne.
      * by rewrite length_insert.
      * rewrite contents_insert_ne by exact Hnd. lia.
      * rewrite !contents_insert_ne in Hp by assumption.
        rewrite contents_insert_eq in Hp by exact Hr.
        exists a. split; [by rewrite Hs, list_insert_insert_eq | exact Hp].
    + rewrite Hpure. exists a1. by split.
Qed.

(** The run of the method on references, its binds carried out. *)
Lemma remainder_run (s : Heap.store) (data divisor : Heap.ref) :
  Heap.reedSolomonComputeRemainder data divisor s =
  let s1 := s ++ [map (fun _ : Z => 0) (Heap.contents s divisor)] in
  match Heap.forOf (length (Heap.contents s1 data)) data 0%nat
                   (Heap.remainderStep (length s) divisor) s1 with
  | (inl _, s2) => (inl (length s), s2)
  | (inr h, s2) => (inr h, s2)
  end.
Proof. reflexivity. Qed.

(** A call on references allocates one array, the result; every array of
    the store it started from is as it was; and what it returns is what the
    method on values gives for the elements of the two arguments. *)
Lemma remainder_sim (s : Heap.store) (data divisor : Heap.ref) :
  (data < length s)%nat -> (divisor < length s)%nat ->
  exists res,
    snd (Heap.reedSolomonComputeRemainder data divisor s) = s ++ [res] /\
    match reedSolomonComputeRemainder (Heap.contents s data) (Heap.contents s divisor) with
    | Ok ecc =>
        fst (Heap.reedSolomonComputeRemainder data divisor s) = inl (length s) /\
        res = ecc
    | Throw e =>
        fst (Heap.reedSolomonComputeRemainder data divisor s) = inr (Heap.Exn e)
    end.
Proof.
  intros Hdata Hdiv. rewrite remainder_run. cbv zeta.
  unfold reedSolomonComputeRemainder.
  set (zeros := map (fun _ : Z => 0) (Heap.contents s divisor)).
  set (s1 := s ++ [zeros]).
  assert (Heap.contents s1 data = Heap.contents s data) as Hd
      by (by apply contents_app_l).
  assert (Heap.contents s1 divisor = Heap.contents s divisor) as Hv
      by (by apply contents_app_l).
  assert (Heap.contents s1 (length s) = zeros) as Hz.
  { unfold Heap.contents, s1. by rewrite list_lookup_middle. }
  destruct (forOf_sim (length s) data divisor (length (Heap.contents s1 data)) 0%nat s1)
    as (a & Hs & Hp); try lia.
  { unfold s1. rewrite length_app. cbn [length]. lia. }
  rewrite drop_0, Hd, Hv, Hz in Hp. rewrite Hd in Hs. rewrite Hd.
  destruct (Heap.forOf (length (Heap.contents s data)) data 0
              (Heap.remainderStep (length s) divisor) s1) as [o s2].
  cbn [fst snd] in Hs, Hp. subst s2.
  assert (<[length s := a]> s1 = s ++ [a]) as Hins.
  { unfold s1. replace (length s) with (length s + 0)%nat at 1 by lia.
    by rewrite insert_app_r. }
  exists a. rewrite Hins.
  destruct (foldM (remainderStep (Heap.contents s divisor)) (Heap.contents s data) zeros)
    as [ecc | e].
  - destruct Hp as [-> ->]. by cbn [fst snd].
  - rewrite Hp. by cbn [fst snd].
Qed.

(** The bound on the passes of the loop is never reached. *)
Lemma remainder_fuel (s : Heap.store) (data divisor : Heap.ref) :
  (data < length s)%nat -> (divisor < length s)%nat ->
  fst (Heap.reedSolomonComputeRemainder data divisor s) <> inr Heap.OutOfFuel.
Proof.
  intros Hdata Hdiv. destruct (remainder_sim s data divisor Hdata Hdiv) as (res & _ & Hp).
  destruct (reedSolomonComputeRemainder _ _); [destruct Hp as [-> _] | rewrite Hp];
    discriminate.
Qed.

Lemma contents_app_r (s ext : Heap.store) (j : nat) :
  Heap.contents (s ++ ext) (length s + j) = default [] (ext !! j).
Proof.
  unfold Heap.contents. rewrite lookup_app_r by lia.
  by replace (length s + j - length s)%nat with j by lia.
Qed.

(** The run of a pass of the loop on references, its binds carried out. *)
Lemma splitStep_run data rsDiv p (s : Heap.store) k (refs : list Heap.ref) i :
  Heap.splitStep data rsDiv p (k, refs) i s =
  let short := i <? numShortBlocks p in
  let sl := JS.slice (Heap.contents s data) k
              (k + shortBlockLen p - blockEccLen p + (if short then 0 else 1)) in
  let s1 := s ++ [sl] in
  match Heap.reedSolomonComputeRemainder (length s) rsDiv s1 with
  | (inl ecc, s2) =>
      let s3 := if short then <[length s := Heap.contents s2 (length s) ++ [0]]> s2
                else s2 in
      (inl (k + Z.of_nat (length (Heap.contents s1 (length s))), refs ++ [length s3]),
       s3 ++ [Heap.contents s3 (length s) ++ Heap.contents s3 ecc])
  | (inr h, s2) => (inr h, s2)
  end.
Proof.
  cbv zeta. unfold Heap.splitStep, Heap.slice, Heap.arrayLength, Heap.concat, Heap.push,
    Heap.bind, Heap.read, Heap.alloc, Heap.write, Heap.ret.
  destruct (Heap.reedSolomonComputeRemainder (length s) rsDiv _) as [[ecc | h] s2];
    [| reflexivity].
  destruct (i <? numShortBlocks p); reflexivity.
Qed.

(** A pass of the loop on references extends the store and builds the block
    that the pass on values builds. *)
Lemma splitStep_sim data rsDiv p (s : Heap.store) k (refs : list Heap.ref) i :
  (data < length s)%nat -> (rsDiv < length s)%nat ->
  Forall (fun r => (r < length s)%nat) refs ->
  exists ext,
    snd (Heap.splitStep data rsDiv p (k, refs) i s) = s ++ ext /\
    match splitStep (Heap.contents s data) (Heap.contents s rsDiv) p
                    (k, map (Heap.contents s) refs) i with
    | Ok (k', blocks') =>
        exists refs',
          fst (Heap.splitStep data rsDiv p (k, refs) i s) = inl (k', refs') /\
          Forall (fun r => (r < length (s ++ ext))%nat) refs' /\
          map (Heap.contents (s ++ ext)) refs' = blocks'
    | Throw e => fst (Heap.splitStep data rsDiv p (k, refs) i s) = inr (Heap.Exn e)
    end.
Proof.
  intros Hdata Hdiv Hrefs. rewrite splitStep_run. cbv zeta. unfold splitStep.
  set (sl := JS.slice (Heap.contents s data) k _).
  assert (Heap.contents (s ++ [sl]) (length s) = sl) as Hsl.
  { unfold Heap.contents. by rewrite list_lookup_middle. }
  destruct (remainder_sim (s ++ [sl]) (length s) rsDiv) as (res & Hs2 & Hp).
  { rewrite length_app. cbn [length]. lia. }
  { rewrite length_app. lia. }
  rewrite Hsl, (contents_app_l s [sl] rsDiv Hdiv) in Hp. rewrite Hsl.
  destruct (Heap.reedSolomonComputeRemainder (length s) rsDiv (s ++ [sl])) as [o s2].
  cbn [fst snd] in Hs2, Hp. subst s2.
  destruct (reedSolomonComputeRemainder sl (Heap.contents s rsDiv)) as [ecc | e];
    cbn [bind].
  2:{ rewrite Hp. exists [sl; res]. cbn [fst snd]. by rewrite <- app_assoc. }
  destruct Hp as [-> ->]. rewrite <- app_assoc. cbn [app].
  set (dat' := if i <? numShortBlocks p then sl ++ [0] else sl).
  set (s3 := if i <? numShortBlocks p
             then <[length s := Heap.contents (s ++ [sl; ecc]) (length s) ++ [0]]>
                    (s ++ [sl; ecc])
             else s ++ [sl; ecc]).
  assert (s3 = s ++ [dat'; ecc]) as Hs3.
  { unfold s3, dat'. destruct (i <? numShortBlocks p); [| reflexivity].
    assert (Heap.contents (s ++ [sl; ecc]) (length s) = sl) as ->.
    { unfold Heap.contents. by rewrite list_lookup_middle. }
    replace (length s) with (length s + 0)%nat at 1 by lia.
    by rewrite insert_app_r. }
  rewrite Hs3.
  assert (Heap.contents (s ++ [dat'; ecc]) (length s) = dat') as Hc0.
  { unfold Heap.contents. by rewrite list_lookup_middle. }
  assert (Heap.contents (s ++ [dat'; ecc]) (length (s ++ [sl])) = ecc) as Hc1.
  { rewrite length_app. cbn [length]. by rewrite contents_app_r. }
  rewrite Hc0, Hc1. rewrite <- app_assoc. cbn [app fst snd].
  exists [dat'; ecc; dat' ++ ecc]. split; [reflexivity |].
  exists (refs ++ [length (s ++ [dat'; ecc])]). split; [reflexivity |]. split.
  - apply Forall_app. split.
    + eapply Forall_impl; [exact Hrefs |]. intros r Hr. cbv beta in *.
      rewrite length_app. lia.
    + repeat constructor. rewrite !length_app. cbn [length]. lia.
  - rewrite map_app. cbn [map]. f_equal.
    + apply map_ext_in. intros r Hr. apply contents_app_l.
      rewrite Forall_forall in Hrefs. by apply Hrefs, list_elem_of_In.
    + f_equal. rewrite length_app. cbn [length]. by rewrite contents_app_r.
Qed.

(** The loop on references extends the store and builds the blocks that
    the loop on values builds. *)
Lemma splitLoop_sim data rsDiv p (l : list Z) :
  forall (s : Heap.store) k (refs : list Heap.ref),
    (data < length s)%nat -> (rsDiv < length s)%nat ->
    Forall (fun r => (r < length s)%nat) refs ->
    exists ext,
      snd (Heap.foldM (Heap.splitStep data rsDiv p) l (k, refs) s) = s ++ ext /\
      match foldM (splitStep (Heap.contents s data) (Heap.contents s rsDiv) p) l
                  (k, map (Heap.contents s) refs) with
      | Ok (k', blocks') =>
          exists refs',
            fst (Heap.foldM (Heap.splitStep data rsDiv p) l (k, refs) s) = inl (k', refs') /\
            Forall (fun r => (r < length (s ++ ext))%nat) refs' /\
            map (Heap.contents (s ++ ext)) refs' = blocks'
      | Throw e =>
          fst (Heap.foldM (Heap.splitStep data rsDiv p) l (k, refs) s) = inr (Heap.Exn e)
      end.
Proof.
  induction l as [| i l IH]; intros s k refs Hdata Hdiv Hrefs.
  - exists []. cbn [Heap.foldM foldM]. unfold Heap.ret. cbn [fst snd].
    rewrite app_nil_r. split; [reflexivity |]. by exists refs.
  - cbn [Heap.foldM foldM]. unfold Heap.bind.
    destruct (splitStep_sim data rsDiv p s k refs i Hdata Hdiv Hrefs) as (ext1 & Hs1 & Hp).
    destruct (Heap.splitStep data rsDiv p (k, refs) i s) as [o s1].
    cbn [fst snd] in Hs1, Hp. subst s1.
    destruct (splitStep (Heap.contents s data) (Heap.contents s rsDiv) p
                        (k, map (Heap.contents s) refs) i) as [[k' blocks'] | e];
      cbn [bind].
    2:{ rewrite Hp. by exists ext1. }
    destruct Hp as (refs' & -> & Hrefs' & Hblocks').
    destruct (IH (s ++ ext1) k' refs') as (ext2 & Hs2 & Hp2);
      [rewrite length_app; lia | rewrite length_app; lia | exact Hrefs' |].
    rewrite !contents_app_l, Hblocks' in Hp2 by assumption.
    exists (ext1 ++ ext2). rewrite app_assoc. split; [exact Hs2 | exact Hp2].
Qed.

(** C9: [reedSolomonComputeRemainder] changes no array that existed before
    the call, the divisor among them: it allocates its result and writes
    there only, and the result is the remainder of the elements of the data
    by the elements of the divisor.  So the loop of [addEccAndInterleave],
    run on references with the one divisor, leaves the divisor as it was
    and builds the blocks of the loop on values, where the ECC of a block
    is the remainder of its data by the divisor as first computed, however
    many blocks came before. *)
Theorem reedSolomonComputeRemainder_frame (s : Heap.store) (data divisor : Heap.ref) :
  (data < length s)%nat -> (divisor < length s)%nat ->
  (exists res,
      snd (Heap.reedSolomonComputeRemainder data divisor s) = s ++ [res] /\
      Heap.contents (s ++ [res]) divisor = Heap.contents s divisor /\
      match reedSolomonComputeRemainder (Heap.contents s data) (Heap.contents s divisor) with
      | Ok ecc =>
          fst (Heap.reedSolomonComputeRemainder data divisor s) = inl (length s) /\
          res = ecc
      | Throw e =>
          fst (Heap.reedSolomonComputeRemainder data divisor s) = inr (Heap.Exn e)
      end) /\
  (forall p : BlockParams,
      exists ext,
        snd (Heap.splitLoop data divisor p s) = s ++ ext /\
        Heap.contents (s ++ ext) divisor = Heap.contents s divisor /\
        match foldM (splitStep (Heap.contents s data) (Heap.contents s divisor) p)
                    (seqZ 0 (numBlocks p)) (0, []) with
        | Ok (k, blocks) =>
            exists refs,
              fst (Heap.splitLoop data divisor p s) = inl (k, refs) /\
              map (Heap.contents (s ++ ext)) refs = blocks
        | Throw e => fst (Heap.splitLoop data divisor p s) = inr (Heap.Exn e)
        end).
Proof.
  intros Hdata Hdiv. split.
  - destruct (remainder_sim s data divisor Hdata Hdiv) as (res & Hs & Hp).
    exists res. split; [exact Hs |]. split; [by apply contents_app_l | exact Hp].
  - intros p. unfold Heap.splitLoop.
    destruct (splitLoop_sim data divisor p (seqZ 0 (numBlocks p)) s 0 [] Hdata Hdiv)
      as (ext & Hs & Hp); [constructor |].
    exists ext. split; [exact Hs |]. split; [by apply contents_app_l |].
    cbn [map] in Hp.
    destruct (foldM _ _ _) as [[k blocks] | e]; [| exact Hp].
    destruct Hp as (refs & Hfst & _ & Hblocks). by exists refs.
Qed.

(** A store of two arrays, the data and the divisor. *)
Lemma reedSolomonComputeRemainder_frame_witness :
  let s : Heap.store := [[32; 91; 11]; [3; 4]] in
  let data : Heap.ref := 0%nat in
  let divisor : Heap.ref := 1%nat in
  (exists res,
      snd (Heap.reedSolomonComputeRemainder data divisor s) = s ++ [res] /\
      Heap.contents (s ++ [res]) divisor = Heap.contents s divisor /\
      match reedSolomonComputeRemainder (Heap.contents s data) (Heap.contents s divisor) with
      | Ok ecc =>
          fst (Heap.reedSolomonComputeRemainder data divisor s) = inl (length s) /\
          res = ecc
      | Throw e =>
          fst (Heap.reedSolomonComputeRemainder data divisor s) = inr (Heap.Exn e)
      end) /\
  (forall p : BlockParams,
      exists ext,
        snd (Heap.splitLoop data divisor p s) = s ++ ext /\
        Heap.contents (s ++ ext) divisor = Heap.contents s divisor /\
        match foldM (splitStep (Heap.contents s data) (Heap.contents s divisor) p)
                    (seqZ 0 (numBlocks p)) (0, []) with
        | Ok (k, blocks) =>
            exists refs,
              fst (Heap.splitLoop data divisor p s) = inl (k, refs) /\
              map (Heap.contents (s ++ ext)) refs = blocks
        | Throw e => fst (Heap.splitLoop data divisor p s) = inr (Heap.Exn e)
        end).
Proof.
  apply (reedSolomonComputeRemainder_frame [[32; 91; 11]; [3; 4]] 0%nat 1%nat);
    simpl; lia.
Defined.


(** * The encoder as a Reed-Solomon code *)

(** ** Arithmetic of the bytes *)

Lemma byte_0 : Byte 0.
Proof. unfold Byte. lia. Qed.

Lemma byte_1 : Byte 1.
Proof. unfold Byte. lia. Qed.

Lemma byte_2 : Byte 2.
Proof. unfold Byte. lia. Qed.

Lemma multiply_mul x y : Byte x -> Byte y -> reedSolomonMultiply x y = Ok (mul x y).
Proof.
  intros Hx Hy. unfold mul.
  by destruct (multiply_byte x y Hx Hy) as (z & -> & _).
Qed.

Lemma mul_byte x y : Byte x -> Byte y -> Byte (mul x y).
Proof.
  intros Hx Hy. unfold mul.
  by destruct (multiply_byte x y Hx Hy) as (z & -> & Hz).
Qed.

(** On bytes the product is the value the loop computes. *)
Lemma mul_unfold x y :
  Byte x -> Byte y ->
  mul x y = fold_left (multiplyStep x y) [7; 6; 5; 4; 3; 2; 1; 0] 0.
Proof.
  intros Hx Hy. unfold mul, reedSolomonMultiply.
  rewrite (shru8_byte x Hx), (shru8_byte y Hy).
  change (negb (0 =? 0) || negb (0 =? 0)) with false. cbv beta iota zeta.
  set (z := fold_left _ _ _).
  assert (Byte z) as Hz by (apply multiply_loop_byte; [exact Hx | exact byte_0]).
  by rewrite (shru8_byte z Hz).
Qed.

Lemma mul_comm x y : Byte x -> Byte y -> mul x y = mul y x.
Proof.
  intros Hx Hy.
  assert (reedSolomonMultiply x y = reedSolomonMultiply y x) as Heq.
  { destruct (Z.lt_trichotomy x y) as [Hlt | [-> | Hgt]].
    - symmetry. apply multiply_table_symmetric; [exact Hy | unfold Byte in Hx; lia].
    - reflexivity.
    - apply multiply_table_symmetric; [exact Hx | unfold Byte in Hy; lia]. }
  rewrite !multiply_mul in Heq by assumption. congruence.
Qed.

Lemma mul_1_r x : Byte x -> mul x 1 = x.
Proof.
  intros Hx. pose proof (multiply_one x Hx) as H1.
  rewrite multiply_mul in H1 by (unfold Byte in *; lia). congruence.
Qed.

Lemma mul_0_r x : Byte x -> mul x 0 = 0.
Proof.
  intros Hx. pose proof (multiply_zero x Hx) as H0.
  rewrite multiply_mul in H0 by (unfold Byte in *; lia). congruence.
Qed.

Lemma mul_1_l x : Byte x -> mul 1 x = x.
Proof. intros Hx. rewrite mul_comm by (exact byte_1 || exact Hx). by apply mul_1_r. Qed.

Lemma mul_0_l x : Byte x -> mul 0 x = 0.
Proof. intros Hx. rewrite mul_comm by (exact byte_0 || exact Hx). by apply mul_0_r. Qed.

(** The doubling of the accumulator maps [^] to [^]. *)
Lemma double_additive a b :
  Byte a -> Byte b ->
  JS.xor (JS.shl (Z.lxor a b) 1) (JS.shru (Z.lxor a b) 7 * 0x11D) =
  Z.lxor (JS.xor (JS.shl a 1) (JS.shru a 7 * 0x11D))
         (JS.xor (JS.shl b 1) (JS.shru b 7 * 0x11D)).
Proof.
  intros Ha Hb. apply Z.eqb_eq.
  assert (forallb (fun a => forallb (fun b =>
            JS.xor (JS.shl (Z.lxor a b) 1) (JS.shru (Z.lxor a b) 7 * 0x11D) =?
            Z.lxor (JS.xor (JS.shl a 1) (JS.shru a 7 * 0x11D))
                   (JS.xor (JS.shl b 1) (JS.shru b 7 * 0x11D)))
            (seqZ 0 256)) (seqZ 0 256) = true) as Hall by (vm_compute; reflexivity).
  pose proof (forallb_bytes _ Hall a Ha) as Hrow. cbv beta in Hrow.
  exact (forallb_bytes _ Hrow b Hb).
Qed.

Lemma xor_lxor a b : Byte a -> Byte b -> JS.xor a b = Z.lxor a b.
Proof. intros Ha Hb. unfold JS.xor. by rewrite !ToInt32_byte. Qed.

Lemma lxor_swap a b c d :
  Z.lxor (Z.lxor a b) (Z.lxor c d) = Z.lxor (Z.lxor a c) (Z.lxor b d).
Proof.
  apply Z.bits_inj'. intros n _. rewrite !Z.lxor_spec.
  destruct (Z.testbit a n), (Z.testbit b n), (Z.testbit c n), (Z.testbit d n);
    reflexivity.
Qed.

(** A pass of the multiplication maps [^] to [^], in the accumulator and
    in [x] together. *)
Lemma multiplyStep_additive x1 x2 y z1 z2 i :
  Byte x1 -> Byte x2 -> Byte z1 -> Byte z2 ->
  multiplyStep (Z.lxor x1 x2) y (Z.lxor z1 z2) i =
  Z.lxor (multiplyStep x1 y z1 i) (multiplyStep x2 y z2 i).
Proof.
  intros Hx1 Hx2 Hz1 Hz2. unfold multiplyStep. cbv zeta.
  rewrite (double_additive z1 z2 Hz1 Hz2).
  pose proof (double_byte z1 Hz1) as Hd1. pose proof (double_byte z2 Hz2) as Hd2.
  set (d1 := JS.xor (JS.shl z1 1) _) in *. set (d2 := JS.xor (JS.shl z2 1) _) in *.
  destruct (and_one (JS.shru y i)) as [-> | ->].
  - rewrite !Z.mul_0_l.
    rewrite !xor_lxor by first [assumption | exact byte_0 | apply lxor_byte; assumption].
    by rewrite !Z.lxor_0_r.
  - rewrite !Z.mul_1_l.
    rewrite !xor_lxor by first [assumption | apply lxor_byte; assumption].
    apply lxor_swap.
Qed.

Lemma multiply_loop_additive x1 x2 y (l : list Z) :
  Byte x1 -> Byte x2 ->
  forall z1 z2, Byte z1 -> Byte z2 ->
    fold_left (multiplyStep (Z.lxor x1 x2) y) l (Z.lxor z1 z2) =
    Z.lxor (fold_left (multiplyStep x1 y) l z1) (fold_left (multiplyStep x2 y) l z2).
Proof.
  intros Hx1 Hx2. induction l as [| i l IH]; intros z1 z2 Hz1 Hz2; cbn [fold_left].
  - reflexivity.
  - rewrite multiplyStep_additive by assumption.
    apply IH; by apply multiplyStep_byte.
Qed.

(** The multiplication distributes over [^], on the left and on the right. *)
Lemma mul_lxor_l x1 x2 y :
  Byte x1 -> Byte x2 -> Byte y ->
  mul (Z.lxor x1 x2) y = Z.lxor (mul x1 y) (mul x2 y).
Proof.
  intros Hx1 Hx2 Hy. rewrite !mul_unfold by first [assumption | by apply lxor_byte].
  rewrite <- (multiply_loop_additive x1 x2 y _ Hx1 Hx2 0 0 byte_0 byte_0).
  by rewrite Z.lxor_0_r.
Qed.

Lemma mul_lxor_r x y1 y2 :
  Byte x -> Byte y1 -> Byte y2 ->
  mul x (Z.lxor y1 y2) = Z.lxor (mul x y1) (mul x y2).
Proof.
  intros Hx Hy1 Hy2.
  rewrite (mul_comm x (Z.lxor y1 y2)), (mul_comm x y1), (mul_comm x y2)
    by first [assumption | apply lxor_byte; assumption].
  by apply mul_lxor_l.
Qed.

(** Every byte but 0 is its leading power of two [^] a smaller byte. *)
Lemma byte_leading_bit x :
  Byte x -> x <> 0 ->
  0 <= Z.log2 x < 8 /\ 0 <= x - 2 ^ Z.log2 x < x /\
  Z.lxor (2 ^ Z.log2 x) (x - 2 ^ Z.log2 x) = x.
Proof.
  intros Hx Hnz.
  enough ((x =? 0) || ((0 <=? Z.log2 x) && (Z.log2 x <? 8) &&
                       (0 <=? x - 2 ^ Z.log2 x) && (x - 2 ^ Z.log2 x <? x) &&
                       (Z.lxor (2 ^ Z.log2 x) (x - 2 ^ Z.log2 x) =? x)) = true) as Hb.
  { apply orb_true_iff in Hb as [Hb | Hb]; [lia |].
    rewrite !andb_true_iff in Hb. lia. }
  clear Hnz. revert x Hx.
  apply forallb_bytes. vm_compute. reflexivity.
Qed.

(** Two additive functions that agree on the powers of two agree on the
    bytes. *)
Lemma additive_ext (f g : Z -> Z) :
  additive f -> additive g ->
  (forall k, 0 <= k < 8 -> f (2 ^ k) = g (2 ^ k)) ->
  forall x, Byte x -> f x = g x.
Proof.
  intros Hf Hg Hfg.
  assert (forall h, additive h -> h 0 = 0) as Hzero.
  { intros h Hh. pose proof (Hh 0 0 byte_0 byte_0) as H0.
    rewrite Z.lxor_0_r in H0.
    assert (Z.lxor (h 0) (h 0) = 0) as Hnil by apply Z.lxor_nilpotent.
    congruence. }
  enough (forall n : nat, forall x, 0 <= x <= Z.of_nat n -> x <= 255 -> f x = g x) as Hind.
  { intros x [Hx0 Hx1]. apply (Hind 255%nat); lia. }
  induction n as [| n IH]; intros x Hx Hx255.
  - assert (x = 0) as -> by lia. by rewrite !Hzero.
  - destruct (Z.eq_dec x 0) as [-> | Hnz]; [by rewrite !Hzero |].
    destruct (byte_leading_bit x) as (Hk & Hrest & Heq); [unfold Byte; lia | exact Hnz |].
    rewrite <- Heq.
    assert (Byte (2 ^ Z.log2 x)) as Hb1.
    { unfold Byte. split; [apply Z.pow_nonneg; lia |].
      enough (2 ^ Z.log2 x <= x) by lia. apply Z.log2_spec. lia. }
    assert (Byte (x - 2 ^ Z.log2 x)) as Hb2 by (unfold Byte; lia).
    rewrite Hf, Hg by assumption. rewrite Hfg by lia. f_equal. apply IH; lia.
Qed.

Lemma pow2_byte k : 0 <= k < 8 -> Byte (2 ^ k).
Proof.
  intros Hk. unfold Byte. split; [apply Z.pow_nonneg; lia |].
  enough (2 ^ k < 2 ^ 8) by lia. apply Z.pow_lt_mono_r; lia.
Qed.

Create HintDb bytes discriminated.
#[global] Hint Constants Opaque : bytes.
#[global] Hint Resolve byte_0 byte_1 byte_2 mul_byte lxor_byte pow2_byte : bytes.

Lemma forallb_seqZ (f : Z -> bool) (lo n : Z) :
  forallb f (seqZ lo n) = true -> forall z, lo <= z < lo + n -> f z = true.
Proof.
  intros Hall z Hz. rewrite forallb_forall in Hall. apply Hall.
  by apply list_elem_of_In, elem_of_seqZ.
Qed.

Lemma mul_assoc_pow2 i j k :
  0 <= i < 8 -> 0 <= j < 8 -> 0 <= k < 8 ->
  mul (mul (2 ^ i) (2 ^ j)) (2 ^ k) = mul (2 ^ i) (mul (2 ^ j) (2 ^ k)).
Proof.
  intros Hi Hj Hk. apply Z.eqb_eq.
  assert (forallb (fun i => forallb (fun j => forallb (fun k =>
            mul (mul (2 ^ i) (2 ^ j)) (2 ^ k) =? mul (2 ^ i) (mul (2 ^ j) (2 ^ k)))
            (seqZ 0 8)) (seqZ 0 8)) (seqZ 0 8) = true) as Hall
      by (vm_compute; reflexivity).
  pose proof (forallb_seqZ _ _ _ Hall i ltac:(lia)) as Hi'. cbv beta in Hi'.
  pose proof (forallb_seqZ _ _ _ Hi' j ltac:(lia)) as Hj'. cbv beta in Hj'.
  exact (forallb_seqZ _ _ _ Hj' k ltac:(lia)).
Qed.

(** The multiplication is associative. *)
Lemma mul_assoc x y z :
  Byte x -> Byte y -> Byte z -> mul (mul x y) z = mul x (mul y z).
Proof.
  intros Hx Hy Hz. revert x Hx.
  apply (additive_ext (fun x => mul (mul x y) z) (fun x => mul x (mul y z))).
  { intros a b Ha Hb. rewrite mul_lxor_l by assumption.
    apply mul_lxor_l; auto with bytes. }
  { intros a b Ha Hb. apply mul_lxor_l; auto with bytes. }
  intros i Hi. revert y Hy.
  apply (additive_ext (fun y => mul (mul (2 ^ i) y) z) (fun y => mul (2 ^ i) (mul y z))).
  { intros a b Ha Hb. rewrite mul_lxor_r by auto with bytes.
    apply mul_lxor_l; auto with bytes. }
  { intros a b Ha Hb. rewrite mul_lxor_l by assumption.
    apply mul_lxor_r; auto with bytes. }
  intros j Hj. revert z Hz.
  apply (additive_ext (fun z => mul (mul (2 ^ i) (2 ^ j)) z)
                      (fun z => mul (2 ^ i) (mul (2 ^ j) z))).
  { intros a b Ha Hb. apply mul_lxor_r; auto with bytes. }
  { intros a b Ha Hb. rewrite mul_lxor_r by auto with bytes.
    apply mul_lxor_r; auto with bytes. }
  intros k Hk. by apply mul_assoc_pow2.
Qed.

Lemma gpow_byte a n : Byte a -> Byte (gpow a n).
Proof. intros Ha. induction n as [| n IH]; cbn [gpow]; auto with bytes. Qed.

#[global] Hint Resolve gpow_byte : bytes.

Lemma gpow_add a m n :
  Byte a -> gpow a (m + n) = mul (gpow a m) (gpow a n).
Proof.
  intros Ha. induction n as [| n IH].
  - rewrite Nat.add_0_r. cbn [gpow]. by rewrite mul_1_r by auto with bytes.
  - rewrite Nat.add_succ_r. cbn [gpow]. rewrite IH.
    apply mul_assoc; auto with bytes.
Qed.

Lemma powers_lookup a n :
  forall k i, (i < n)%nat -> powers a n (gpow a k) !! i = Some (gpow a (k + i)).
Proof.
  induction n as [| n IH]; intros k i Hi; [lia |]. cbn [powers].
  destruct i as [| i]; cbn [lookup list_lookup].
  - by rewrite Nat.add_0_r.
  - change (mul (gpow a k) a) with (gpow a (S k)).
    rewrite IH by lia. f_equal. f_equal. lia.
Qed.

Lemma nodupb_NoDup l : nodupb l = true -> NoDup l.
Proof.
  induction l as [| x t IH]; cbn [nodupb]; [constructor |].
  intros [Hx Ht]%andb_true_iff. constructor; [| by apply IH].
  intros Hin. apply negb_true_iff in Hx.
  assert (existsb (Z.eqb x) t = true) as Hex; [| congruence].
  apply existsb_exists. exists x. split; [by apply list_elem_of_In | apply Z.eqb_refl].
Qed.

Lemma table_check (table : list Z) :
  match table !! 255%nat with Some p => p =? 1 | None => false end
  && nodupb (take 255 table)
  && forallb (fun x => (x =? 0) || existsb (Z.eqb x) (take 255 table)) (seqZ 0 256)
  = true ->
  table !! 255%nat = Some 1 /\
  NoDup (take 255 table) /\
  forall x, Byte x -> x <> 0 -> In x (take 255 table).
Proof.
  rewrite !andb_true_iff. intros [[H255 Hnd] Hin]. split; [| split].
  - destruct (table !! 255%nat) as [p |]; [| discriminate].
    by apply Z.eqb_eq in H255 as ->.
  - by apply nodupb_NoDup.
  - intros x Hx Hnz. pose proof (forallb_bytes _ Hin x Hx) as Hx'. cbv beta in Hx'.
    apply orb_true_iff in Hx' as [Hx' | Hx']; [lia |].
    apply existsb_exists in Hx' as (x' & Hin' & ->%Z.eqb_eq). exact Hin'.
Qed.

(** The table of the powers of 2: 2^255 is 1, the 255 powers before it are
    distinct, and every byte but 0 is among them. *)
Lemma powers_of_two_table :
  powers 2 256 1 !! 255%nat = Some 1 /\
  NoDup (take 255 (powers 2 256 1)) /\
  forall x, Byte x -> x <> 0 -> In x (take 255 (powers 2 256 1)).
Proof. apply table_check. vm_compute. reflexivity. Qed.

Lemma powers_lookup_1 a n i :
  (i < n)%nat -> powers a n 1 !! i = Some (gpow a i).
Proof. intros Hi. exact (powers_lookup a n 0%nat i Hi). Qed.

Lemma gpow_2_255 : gpow 2 255 = 1.
Proof.
  destruct powers_of_two_table as (H255 & _ & _).
  pose proof (powers_lookup_1 2 256 255 ltac:(lia)) as Hp.
  rewrite H255 in Hp. apply (inj Some) in Hp. symmetry. exact Hp.
Qed.

Lemma byte_is_power x : Byte x -> x <> 0 -> exists i, (i < 255)%nat /\ gpow 2 i = x.
Proof.
  intros Hx Hnz. destruct powers_of_two_table as (_ & _ & Hin).
  apply Hin, list_elem_of_In, list_elem_of_lookup in Hnz as [i Hi]; [| exact Hx].
  apply lookup_take_Some in Hi as [Hi Hlt].
  rewrite powers_lookup_1 in Hi by lia.
  exists i. split; [exact Hlt |]. apply (inj Some) in Hi. exact Hi.
Qed.

Lemma gpow_2_inj i j :
  (i < 255)%nat -> (j < 255)%nat -> gpow 2 i = gpow 2 j -> i = j.
Proof.
  intros Hi Hj Heq. destruct powers_of_two_table as (_ & Hnd & _).
  apply (NoDup_lookup _ i j (gpow 2 i) Hnd).
  - rewrite lookup_take_lt by lia. apply powers_lookup_1. lia.
  - rewrite lookup_take_lt by lia. rewrite Heq. apply powers_lookup_1. lia.
Qed.

(** Every byte but 0 has an inverse. *)
Lemma mul_inverse x : Byte x -> x <> 0 -> exists y, Byte y /\ mul x y = 1.
Proof.
  intros Hx Hnz. destruct (byte_is_power x Hx Hnz) as (i & Hi & <-).
  exists (gpow 2 (255 - i)). split; [auto with bytes |].
  rewrite <- gpow_add by exact byte_2.
  replace (i + (255 - i))%nat with 255%nat by lia. exact gpow_2_255.
Qed.

(** A product is 0 only when a factor is. *)
Lemma mul_eq_0 x y : Byte x -> Byte y -> mul x y = 0 -> x = 0 \/ y = 0.
Proof.
  intros Hx Hy Hz. destruct (Z.eq_dec x 0) as [? | Hnz]; [by left | right].
  destruct (mul_inverse x Hx Hnz) as (x' & Hx' & Hinv).
  rewrite <- (mul_1_l y Hy), <- Hinv, (mul_comm x x'), mul_assoc, Hz by assumption.
  by apply mul_0_r.
Qed.

Lemma gpow_2_nonzero i : gpow 2 i <> 0.
Proof.
  induction i as [| i IH]; cbn [gpow]; [lia |].
  intros Hz. apply mul_eq_0 in Hz as [Hz | Hz]; auto with bytes. lia.
Qed.

(** ** Polynomials over the bytes *)

Ltac lxor_ac :=
  apply Z.bits_inj'; let n := fresh "n" in
  intros n _; rewrite ?Z.lxor_spec, ?Z.bits_0;
  repeat match goal with
         | |- context [Z.testbit ?t n] =>
             let b := fresh "b" in generalize (Z.testbit t n); intros b
         end;
  repeat match goal with b : bool |- _ => destruct b end; reflexivity.

Lemma horner_byte a (p : list Z) :
  Byte a -> Forall Byte p ->
  forall acc, Byte acc -> Byte (fold_left (fun acc c => Z.lxor (mul acc a) c) p acc).
Proof.
  intros Ha Hp. induction Hp as [| c p Hc _ IH]; intros acc Hacc; cbn [fold_left];
    [exact Hacc |].
  apply IH. auto with bytes.
Qed.

Lemma evalPoly_byte p a : Byte a -> Forall Byte p -> Byte (evalPoly p a).
Proof. intros Ha Hp. unfold evalPoly. apply horner_byte; auto with bytes. Qed.

#[global] Hint Resolve evalPoly_byte : bytes.

Lemma horner_acc a (p : list Z) :
  Byte a -> Forall Byte p ->
  forall acc, Byte acc ->
    fold_left (fun acc c => Z.lxor (mul acc a) c) p acc =
    Z.lxor (mul acc (gpow a (length p))) (evalPoly p a).
Proof.
  intros Ha Hp. unfold evalPoly.
  induction Hp as [| c p Hc Hp IH]; intros acc Hacc; cbn [fold_left length gpow].
  - rewrite mul_1_r by assumption. by rewrite Z.lxor_0_r.
  - rewrite IH by auto with bytes. rewrite (IH (Z.lxor (mul 0 a) c)) by auto with bytes.
    rewrite mul_0_l, Z.lxor_0_l by assumption.
    rewrite mul_lxor_l by auto with bytes.
    rewrite (mul_assoc acc a) by auto with bytes.
    rewrite (mul_comm a (gpow a (length p))) by auto with bytes.
    lxor_ac.
Qed.

Lemma evalPoly_cons c p a :
  Byte a -> Byte c -> Forall Byte p ->
  evalPoly (c :: p) a = Z.lxor (mul c (gpow a (length p))) (evalPoly p a).
Proof.
  intros Ha Hc Hp. unfold evalPoly at 1. cbn [fold_left].
  rewrite mul_0_l, Z.lxor_0_l by assumption. by apply horner_acc.
Qed.

Lemma evalPoly_app p q a :
  Byte a -> Forall Byte p -> Forall Byte q ->
  evalPoly (p ++ q) a = Z.lxor (mul (evalPoly p a) (gpow a (length q))) (evalPoly q a).
Proof.
  intros Ha Hp Hq. unfold evalPoly at 1. rewrite fold_left_app.
  fold (evalPoly p a). apply horner_acc; auto with bytes.
Qed.

(** ** The passes of [reedSolomonComputeDivisor] *)

Lemma shiftMul_length r l : length (shiftMul r l) = length l.
Proof. induction l as [| c t IH]; cbn [shiftMul length]; [reflexivity | by rewrite IH]. Qed.

Lemma hd_byte (l : list Z) : Forall Byte l -> Byte (hd 0 l).
Proof. intros [| c t Hc _]; cbn [hd]; [exact byte_0 | exact Hc]. Qed.

#[global] Hint Resolve hd_byte : bytes.

Lemma shiftMul_byte r l : Byte r -> Forall Byte l -> Forall Byte (shiftMul r l).
Proof.
  intros Hr Hl. induction Hl as [| c t Hc Ht IH]; cbn [shiftMul]; constructor;
    auto with bytes.
Qed.

#[global] Hint Resolve shiftMul_byte : bytes.

Lemma insert_middle {A : Type} (pre : list A) (c x : A) (t : list A) :
  <[length pre := x]> (pre ++ c :: t) = pre ++ x :: t.
Proof.
  replace (length pre) with (length pre + 0)%nat by lia. by rewrite insert_app_r.
Qed.

(** A pass of the inner loop, started at the position after [pre]. *)
Lemma divisorPass_from root (l : list Z) :
  Byte root -> Forall Byte l ->
  forall pre,
    foldM (divisorStep root) (seq (length pre) (length l)) (pre ++ l) =
    Ok (pre ++ shiftMul root l).
Proof.
  intros Hroot Hl. induction Hl as [| c t Hc Ht IH]; intros pre.
  - reflexivity.
  - cbn [length seq foldM shiftMul]. unfold divisorStep at 1. unfold get at 1.
    rewrite list_lookup_middle by reflexivity. cbn [bind].
    rewrite (multiply_mul c root Hc Hroot). cbn [bind].
    rewrite insert_middle, length_app. cbn [length].
    destruct t as [| c' t'].
    + destruct (_ <? _)%nat eqn:Hlt;
        [apply Nat.ltb_lt in Hlt; cbn [length] in Hlt; lia |].
      cbn [bind length seq foldM shiftMul hd]. by rewrite Z.lxor_0_r.
    + destruct (_ <? _)%nat eqn:Hlt;
        [| apply Nat.ltb_ge in Hlt; cbn [length] in Hlt; lia].
      unfold get. rewrite list_lookup_middle by reflexivity. cbn [bind].
      replace ((pre ++ mul c root :: c' :: t') !! (length pre + 1)%nat) with (Some c').
      2:{ rewrite cons_middle, app_assoc.
          symmetry. apply list_lookup_middle. rewrite length_app. cbn [length]. lia. }
      cbn [bind]. rewrite insert_middle.
      apply Forall_cons in Ht as [Hc' Ht'].
      rewrite xor_lxor by auto with bytes. cbn [hd].
      specialize (IH (pre ++ [Z.lxor (mul c root) c'])).
      rewrite length_app in IH. cbn [length] in IH.
      replace (length pre + 1)%nat with (S (length pre)) in IH by lia.
      rewrite <- !app_assoc in IH. exact IH.
Qed.

Lemma divisorPass_eq root (l : list Z) :
  Byte root -> Forall Byte l ->
  foldM (divisorStep root) (seq 0 (length l)) l = Ok (shiftMul root l).
Proof. intros Hroot Hl. exact (divisorPass_from root l Hroot Hl []). Qed.

(** The value of the polynomial after a pass: the old value times
    [a ^ root], less the term that leaves the array at the top. *)
Lemma evalPoly_shiftMul r a l :
  Byte r -> Byte a -> Forall Byte l ->
  evalPoly (shiftMul r l) a =
  Z.lxor (mul (evalPoly l a) (Z.lxor a r)) (mul (hd 0 l) (gpow a (length l))).
Proof.
  intros Hr Ha Hl. induction Hl as [| c t Hc Ht IH].
  - cbn [shiftMul hd length gpow]. change (evalPoly [] a) with 0.
    by rewrite !mul_0_l by auto with bytes.
  - cbn [shiftMul hd length gpow].
    rewrite !evalPoly_cons by auto with bytes.
    rewrite IH, shiftMul_length.
    set (A := gpow a (length t)). set (e := evalPoly t a). set (h := hd 0 t).
    assert (Byte A) by (unfold A; auto with bytes).
    assert (Byte e) by (unfold e; auto with bytes).
    assert (Byte h) by (unfold h; auto with bytes).
    rewrite (mul_lxor_l (mul c r) h A) by auto with bytes.
    rewrite (mul_lxor_l (mul c A) e (Z.lxor a r)) by auto with bytes.
    rewrite (mul_lxor_r (mul c A) a r) by auto with bytes.
    rewrite (mul_assoc c A a) by auto with bytes.
    rewrite (mul_assoc c r A), (mul_comm r A), <- (mul_assoc c A r) by auto with bytes.
    lxor_ac.
Qed.

Lemma shiftMul_zeros r m rest :
  Byte r ->
  shiftMul r (replicate (S m) 0 ++ 1 :: rest) =
  replicate m 0 ++ 1 :: shiftMul r (1 :: rest).
Proof.
  intros Hr. induction m as [| m IH].
  - cbn [replicate app shiftMul hd].
    by rewrite mul_0_l, Z.lxor_0_l by assumption.
  - change (replicate (S (S m)) 0 ++ 1 :: rest)
      with (0 :: (replicate (S m) 0 ++ 1 :: rest)).
    cbn [shiftMul]. rewrite IH. cbn [replicate app hd].
    by rewrite mul_0_l, Z.lxor_0_l by assumption.
Qed.

Lemma evalPoly_zeros m a : Byte a -> evalPoly (replicate m 0) a = 0.
Proof.
  intros Ha. induction m as [| m IH]; [reflexivity |]. cbn [replicate].
  rewrite evalPoly_cons, IH by (auto with bytes; apply Forall_replicate, byte_0).
  by rewrite mul_0_l, Z.lxor_0_l by auto with bytes.
Qed.

Lemma rootsProduct_byte a n : Byte a -> Byte (rootsProduct a n).
Proof. intros Ha. induction n as [| n IH]; cbn [rootsProduct]; auto with bytes. Qed.

#[global] Hint Resolve rootsProduct_byte : bytes.

(** The product vanishes at the powers of 2 it is built from, and nowhere
    else. *)
Lemma rootsProduct_root i n : (i < n)%nat -> rootsProduct (gpow 2 i) n = 0.
Proof.
  intros Hi. induction n as [| n IH]; [lia |]. cbn [rootsProduct].
  destruct (decide (i = n)) as [-> | Hne].
  - rewrite Z.lxor_nilpotent. apply mul_0_r. auto with bytes.
  - rewrite IH by lia. apply mul_0_l. auto with bytes.
Qed.

Lemma rootsProduct_zero a n :
  Byte a -> rootsProduct a n = 0 -> exists i, (i < n)%nat /\ a = gpow 2 i.
Proof.
  intros Ha. induction n as [| n IH]; cbn [rootsProduct]; [discriminate |].
  intros [Hz | Hz]%mul_eq_0; auto with bytes.
  - destruct (IH Hz) as (i & Hi & ->). exists i. split; [lia | reflexivity].
  - exists n. split; [lia |]. by apply Z.lxor_eq.
Qed.

(** The state of the outer loop of [reedSolomonComputeDivisor] after [k] of
    its [n] passes. *)
Lemma divisorLoop_step n k result :
  (k < n)%nat -> Forall Byte result -> length result = n ->
  (exists rest, result = replicate (n - 1 - k) 0 ++ 1 :: rest) ->
  (forall a, Byte a -> evalPoly result a = rootsProduct a k) ->
  let result' := shiftMul (gpow 2 k) result in
  Forall Byte result' /\ length result' = n /\
  ((S k < n)%nat ->
   (exists rest, result' = replicate (n - 1 - S k) 0 ++ 1 :: rest) /\
   (forall a, Byte a -> evalPoly result' a = rootsProduct a (S k))) /\
  (S k = n ->
   forall a, Byte a -> Z.lxor (gpow a n) (evalPoly result' a) = rootsProduct a n).
Proof.
  intros Hk Hb Hlen [rest Hshape] Heval. cbv zeta.
  split; [auto with bytes |]. split; [by rewrite shiftMul_length |]. split.
  - intros Hk'. split.
    + exists (shiftMul (gpow 2 k) (1 :: rest)). rewrite Hshape.
      replace (n - 1 - k)%nat with (S (n - 1 - S k)) by lia.
      apply shiftMul_zeros. auto with bytes.
    + intros a Ha. rewrite evalPoly_shiftMul, Heval by auto with bytes.
      rewrite Hshape. replace (n - 1 - k)%nat with (S (n - 1 - S k)) by lia.
      cbn [replicate app hd rootsProduct].
      by rewrite mul_0_l, Z.lxor_0_r by auto with bytes.
  - intros Hk' a Ha. rewrite evalPoly_shiftMul, Heval by auto with bytes.
    assert (Hhd : hd 0 result = 1).
    { rewrite Hshape. by replace (n - 1 - k)%nat with 0%nat by lia. }
    rewrite Hhd, Hlen, mul_1_l, <- Hk' by auto with bytes.
    cbn [rootsProduct]. lxor_ac.
Qed.

Lemma evalPoly_monic g a :
  Byte a -> Forall Byte g ->
  evalPoly (1 :: g) a = Z.lxor (gpow a (length g)) (evalPoly g a).
Proof.
  intros Ha Hg. rewrite evalPoly_cons by auto with bytes.
  by rewrite mul_1_l by auto with bytes.
Qed.

Lemma reedSolomonComputeDivisor_eval degree :
  post (fun g => 1 <= degree <= 255 /\ Forall Byte g /\
                 length g = Z.to_nat degree /\
                 forall a, Byte a ->
                   evalPoly (1 :: g) a = rootsProduct a (Z.to_nat degree))
       (fun e => ~ (1 <= degree <= 255))
       (reedSolomonComputeDivisor degree).
Proof.
  unfold reedSolomonComputeDivisor.
  destruct ((degree <? 1) || (degree >? 255)) eqn:Hc.
  { cbn [post]. lia. }
  assert (1 <= degree <= 255) as Hdeg by lia. clear Hc.
  rewrite <- (Z2Nat.id degree) in Hdeg |- * by lia.
  rewrite Nat2Z.id. generalize dependent (Z.to_nat degree). clear degree.
  intros n Hdeg.
  set (Inv := fun (i : Z) (s : list Z * Z) =>
    snd s = gpow 2 (Z.to_nat i) /\ Forall Byte (fst s) /\ length (fst s) = n /\
    ((Z.to_nat i < n)%nat ->
     (exists rest, fst s = replicate (n - 1 - Z.to_nat i) 0 ++ 1 :: rest) /\
     (forall a, Byte a -> evalPoly (fst s) a = rootsProduct a (Z.to_nat i))) /\
    (Z.to_nat i = n ->
     forall a, Byte a ->
       Z.lxor (gpow a n) (evalPoly (fst s) a) = rootsProduct a n)).
  eapply post_bind with (P := Inv (Z.of_nat n)).
  - eapply post_weaken with (E := fun _ => False); [| intros a Ha; exact Ha | tauto].
    apply (post_foldM_seqZ Inv (fun _ => False) _ n 0).
    + intros i [result root] Hi (Hroot & Hres & Hlen & Hlt & _).
      cbn [fst snd] in *. subst root.
      destruct Hlt as [Hshape Heval]; [lia |].
      rewrite divisorPass_eq by auto with bytes.
      cbn [bind]. rewrite multiply_mul by auto with bytes. cbn [bind post].
      destruct (divisorLoop_step n (Z.to_nat i) result) as (Hb & Hl & Hlt' & Heq');
        [lia | assumption .. |].
      unfold Inv. cbn [fst snd].
      replace (Z.to_nat (i + 1)) with (S (Z.to_nat i)) by lia.
      split; [reflexivity |]. split; [exact Hb |]. split; [exact Hl |].
      split; assumption.
    + unfold Inv. cbn [fst snd]. change (Z.to_nat 0) with 0%nat.
      split; [reflexivity |]. split.
      { apply Forall_app. split; [apply Forall_replicate, byte_0 |].
        constructor; [exact byte_1 | constructor]. }
      split.
      { rewrite length_app, length_replicate. cbn [length]. lia. }
      split; [| lia]. intros _. split.
      * exists []. f_equal. f_equal. lia.
      * intros a Ha.
        rewrite evalPoly_app;
          [| assumption | apply Forall_replicate, byte_0
           | constructor; [exact byte_1 | constructor]].
        rewrite evalPoly_zeros, mul_0_l by auto with bytes.
        unfold evalPoly. cbn [fold_left]. by rewrite mul_0_l by assumption.
  - intros [result root] (_ & Hres & Hlen & _ & Heq). cbn [fst snd post] in *.
    split; [exact Hdeg |]. split; [exact Hres |]. split; [exact Hlen |].
    intros a Ha. rewrite evalPoly_monic, Hlen by assumption.
    apply Heq; [lia | assumption].
Qed.

(** ** The passes of [reedSolomonComputeRemainder] *)

Lemma addScaled_length factor : forall result divisor,
  length (addScaled factor result divisor) = length result.
Proof.
  induction result as [| x t IH]; intros [| c d]; cbn [addScaled length];
    try reflexivity.
  by rewrite IH.
Qed.

Lemma addScaled_byte factor :
  Byte factor ->
  forall result divisor, Forall Byte result -> Forall Byte divisor ->
    Forall Byte (addScaled factor result divisor).
Proof.
  intros Hf result. induction result as [| x t IH]; intros [| c d] Hr Hd;
    cbn [addScaled]; try assumption.
  apply Forall_cons in Hr as [Hx Ht]. apply Forall_cons in Hd as [Hc Hd].
  constructor; auto with bytes.
Qed.

#[global] Hint Resolve addScaled_byte : bytes.

Lemma forEach_xorCoef factor :
  Byte factor ->
  forall divisor pre result,
    Forall Byte divisor -> Forall Byte result ->
    (length divisor <= length result)%nat ->
    forEach (xorCoef factor) divisor (length pre) (pre ++ result) =
    Ok (pre ++ addScaled factor result divisor).
Proof.
  intros Hf divisor. induction divisor as [| c d IH]; intros pre result Hd Hr Hlen.
  - by destruct result.
  - destruct result as [| x t]; [cbn [length] in Hlen; lia |].
    apply Forall_cons in Hd as [Hc Hd]. apply Forall_cons in Hr as [Hx Ht].
    cbn [forEach addScaled]. unfold xorCoef at 1, xorAt, get.
    rewrite (multiply_mul c factor Hc Hf). cbn [bind].
    rewrite list_lookup_middle by reflexivity. cbn [bind].
    rewrite insert_middle, xor_lxor by auto with bytes.
    specialize (IH (pre ++ [Z.lxor x (mul c factor)]) t Hd Ht).
    rewrite length_app in IH. cbn [length] in IH.
    replace (length pre + 1)%nat with (S (length pre)) in IH by lia.
    rewrite <- !app_assoc in IH. apply IH. cbn [length] in Hlen. lia.
Qed.

Lemma evalPoly_snoc p c a : evalPoly (p ++ [c]) a = Z.lxor (mul (evalPoly p a) a) c.
Proof. unfold evalPoly. by rewrite fold_left_app. Qed.

Lemma mul_swap_r x y z :
  Byte x -> Byte y -> Byte z -> mul (mul x y) z = mul (mul x z) y.
Proof.
  intros Hx Hy Hz. rewrite !mul_assoc by assumption.
  by rewrite (mul_comm y z).
Qed.

Lemma evalPoly_addScaled factor a :
  Byte factor -> Byte a ->
  forall result divisor,
    Forall Byte result -> Forall Byte divisor -> length result = length divisor ->
    evalPoly (addScaled factor result divisor) a =
    Z.lxor (evalPoly result a) (mul (evalPoly divisor a) factor).
Proof.
  intros Hf Ha result. induction result as [| x t IH]; intros [| c d] Hr Hd Hlen;
    try discriminate.
  - cbn [addScaled]. unfold evalPoly. cbn [fold_left].
    by rewrite mul_0_l by assumption.
  - apply Forall_cons in Hr as [Hx Ht]. apply Forall_cons in Hd as [Hc Hd].
    injection Hlen as Hlen. cbn [addScaled].
    rewrite !evalPoly_cons by auto with bytes.
    rewrite IH, addScaled_length, <- Hlen by assumption.
    rewrite !mul_lxor_l by auto with bytes.
    rewrite (mul_swap_r c factor) by auto with bytes.
    lxor_ac.
Qed.

(** A pass of the loop of [reedSolomonComputeRemainder] on an array that
    is as long as the divisor. *)
Lemma remainderStep_eq divisor x t b :
  Byte b -> Byte x -> Forall Byte t -> Forall Byte divisor ->
  length divisor = S (length t) ->
  remainderStep divisor (x :: t) b = Ok (addScaled (Z.lxor b x) (t ++ [0]) divisor).
Proof.
  intros Hb Hx Ht Hd Hlen. unfold remainderStep. cbn [JS.shift JS.operand].
  rewrite xor_lxor by assumption.
  apply (forEach_xorCoef (Z.lxor b x) (lxor_byte _ _ Hb Hx) divisor [] (t ++ [0]));
    [assumption | |].
  - apply Forall_app. split; [assumption | constructor; [exact byte_0 | constructor]].
  - rewrite length_app. cbn [length]. lia.
Qed.

Ltac distribute :=
  repeat first [ rewrite mul_lxor_l by auto with bytes
               | rewrite mul_lxor_r by auto with bytes ].

Lemma division_algebra eP eQ et eg an an1 a b x :
  Byte eP -> Byte eQ -> Byte et -> Byte eg -> Byte an -> Byte an1 -> Byte a ->
  Byte b -> Byte x ->
  mul an1 a = an ->
  mul eP an = Z.lxor (mul eQ (Z.lxor an eg)) (Z.lxor (mul x an1) et) ->
  mul (Z.lxor (mul eP a) b) an =
  Z.lxor (mul (Z.lxor (mul eQ a) (Z.lxor b x)) (Z.lxor an eg))
         (Z.lxor (Z.lxor (mul et a) 0) (mul eg (Z.lxor b x))).
Proof.
  intros HeP HeQ Het Heg Han Han1 Ha Hb Hx Hpow H.
  rewrite mul_lxor_l, (mul_swap_r eP a an), H by auto with bytes.
  distribute.
  rewrite (mul_assoc x an1 a), Hpow by assumption.
  rewrite (mul_swap_r eQ an a), (mul_swap_r eQ eg a) by assumption.
  rewrite (mul_comm eg b), (mul_comm eg x) by assumption.
  lxor_ac.
Qed.

Lemma division_step divisor P Q x t b a :
  Byte a -> Byte b -> Byte x -> Forall Byte t -> Forall Byte divisor ->
  Forall Byte P -> Forall Byte Q ->
  length divisor = S (length t) ->
  mul (evalPoly P a) (gpow a (length divisor)) =
    Z.lxor (mul (evalPoly Q a) (evalPoly (1 :: divisor) a)) (evalPoly (x :: t) a) ->
  mul (evalPoly (P ++ [b]) a) (gpow a (length divisor)) =
    Z.lxor (mul (evalPoly (Q ++ [Z.lxor b x]) a) (evalPoly (1 :: divisor) a))
           (evalPoly (addScaled (Z.lxor b x) (t ++ [0]) divisor) a).
Proof.
  intros Ha Hb Hx Ht Hd HP HQ Hlen H.
  assert (Forall Byte (t ++ [0])) as Ht0.
  { apply Forall_app. split; [assumption | constructor; [exact byte_0 | constructor]]. }
  rewrite evalPoly_addScaled;
    [| auto with bytes | assumption | assumption | assumption
     | rewrite length_app; cbn [length]; lia].
  rewrite !evalPoly_snoc, evalPoly_monic by assumption.
  rewrite evalPoly_monic, evalPoly_cons in H by assumption.
  apply (division_algebra _ _ _ _ _ (gpow a (length t))); auto with bytes.
  by rewrite Hlen.
Qed.

Lemma remainderLoop_division divisor :
  Forall Byte divisor ->
  forall data result P Q,
    Forall Byte data -> Forall Byte result -> Forall Byte P -> Forall Byte Q ->
    length result = length divisor -> (0 < length divisor)%nat ->
    (forall a, Byte a ->
       mul (evalPoly P a) (gpow a (length divisor)) =
       Z.lxor (mul (evalPoly Q a) (evalPoly (1 :: divisor) a)) (evalPoly result a)) ->
    exists rem q,
      foldM (remainderStep divisor) data result = Ok rem /\
      Forall Byte rem /\ length rem = length divisor /\
      Forall Byte q /\ length q = (length Q + length data)%nat /\
      forall a, Byte a ->
        mul (evalPoly (P ++ data) a) (gpow a (length divisor)) =
        Z.lxor (mul (evalPoly q a) (evalPoly (1 :: divisor) a)) (evalPoly rem a).
Proof.
  intros Hd data. induction data as [| b data IH];
    intros result P Q Hdata Hres HP HQ Hlen Hpos Hinv.
  - exists result, Q. rewrite app_nil_r. cbn [foldM length].
    split; [reflexivity |]. split; [assumption |]. split; [assumption |].
    split; [assumption |]. split; [lia | assumption].
  - apply Forall_cons in Hdata as [Hb Hdata].
    destruct result as [| x t]; [cbn [length] in Hlen; lia |].
    apply Forall_cons in Hres as [Hx Ht]. cbn [length] in Hlen.
    cbn [foldM]. rewrite remainderStep_eq by (assumption || lia). cbn [bind].
    assert (Forall Byte (t ++ [0])) as Ht0.
    { apply Forall_app. split; [assumption | constructor; [exact byte_0 | constructor]]. }
    destruct (IH (addScaled (Z.lxor b x) (t ++ [0]) divisor) (P ++ [b])
                 (Q ++ [Z.lxor b x]))
      as (rem & q & Hrun & Hrem & Hlrem & Hq & Hlq & Heval).
    + assumption.
    + auto with bytes.
    + apply Forall_app. split; [assumption | constructor; [assumption | constructor]].
    + apply Forall_app. split; [assumption |].
      constructor; [auto with bytes | constructor].
    + rewrite addScaled_length, length_app. cbn [length]. lia.
    + assumption.
    + intros a Ha. apply division_step; try assumption; [lia | by apply Hinv].
    + exists rem, q. split; [exact Hrun |]. split; [assumption |].
      split; [assumption |]. split; [assumption |]. split.
      * rewrite Hlq, length_app. cbn [length]. lia.
      * intros a Ha. rewrite <- (Heval a Ha), <- app_assoc. reflexivity.
Qed.

(** ** The multiplication is that of a field *)

Lemma rootIteration n :
  foldM (fun root (_ : nat) => reedSolomonMultiply root 2) (seq 0 n) 1 = Ok (gpow 2 n).
Proof.
  assert (forall k m, foldM (fun root (_ : nat) => reedSolomonMultiply root 2)
                            (seq k m) (gpow 2 k) = Ok (gpow 2 (k + m))) as Hgen.
  { intros k m. revert k. induction m as [| m IH]; intros k.
    - by rewrite Nat.add_0_r.
    - cbn [seq foldM]. rewrite multiply_mul by auto with bytes. cbn [bind].
      change (mul (gpow 2 k) 2) with (gpow 2 (S k)). rewrite IH. f_equal. f_equal. lia. }
  exact (Hgen 0%nat n).
Qed.

(** X1: on bytes [reedSolomonMultiply] is associative: multiplying the
    product of [x] and [y] by [z] returns what multiplying [x] by the
    product of [y] and [z] returns, and neither call throws. *)
Theorem multiply_associative (x y z : Z) :
  Byte x -> Byte y -> Byte z ->
  exists r, Byte r /\
    (let* xy := reedSolomonMultiply x y in reedSolomonMultiply xy z) = Ok r /\
    (let* yz := reedSolomonMultiply y z in reedSolomonMultiply x yz) = Ok r.
Proof.
  intros Hx Hy Hz. exists (mul (mul x y) z). split; [auto with bytes |].
  rewrite !(multiply_mul x y), !(multiply_mul y z) by assumption. cbn [bind].
  rewrite !multiply_mul by auto with bytes.
  split; [reflexivity |]. f_equal. symmetry. by apply mul_assoc.
Qed.

(** The law at 87, 131 and 200. *)
Lemma multiply_associative_witness :
  exists r, Byte r /\
    (let* xy := reedSolomonMultiply 87 131 in reedSolomonMultiply xy 200) = Ok r /\
    (let* yz := reedSolomonMultiply 131 200 in reedSolomonMultiply 87 yz) = Ok r.
Proof. apply (multiply_associative 87 131 200); unfold Byte; lia. Defined.

(** X2: on bytes [reedSolomonMultiply] distributes over [^], the sum of the
    field, in either argument. *)
Theorem multiply_distributive (x y z : Z) :
  Byte x -> Byte y -> Byte z ->
  exists xz yz,
    reedSolomonMultiply x z = Ok xz /\ reedSolomonMultiply y z = Ok yz /\
    reedSolomonMultiply (JS.xor x y) z = Ok (JS.xor xz yz) /\
    reedSolomonMultiply z (JS.xor x y) = Ok (JS.xor xz yz).
Proof.
  intros Hx Hy Hz. exists (mul x z), (mul y z).
  rewrite !xor_lxor by auto with bytes.
  rewrite !multiply_mul by auto with bytes.
  split; [reflexivity |]. split; [reflexivity |].
  rewrite (mul_comm z) by auto with bytes.
  by rewrite mul_lxor_l by assumption.
Qed.

(** The law at 87, 131 and 200. *)
Lemma multiply_distributive_witness :
  exists xz yz,
    reedSolomonMultiply 87 200 = Ok xz /\ reedSolomonMultiply 131 200 = Ok yz /\
    reedSolomonMultiply (JS.xor 87 131) 200 = Ok (JS.xor xz yz) /\
    reedSolomonMultiply 200 (JS.xor 87 131) = Ok (JS.xor xz yz).
Proof. apply (multiply_distributive 87 131 200); unfold Byte; lia. Defined.

(** X3: every byte but 0 has an inverse for [reedSolomonMultiply]; so a
    product by it is 0 only for the factor 0, and it can be cancelled. *)
Theorem multiply_inverse (x : Z) :
  Byte x -> x <> 0 ->
  (exists y, Byte y /\ reedSolomonMultiply x y = Ok 1) /\
  (forall y, Byte y -> reedSolomonMultiply x y = Ok 0 -> y = 0) /\
  (forall y z, Byte y -> Byte z ->
     reedSolomonMultiply x y = reedSolomonMultiply x z -> y = z).
Proof.
  intros Hx Hnz. split; [| split].
  - destruct (mul_inverse x Hx Hnz) as (y & Hy & Hinv).
    exists y. split; [exact Hy |]. by rewrite multiply_mul, Hinv.
  - intros y Hy. rewrite multiply_mul by assumption. intros [= H0].
    by destruct (mul_eq_0 x y Hx Hy H0).
  - intros y z Hy Hz. rewrite !multiply_mul by assumption. intros [= Heq].
    apply Z.lxor_eq.
    assert (mul x (Z.lxor y z) = 0) as H0.
    { rewrite mul_lxor_r, Heq by assumption. apply Z.lxor_nilpotent. }
    destruct (mul_eq_0 x (Z.lxor y z) Hx (lxor_byte _ _ Hy Hz) H0); [done | assumption].
Qed.

(** The inverse of 87. *)
Lemma multiply_inverse_witness :
  (exists y, Byte y /\ reedSolomonMultiply 87 y = Ok 1) /\
  (forall y, Byte y -> reedSolomonMultiply 87 y = Ok 0 -> y = 0) /\
  (forall y z, Byte y -> Byte z ->
     reedSolomonMultiply 87 y = reedSolomonMultiply 87 z -> y = z).
Proof. apply (multiply_inverse 87); [unfold Byte |]; lia. Defined.

(** X4: the [root] of [reedSolomonComputeDivisor], multiplied by 2 in every
    pass, runs through the powers of 2; these come back to 1 after 255
    passes and not before, and every byte but 0 is one of them: 2
    generates the field. *)
Theorem multiply_generator :
  (forall n, foldM (fun root (_ : nat) => reedSolomonMultiply root 2) (seq 0 n) 1
             = Ok (gpow 2 n)) /\
  gpow 2 255 = 1 /\
  (forall i j, (i < 255)%nat -> (j < 255)%nat -> gpow 2 i = gpow 2 j -> i = j) /\
  (forall x, Byte x -> x <> 0 -> exists i, (i < 255)%nat /\ gpow 2 i = x).
Proof.
  split; [exact rootIteration |]. split; [exact gpow_2_255 |].
  split; [exact gpow_2_inj | exact byte_is_power].
Qed.

(** ** The divisor and the remainder as polynomials *)

(** X5: for a degree [d] from 1 to 255, the coefficients returned by
    [reedSolomonComputeDivisor], with the leading 1 that is not stored, are
    those of the product of (x - 2^i) for i below [d]: at every byte the
    polynomial has the value of the product, so its roots among the bytes
    are the first [d] powers of 2 and no other. *)
Theorem reedSolomonComputeDivisor_roots (d : Z) :
  1 <= d <= 255 ->
  exists g,
    reedSolomonComputeDivisor d = Ok g /\
    (forall a, Byte a -> evalPoly (1 :: g) a = rootsProduct a (Z.to_nat d)) /\
    (forall a, Byte a ->
       evalPoly (1 :: g) a = 0 <-> exists i, (i < Z.to_nat d)%nat /\ a = gpow 2 i).
Proof.
  intros Hd. pose proof (reedSolomonComputeDivisor_eval d) as Hpost.
  destruct (reedSolomonComputeDivisor d) as [g | e]; cbn [post] in Hpost; [| tauto].
  destruct Hpost as (_ & Hg & Hlen & Heval). exists g.
  split; [reflexivity |]. split; [exact Heval |].
  intros a Ha. rewrite (Heval a Ha). split.
  - by apply rootsProduct_zero.
  - intros (i & Hi & ->). by apply rootsProduct_root.
Qed.

(** The divisor of degree 10. *)
Lemma reedSolomonComputeDivisor_roots_witness :
  exists g,
    reedSolomonComputeDivisor 10 = Ok g /\
    (forall a, Byte a -> evalPoly (1 :: g) a = rootsProduct a (Z.to_nat 10)) /\
    (forall a, Byte a ->
       evalPoly (1 :: g) a = 0 <-> exists i, (i < Z.to_nat 10)%nat /\ a = gpow 2 i).
Proof. apply (reedSolomonComputeDivisor_roots 10). lia. Defined.

Lemma map_zero (l : list Z) : map (fun _ => 0) l = replicate (length l) 0.
Proof. induction l as [| x l IH]; [reflexivity |]. cbn [map length replicate]. by rewrite IH. Qed.

(** The remainder on bytes, with the quotient of the division: the data
    times x^n, for a divisor of [n] coefficients, is the quotient times the
    divisor plus the remainder. *)
Lemma reedSolomonComputeRemainder_quotient data divisor :
  Forall Byte data -> Forall Byte divisor -> divisor <> [] ->
  exists rem q,
    reedSolomonComputeRemainder data divisor = Ok rem /\
    Forall Byte rem /\ length rem = length divisor /\
    Forall Byte q /\ length q = length data /\
    forall a, Byte a ->
      mul (evalPoly data a) (gpow a (length divisor)) =
      Z.lxor (mul (evalPoly q a) (evalPoly (1 :: divisor) a)) (evalPoly rem a).
Proof.
  intros Hdata Hdiv Hne. unfold reedSolomonComputeRemainder.
  destruct (remainderLoop_division divisor Hdiv data (map (fun _ => 0) divisor) [] [])
    as (rem & q & Hrun & Hrem & Hlrem & Hq & Hlq & Heval).
  - assumption.
  - rewrite map_zero. apply Forall_replicate, byte_0.
  - constructor.
  - constructor.
  - by rewrite length_map.
  - destruct divisor; [done | cbn [length]; lia].
  - intros a Ha. rewrite map_zero, evalPoly_zeros by assumption.
    change (evalPoly [] a) with 0.
    by rewrite !mul_0_l by auto with bytes.
  - exists rem, q. split; [exact Hrun |]. split; [exact Hrem |].
    split; [exact Hlrem |]. split; [exact Hq |]. split; [exact Hlq | exact Heval].
Qed.

(** With the sum [^], adding the remainder to the data times x^n leaves
    the multiple of the divisor. *)
Lemma codeword_value data rem a (m : Z) (n : nat) :
  Byte a -> Forall Byte data -> Forall Byte rem -> length rem = n ->
  mul (evalPoly data a) (gpow a n) = Z.lxor m (evalPoly rem a) ->
  evalPoly (data ++ rem) a = m.
Proof.
  intros Ha Hdata Hrem Hlen Heq.
  rewrite evalPoly_app, Hlen, Heq by assumption.
  set (r := evalPoly rem a). lxor_ac.
Qed.

(** X6: on bytes and a divisor that is not empty,
    [reedSolomonComputeRemainder] returns the remainder of a division by
    the divisor with its leading 1: the data followed by the remainder is a
    multiple of that polynomial, the quotient having one coefficient for
    each byte of the data. *)
Theorem reedSolomonComputeRemainder_division (data divisor : list Z) :
  Forall Byte data -> Forall Byte divisor -> divisor <> [] ->
  exists rem q,
    reedSolomonComputeRemainder data divisor = Ok rem /\
    Forall Byte rem /\ length rem = length divisor /\
    Forall Byte q /\ length q = length data /\
    forall a, Byte a ->
      evalPoly (data ++ rem) a = mul (evalPoly q a) (evalPoly (1 :: divisor) a).
Proof.
  intros Hdata Hdiv Hne.
  destruct (reedSolomonComputeRemainder_quotient data divisor Hdata Hdiv Hne)
    as (rem & q & Hrun & Hrem & Hlrem & Hq & Hlq & Heval).
  exists rem, q. split; [exact Hrun |]. split; [exact Hrem |].
  split; [exact Hlrem |]. split; [exact Hq |]. split; [exact Hlq |].
  intros a Ha.
  apply (codeword_value data rem a _ (length divisor)); try assumption.
  by apply Heval.
Qed.

(** The division of three bytes by x^2 + 3x + 2. *)
Lemma reedSolomonComputeRemainder_division_witness :
  exists rem q,
    reedSolomonComputeRemainder [32; 91; 11] [3; 2] = Ok rem /\
    Forall Byte rem /\ length rem = length [3; 2] /\
    Forall Byte q /\ length q = length [32; 91; 11] /\
    forall a, Byte a ->
      evalPoly ([32; 91; 11] ++ rem) a = mul (evalPoly q a) (evalPoly (1 :: [3; 2]) a).
Proof.
  apply (reedSolomonComputeRemainder_division [32; 91; 11] [3; 2]);
    [repeat constructor; unfold Byte; lia .. | discriminate].
Defined.

(** The remainder by the divisor of degree [d] completes the data to a
    polynomial that vanishes at the roots of the divisor. *)
Lemma remainder_syndromes (data : list Z) (d : Z) (g : list Z) :
  Forall Byte data -> reedSolomonComputeDivisor d = Ok g ->
  exists ecc,
    reedSolomonComputeRemainder data g = Ok ecc /\
    Z.of_nat (length ecc) = d /\ Forall Byte ecc /\
    forall i, (i < Z.to_nat d)%nat -> evalPoly (data ++ ecc) (gpow 2 i) = 0.
Proof.
  intros Hdata Hrun. pose proof (reedSolomonComputeDivisor_eval d) as Hpost.
  rewrite Hrun in Hpost. cbn [post] in Hpost.
  destruct Hpost as (Hd & Hg & Hlen & Heval).
  destruct (reedSolomonComputeRemainder_quotient data g Hdata Hg)
    as (ecc & q & Hrem & Hecc & Hlecc & Hq & _ & Hdivides).
  { intros ->. cbn [length] in Hlen. lia. }
  exists ecc. split; [exact Hrem |]. split; [lia |]. split; [exact Hecc |].
  intros i Hi.
  rewrite (codeword_value data ecc (gpow 2 i) _ (length g)
             (gpow_byte _ _ byte_2) Hdata Hecc Hlecc (Hdivides _ (gpow_byte _ _ byte_2))).
  rewrite Heval, rootsProduct_root by auto with bytes.
  apply mul_0_r. auto with bytes.
Qed.

(** X7: the data followed by the remainder of its division by the divisor
    of degree [d] is a Reed-Solomon codeword: as a polynomial it vanishes
    at the first [d] powers of 2, the roots of the divisor. *)
Theorem codeword_syndromes (data : list Z) (d : Z) :
  Forall Byte data -> 1 <= d <= 255 ->
  exists g ecc,
    reedSolomonComputeDivisor d = Ok g /\
    reedSolomonComputeRemainder data g = Ok ecc /\
    Z.of_nat (length ecc) = d /\ Forall Byte ecc /\
    forall i, (i < Z.to_nat d)%nat -> evalPoly (data ++ ecc) (gpow 2 i) = 0.
Proof.
  intros Hdata Hd. pose proof (reedSolomonComputeDivisor_eval d) as Hpost.
  destruct (reedSolomonComputeDivisor d) as [g | e] eqn:Hg; cbn [post] in Hpost; [| tauto].
  destruct (remainder_syndromes data d g Hdata Hg) as (ecc & Hecc).
  by exists g, ecc.
Qed.

(** The 16 data bytes of a version 1-M symbol with 10 ECC bytes. *)
Lemma codeword_syndromes_witness :
  exists g ecc,
    reedSolomonComputeDivisor 10 = Ok g /\
    reedSolomonComputeRemainder data1M g = Ok ecc /\
    Z.of_nat (length ecc) = 10 /\ Forall Byte ecc /\
    forall i, (i < Z.to_nat 10)%nat -> evalPoly (data1M ++ ecc) (gpow 2 i) = 0.
Proof.
  apply (codeword_syndromes data1M 10); [| lia].
  unfold data1M. repeat constructor; unfold Byte; lia.
Defined.

(** ** The blocks are codewords of the parts of the data *)

Lemma cursor_next p len i :
  wfParams p len -> 0 <= i < numBlocks p ->
  cursor p (i + 1) =
  cursor p i + shortBlockLen p - blockEccLen p + (if i <? numShortBlocks p then 0 else 1).
Proof.
  intros [HB HNS HR HE Hfit Hlen] Hi. unfold cursor.
  destruct (i <? numShortBlocks p) eqn:Hs; lia.
Qed.

Lemma cursor_bounds p len i :
  wfParams p len -> 0 <= i < numBlocks p ->
  0 <= cursor p i <= cursor p (i + 1) /\ cursor p (i + 1) <= len.
Proof.
  intros [HB HNS HR HE Hfit Hlen] Hi. rewrite Hlen, HR. unfold cursor. nia.
Qed.

Lemma blockData_length data p i :
  wfParams p (Z.of_nat (length data)) -> 0 <= i < numBlocks p ->
  Z.of_nat (length (blockData data p i)) =
  shortBlockLen p - blockEccLen p + (if i <? numShortBlocks p then 0 else 1).
Proof.
  intros Hwf Hi. unfold blockData.
  destruct (cursor_bounds p _ i Hwf Hi) as [H1 H2].
  rewrite slice_length by lia. rewrite (cursor_next p _ i Hwf Hi). lia.
Qed.

Lemma splitStep_eq data rsDiv p blocks i :
  wfParams p (Z.of_nat (length data)) ->
  Forall Byte data -> Forall Byte rsDiv -> rsDiv <> [] ->
  0 <= i < numBlocks p ->
  exists ecc,
    reedSolomonComputeRemainder (blockData data p i) rsDiv = Ok ecc /\
    splitStep data rsDiv p (cursor p i, blocks) i =
    Ok (cursor p (i + 1), blocks ++ [blockData data p i ++ padOf p i ++ ecc]).
Proof.
  intros Hwf Hdata Hdiv Hne Hi.
  destruct (reedSolomonComputeRemainder_quotient (blockData data p i) rsDiv)
    as (ecc & _ & Hrun & _); [by apply slice_Forall | assumption | assumption |].
  exists ecc. split; [exact Hrun |]. unfold splitStep.
  rewrite <- (cursor_next p _ i Hwf Hi). fold (blockData data p i).
  rewrite Hrun. cbn [bind].
  destruct (cursor_bounds p _ i Hwf Hi) as [H1 H2].
  unfold blockData at 1. rewrite slice_length by lia.
  replace (cursor p i + (cursor p (i + 1) - cursor p i)) with (cursor p (i + 1)) by lia.
  unfold padOf. destruct (i <? numShortBlocks p); by rewrite <- ?app_assoc.
Qed.

Lemma splitBlocks_eq data p rsDiv :
  wfParams p (Z.of_nat (length data)) -> Forall Byte data ->
  reedSolomonComputeDivisor (blockEccLen p) = Ok rsDiv ->
  exists blocks,
    splitBlocks data p = Ok blocks /\
    Z.of_nat (length blocks) = numBlocks p /\
    forall j block, blocks !! j = Some block -> blockOf data rsDiv p j block.
Proof.
  intros Hwf Hdata Hg. unfold splitBlocks. rewrite Hg. cbn [bind].
  pose proof (reedSolomonComputeDivisor_post (blockEccLen p)) as Hpost.
  rewrite Hg in Hpost. cbn [post] in Hpost. destruct Hpost as (Hecc & Hlen & Hdiv).
  assert (rsDiv <> []) as Hne by (intros ->; cbn [length] in Hlen; lia).
  pose (Inv := fun (i : Z) (st : Z * list (list Z)) =>
                 fst st = cursor p i /\ Z.of_nat (length (snd st)) = i /\
                 forall j block, snd st !! j = Some block -> blockOf data rsDiv p j block).
  assert (post (Inv (0 + Z.of_nat (Z.to_nat (numBlocks p)))) (fun _ => False)
            (foldM (splitStep data rsDiv p)
                   (seqZ 0 (Z.of_nat (Z.to_nat (numBlocks p)))) (0, []))) as Hloop.
  { apply post_foldM_seqZ.
    - intros i [k blocks] Hi (Hk & Hb & Hok). cbn [fst snd] in *. subst k.
      destruct (splitStep_eq data rsDiv p blocks i) as (ecc & Hrun & ->);
        [assumption .. | lia |].
      cbn [post]. unfold Inv. cbn [fst snd].
      split; [reflexivity |]. split; [rewrite length_app; cbn [length]; lia |].
      intros j block Hj.
      destruct (decide (j < length blocks)%nat) as [Hlt | Hge].
      { rewrite lookup_app_l in Hj by exact Hlt. by apply Hok. }
      assert (j = length blocks) as -> .
      { apply lookup_lt_Some in Hj. rewrite length_app in Hj. cbn [length] in Hj. lia. }
      rewrite list_lookup_middle in Hj by reflexivity. injection Hj as <-.
      exists ecc. rewrite Hb. by split.
    - unfold Inv, cursor. cbn [fst snd length]. split; [destruct Hwf; lia |].
      split; [reflexivity |]. intros j block Hj. by rewrite lookup_nil in Hj. }
  rewrite Z2Nat.id in Hloop by (destruct Hwf; lia).
  destruct (foldM _ _ _) as [[k blocks] | e]; cbn [post] in Hloop; [| done].
  destruct Hloop as (_ & Hb & Hok). cbn [fst snd] in *.
  exists blocks. cbn [bind]. split; [reflexivity |]. split; [lia | exact Hok].
Qed.

Lemma blockData_concat data p len n :
  wfParams p len -> len = Z.of_nat (length data) -> (Z.of_nat n <= numBlocks p) ->
  concat (map (blockData data p) (seqZ 0 (Z.of_nat n))) =
  take (Z.to_nat (cursor p (Z.of_nat n))) data.
Proof.
  intros Hwf Hlen. induction n as [| n IH]; intros Hn.
  - change (Z.of_nat 0) with 0. rewrite seqZ_nil by lia.
    replace (cursor p 0) with 0 by (unfold cursor; destruct Hwf; lia).
    reflexivity.
  - rewrite Nat2Z.inj_succ, <- Z.add_1_r.
    rewrite seqZ_app by lia. rewrite map_app, concat_app, IH by lia.
    rewrite Z.add_0_l.
    rewrite (seqZ_cons (Z.of_nat n) 1), seqZ_nil by lia. cbn [map concat]. rewrite app_nil_r.
    destruct (cursor_bounds p len (Z.of_nat n) Hwf ltac:(lia)) as [H1 H2].
    unfold blockData, JS.slice, JS.relIndex.
    destruct (cursor p (Z.of_nat n) <? 0) eqn:Ha; [lia |].
    destruct (cursor p (Z.of_nat n + 1) <? 0) eqn:Hb; [lia |].
    rewrite !Z.min_l by lia.
    rewrite take_take_drop. f_equal. lia.
Qed.

Lemma callPre_wf data QrCode :
  callPre data QrCode ->
  blockParams QrCode = Ok (paramsOf QrCode) /\
  wfParams (paramsOf QrCode) (Z.of_nat (length data)).
Proof.
  intros [Hver HB HE Hfit Hbytes Hlen].
  destruct (call_numbers QrCode Hver) as (Hn & Hp & _).
  split; [exact Hp |]. rewrite Hn in Hlen. injection Hlen as Hlen.
  apply paramsOf_wf; try assumption; [lia |]. symmetry. exact Hlen.
Qed.

(** The blocks of a call, each with the ECC of its part of the data. *)
Lemma constructedBlocks_eq data QrCode :
  callPre data QrCode ->
  exists blocks g,
    constructedBlocks data QrCode = Ok (paramsOf QrCode, blocks) /\
    reedSolomonComputeDivisor (tableEccLen QrCode) = Ok g /\
    Z.of_nat (length blocks) = tableNumBlocks QrCode /\
    forall j block, blocks !! j = Some block -> blockOf data g (paramsOf QrCode) j block.
Proof.
  intros Hpre. destruct (callPre_wf data QrCode Hpre) as [Hp Hwf].
  pose proof (reedSolomonComputeDivisor_post (tableEccLen QrCode)) as Hpost.
  destruct (reedSolomonComputeDivisor (tableEccLen QrCode)) as [g | e] eqn:Hg;
    cbn [post] in Hpost; [| destruct Hpost as [_ Hn]; destruct Hpre; tauto].
  destruct (splitBlocks_eq data (paramsOf QrCode) g Hwf (pre_bytes _ _ Hpre) Hg)
    as (blocks & Hrun & Hlen & Hok).
  exists blocks, g. unfold constructedBlocks.
  rewrite (pre_length _ _ Hpre). cbn [bind]. rewrite Z.eqb_refl. cbn [negb].
  rewrite Hp. cbn [bind]. rewrite Hrun. cbn [bind].
  split; [reflexivity |]. split; [reflexivity |]. split; [exact Hlen | exact Hok].
Qed.

(** X8: in a call that satisfies the preconditions the parts of the data
    given to the blocks make up the data, in order, and every block is its
    part of the data, the zero pad byte if the block is short, and the ECC
    of that part; the part followed by its ECC is a Reed-Solomon codeword:
    it vanishes at the first [blockEccLen] powers of 2. *)
Theorem constructedBlocks_codewords (data : list Z) (QrCode : QRCode) :
  callPre data QrCode ->
  exists p blocks g,
    constructedBlocks data QrCode = Ok (p, blocks) /\
    reedSolomonComputeDivisor (blockEccLen p) = Ok g /\
    Z.of_nat (length blocks) = numBlocks p /\
    concat (map (blockData data p) (seqZ 0 (numBlocks p))) = data /\
    forall j block, blocks !! j = Some block ->
      exists ecc,
        reedSolomonComputeRemainder (blockData data p (Z.of_nat j)) g = Ok ecc /\
        block = blockData data p (Z.of_nat j) ++ padOf p (Z.of_nat j) ++ ecc /\
        forall i, (i < Z.to_nat (blockEccLen p))%nat ->
          evalPoly (blockData data p (Z.of_nat j) ++ ecc) (gpow 2 i) = 0.
Proof.
  intros Hpre. destruct (constructedBlocks_eq data QrCode Hpre)
    as (blocks & g & Hrun & Hg & Hlen & Hok).
  destruct (callPre_wf data QrCode Hpre) as [_ Hwf].
  exists (paramsOf QrCode), blocks, g.
  split; [exact Hrun |]. split; [exact Hg |]. split; [exact Hlen |]. split.
  - pose proof (blockData_concat data (paramsOf QrCode) _
                  (Z.to_nat (tableNumBlocks QrCode)) Hwf eq_refl) as Hcat.
    rewrite Z2Nat.id in Hcat by (destruct Hpre; lia).
    change (numBlocks (paramsOf QrCode)) with (tableNumBlocks QrCode).
    rewrite Hcat by (cbn [paramsOf numBlocks]; lia).
    apply take_ge.
    destruct Hwf as [HB HNS HR HE Hfit Hl].
    change (numBlocks (paramsOf QrCode)) with (tableNumBlocks QrCode) in *.
    unfold cursor. change (numBlocks (paramsOf QrCode)) with (tableNumBlocks QrCode) in *.
    nia.
  - intros j block Hj. destruct (Hok j block Hj) as (ecc & Hecc & Hblock).
    exists ecc. split; [exact Hecc |]. split; [exact Hblock |].
    destruct (remainder_syndromes (blockData data (paramsOf QrCode) (Z.of_nat j))
                (tableEccLen QrCode) g) as (ecc' & Hecc' & _ & _ & Hsyn);
      [apply slice_Forall, (pre_bytes _ _ Hpre) | exact Hg |].
    rewrite Hecc in Hecc'. injection Hecc' as <-. exact Hsyn.
Qed.

(** The four blocks of a version 5-Q symbol. *)
Lemma constructedBlocks_codewords_witness :
  exists p blocks g,
    constructedBlocks data5Q qr5Q = Ok (p, blocks) /\
    reedSolomonComputeDivisor (blockEccLen p) = Ok g /\
    Z.of_nat (length blocks) = numBlocks p /\
    concat (map (blockData data5Q p) (seqZ 0 (numBlocks p))) = data5Q /\
    forall j block, blocks !! j = Some block ->
      exists ecc,
        reedSolomonComputeRemainder (blockData data5Q p (Z.of_nat j)) g = Ok ecc /\
        block = blockData data5Q p (Z.of_nat j) ++ padOf p (Z.of_nat j) ++ ecc /\
        forall i, (i < Z.to_nat (blockEccLen p))%nat ->
          evalPoly (blockData data5Q p (Z.of_nat j) ++ ecc) (gpow 2 i) = 0.
Proof.
  apply (constructedBlocks_codewords data5Q qr5Q).
  constructor; try (vm_compute; intuition discriminate); try reflexivity.
  apply Forall_seqZ. unfold Byte. lia.
Defined.

(** The call, from the blocks to the output. *)
Lemma addEccAndInterleave_eq data QrCode :
  callPre data QrCode ->
  exists blocks g out,
    constructedBlocks data QrCode = Ok (paramsOf QrCode, blocks) /\
    reedSolomonComputeDivisor (tableEccLen QrCode) = Ok g /\
    addEccAndInterleave data QrCode = Ok out /\
    Z.of_nat (length out) = rawCodewords (paramsOf QrCode) /\
    Z.of_nat (length blocks) = tableNumBlocks QrCode /\
    (forall j block, blocks !! j = Some block -> blockOf data g (paramsOf QrCode) j block) /\
    (forall i j block,
       blocks !! j = Some block -> (i < length block)%nat ->
       kept (paramsOf QrCode) (Z.of_nat i) (Z.of_nat j) ->
       out !! Z.to_nat (outIndex (paramsOf QrCode) (Z.of_nat i) (Z.of_nat j)) = block !! i) /\
    forall n, (n < length out)%nat ->
      exists i j block,
        blocks !! j = Some block /\ (i < length block)%nat /\
        kept (paramsOf QrCode) (Z.of_nat i) (Z.of_nat j) /\
        n = Z.to_nat (outIndex (paramsOf QrCode) (Z.of_nat i) (Z.of_nat j)).
Proof.
  intros Hpre. destruct (constructedBlocks_eq data QrCode Hpre)
    as (blocks & g & Hrun & Hg & Hlen & Hof).
  destruct (constructedBlocks_built data QrCode _ blocks (pre_blocks _ _ Hpre) Hrun)
    as (_ & Hwf & Hbl & Hok).
  destruct (interleave_layout blocks _ _ Hwf Hbl Hok)
    as (out & Hout & Hlout & Hplaces & Honly).
  exists blocks, g, out. split; [exact Hrun |]. split; [exact Hg |].
  split; [| split; [exact Hlout | split; [exact Hlen | split; [exact Hof |
            split; [exact Hplaces | exact Honly]]]]].
  unfold addEccAndInterleave. rewrite Hrun. cbn [bind]. rewrite Hout. cbn [bind].
  by rewrite Hlout, Z.eqb_refl.
Qed.

(** X9: in a call that satisfies the preconditions, element [i] of block
    [j] is in the output at the index [i * numBlocks + j], less
    [numShortBlocks] from the index of the pad bytes on, whose row has no
    element of a short block; only the pad bytes of the short blocks are
    not in the output, and every element of the output is such an element
    of a block. *)
Theorem addEccAndInterleave_places (data : list Z) (QrCode : QRCode) :
  callPre data QrCode ->
  exists p blocks out,
    constructedBlocks data QrCode = Ok (p, blocks) /\
    addEccAndInterleave data QrCode = Ok out /\
    (forall i j block,
       blocks !! j = Some block -> (i < length block)%nat ->
       ~ (Z.of_nat i = shortBlockLen p - blockEccLen p /\ Z.of_nat j < numShortBlocks p) ->
       out !! Z.to_nat (Z.of_nat i * numBlocks p + Z.of_nat j
                        - (if Z.of_nat i <? shortBlockLen p - blockEccLen p
                           then 0 else numShortBlocks p))
       = block !! i) /\
    forall n, (n < length out)%nat ->
      exists i j block,
        blocks !! j = Some block /\ (i < length block)%nat /\
        ~ (Z.of_nat i = shortBlockLen p - blockEccLen p /\
           Z.of_nat j < numShortBlocks p) /\
        n = Z.to_nat (Z.of_nat i * numBlocks p + Z.of_nat j
                      - (if Z.of_nat i <? shortBlockLen p - blockEccLen p
                         then 0 else numShortBlocks p)).
Proof.
  intros Hpre. destruct (addEccAndInterleave_eq data QrCode Hpre)
    as (blocks & g & out & Hrun & _ & Hout & _ & _ & _ & Hplaces & Honly).
  exists (paramsOf QrCode), blocks, out.
  split; [exact Hrun |]. split; [exact Hout |]. split; [exact Hplaces | exact Honly].
Qed.

(** The places of the bytes of the four blocks of a version 5-Q symbol. *)
Lemma addEccAndInterleave_places_witness :
  exists p blocks out,
    constructedBlocks data5Q qr5Q = Ok (p, blocks) /\
    addEccAndInterleave data5Q qr5Q = Ok out /\
    (forall i j block,
       blocks !! j = Some block -> (i < length block)%nat ->
       ~ (Z.of_nat i = shortBlockLen p - blockEccLen p /\ Z.of_nat j < numShortBlocks p) ->
       out !! Z.to_nat (Z.of_nat i * numBlocks p + Z.of_nat j
                        - (if Z.of_nat i <? shortBlockLen p - blockEccLen p
                           then 0 else numShortBlocks p))
       = block !! i) /\
    forall n, (n < length out)%nat ->
      exists i j block,
        blocks !! j = Some block /\ (i < length block)%nat /\
        ~ (Z.of_nat i = shortBlockLen p - blockEccLen p /\
           Z.of_nat j < numShortBlocks p) /\
        n = Z.to_nat (Z.of_nat i * numBlocks p + Z.of_nat j
                      - (if Z.of_nat i <? shortBlockLen p - blockEccLen p
                         then 0 else numShortBlocks p)).
Proof.
  apply (addEccAndInterleave_places data5Q qr5Q).
  constructor; try (vm_compute; intuition discriminate); try reflexivity.
  apply Forall_seqZ. unfold Byte. lia.
Defined.

(** X10: in a call that satisfies the preconditions the output is the data
    bytes of the blocks, interleaved, followed by the ECC bytes of the
    blocks, interleaved: byte [k] of the data of block [j] is at the index
    [k * numBlocks + j] (less [numShortBlocks] for the last byte of a long
    block), and byte [k] of the ECC of block [j], the remainder of its data
    by the divisor, at [data.length + k * numBlocks + j]. *)
Theorem addEccAndInterleave_data_then_ecc (data : list Z) (QrCode : QRCode) :
  callPre data QrCode ->
  exists p g out,
    blockParams QrCode = Ok p /\
    reedSolomonComputeDivisor (blockEccLen p) = Ok g /\
    addEccAndInterleave data QrCode = Ok out /\
    forall j, 0 <= j < numBlocks p ->
      exists ecc,
        reedSolomonComputeRemainder (blockData data p j) g = Ok ecc /\
        (forall k, (k < length (blockData data p j))%nat ->
           out !! Z.to_nat (outIndex p (Z.of_nat k) j) = blockData data p j !! k) /\
        (forall k, (k < length ecc)%nat ->
           out !! Z.to_nat (Z.of_nat (length data) + Z.of_nat k * numBlocks p + j)
           = ecc !! k).
Proof.
  intros Hpre. destruct (addEccAndInterleave_eq data QrCode Hpre)
    as (blocks & g & out & Hrun & Hg & Hout & Hlout & Hlen & Hof & Hplaces & _).
  destruct (callPre_wf data QrCode Hpre) as [Hp Hwf].
  exists (paramsOf QrCode), g, out.
  split; [exact Hp |]. split; [exact Hg |]. split; [exact Hout |].
  intros j Hj. change (numBlocks (paramsOf QrCode)) with (tableNumBlocks QrCode) in Hj.
  destruct (lookup_lt_is_Some_2 blocks (Z.to_nat j)) as [block Hblock]; [lia |].
  destruct (Hof _ _ Hblock) as (ecc & Hecc & Hshape).
  rewrite Z2Nat.id in Hecc, Hshape by lia.
  specialize (Hplaces) with (j := Z.to_nat j) (block := block).
  rewrite Z2Nat.id in Hplaces by lia.
  pose proof (blockData_length data (paramsOf QrCode) j Hwf Hj) as Hdlen.
  set (p := paramsOf QrCode) in *. set (dat := blockData data p j) in *.
  assert (Z.of_nat (length (padOf p j)) = if j <? numShortBlocks p then 1 else 0) as Hplen.
  { unfold padOf. by destruct (j <? numShortBlocks p). }
  exists ecc. split; [exact Hecc |]. split.
  - intros k Hk. rewrite Hplaces; [| assumption | |].
    + rewrite Hshape. by apply lookup_app_l.
    + rewrite Hshape, length_app. lia.
    + unfold kept. revert Hdlen Hplen.
      destruct (j <? numShortBlocks p) eqn:Hs; intros Hdlen Hplen; lia.
  - intros k Hk.
    specialize (Hplaces (length dat + length (padOf p j) + k)%nat Hblock).
    replace (Z.to_nat (outIndex p (Z.of_nat (length dat + length (padOf p j) + k)) j))
      with (Z.to_nat (Z.of_nat (length data) + Z.of_nat k * numBlocks p + j)) in Hplaces.
    2:{ f_equal. unfold outIndex. destruct Hwf as [HB HNS HR HE Hfit Hl].
        assert (Z.of_nat (length dat + length (padOf p j) + k) =
                shortBlockLen p - blockEccLen p + 1 + Z.of_nat k) as ->
          by (destruct (j <? numShortBlocks p); lia).
        destruct (_ <? shortBlockLen p - blockEccLen p) eqn:Hlt; lia. }
    rewrite Hplaces.
    + rewrite Hshape, app_assoc.
      rewrite lookup_app_r by (rewrite length_app; lia).
      f_equal. rewrite length_app. lia.
    + rewrite Hshape, !length_app. lia.
    + unfold kept. revert Hdlen Hplen.
      destruct (j <? numShortBlocks p) eqn:Hs; intros Hdlen Hplen; lia.
Qed.

(** The data and the ECC of the four blocks of a version 5-Q symbol. *)
Lemma addEccAndInterleave_data_then_ecc_witness :
  exists p g out,
    blockParams qr5Q = Ok p /\
    reedSolomonComputeDivisor (blockEccLen p) = Ok g /\
    addEccAndInterleave data5Q qr5Q = Ok out /\
    forall j, 0 <= j < numBlocks p ->
      exists ecc,
        reedSolomonComputeRemainder (blockData data5Q p j) g = Ok ecc /\
        (forall k, (k < length (blockData data5Q p j))%nat ->
           out !! Z.to_nat (outIndex p (Z.of_nat k) j) = blockData data5Q p j !! k) /\
        (forall k, (k < length ecc)%nat ->
           out !! Z.to_nat (Z.of_nat (length data5Q) + Z.of_nat k * numBlocks p + j)
           = ecc !! k).
Proof.
  apply (addEccAndInterleave_data_then_ecc data5Q qr5Q).
  constructor; try (vm_compute; intuition discriminate); try reflexivity.
  apply Forall_seqZ. unfold Byte. lia.
Defined.

(** ** The order of the exceptions of a call *)

(** X11: a call throws the exception of its first failing check: for a
    version outside 1 to 40, "Version number out of range", whatever the
    other arguments; else, on data of the right length, "Degree out of
    range" when the ECC length of the table is outside 1 to 255, whatever
    the number of blocks; else a TypeError, raised by [blocks[0].length],
    when the table gives no block. *)
Theorem addEccAndInterleave_error_order (data : list Z) (QrCode : QRCode) :
  (~ (1 <= version QrCode <= 40) ->
   addEccAndInterleave data QrCode = Throw VersionOutOfRange) /\
  (1 <= version QrCode <= 40 ->
   getNumDataCodewords (version QrCode) QrCode = Ok (Z.of_nat (length data)) ->
   (~ (1 <= tableEccLen QrCode <= 255) ->
    addEccAndInterleave data QrCode = Throw DegreeOutOfRange) /\
   (1 <= tableEccLen QrCode <= 255 -> tableNumBlocks QrCode <= 0 ->
    addEccAndInterleave data QrCode = Throw TypeError)).
Proof.
  split.
  - intros Hver. unfold addEccAndInterleave, constructedBlocks, getNumDataCodewords.
    by rewrite getNumRawDataModules_range by exact Hver.
  - intros Hver Hlen. destruct (call_numbers QrCode Hver) as (_ & Hp & _).
    unfold addEccAndInterleave, constructedBlocks.
    rewrite Hlen. cbn [bind]. rewrite Z.eqb_refl. cbn [negb].
    rewrite Hp. cbn [bind]. unfold splitBlocks. cbn [paramsOf blockEccLen numBlocks].
    pose proof (reedSolomonComputeDivisor_post (tableEccLen QrCode)) as Hdiv.
    destruct (reedSolomonComputeDivisor (tableEccLen QrCode)) as [g | e];
      cbn [post] in Hdiv.
    + split; [tauto |]. intros _ HB.
      rewrite seqZ_nil by lia. reflexivity.
    + destruct Hdiv as [-> Hn]. split; [reflexivity | tauto].
Qed.

(** A version 41; a table with the ECC length 0; a table with no block. *)
Lemma addEccAndInterleave_error_order_witness :
  addEccAndInterleave [] {| version := 41; error_correction_level := L;
                            ECC_CODEWORDS_PER_BLOCK := fun _ _ => 10;
                            NUM_ERROR_CORRECTION_BLOCKS := fun _ _ => 1 |}
    = Throw VersionOutOfRange /\
  addEccAndInterleave (replicate 26 0)
                      {| version := 1; error_correction_level := L;
                         ECC_CODEWORDS_PER_BLOCK := fun _ _ => 0;
                         NUM_ERROR_CORRECTION_BLOCKS := fun _ _ => 0 |}
    = Throw DegreeOutOfRange /\
  addEccAndInterleave (replicate 26 0)
                      {| version := 1; error_correction_level := L;
                         ECC_CODEWORDS_PER_BLOCK := fun _ _ => 10;
                         NUM_ERROR_CORRECTION_BLOCKS := fun _ _ => 0 |}
    = Throw TypeError.
Proof.
  split; [| split].
  - apply (addEccAndInterleave_error_order []). cbn [version]. lia.
  - apply (addEccAndInterleave_error_order (replicate 26 0));
      [cbn [version]; lia | reflexivity | vm_compute; intuition discriminate].
  - apply (addEccAndInterleave_error_order (replicate 26 0));
      [cbn [version]; lia | reflexivity | vm_compute; intuition discriminate
       | vm_compute; discriminate].
Defined.

(** ** The number of raw data modules grows with the version *)

Lemma rawDataModulesFormula_step v :
  1 <= v <= 39 -> rawDataModulesFormula v < rawDataModulesFormula (v + 1).
Proof.
  intros Hv.
  assert (forallb (fun v => rawDataModulesFormula v <? rawDataModulesFormula (v + 1))
                  (seqZ 1 39) = true) as Hall by (vm_compute; reflexivity).
  rewrite forallb_forall in Hall. apply Z.ltb_lt, Hall.
  apply list_elem_of_In, elem_of_seqZ. lia.
Qed.

Lemma rawDataModulesFormula_mono v w :
  1 <= v -> v < w -> w <= 40 -> rawDataModulesFormula v < rawDataModulesFormula w.
Proof.
  intros Hv Hvw Hw.
  replace w with (v + Z.of_nat (S (Z.to_nat (w - v - 1)))) in * by lia.
  generalize dependent (Z.to_nat (w - v - 1)). intros n. clear w.
  induction n as [| n IH]; intros Hvw Hw.
  - apply rawDataModulesFormula_step. lia.
  - etransitivity; [apply IH; lia |].
    replace (v + Z.of_nat (S (S n))) with (v + Z.of_nat (S n) + 1) by lia.
    apply rawDataModulesFormula_step. lia.
Qed.

(** X12: [getNumRawDataModules] is strictly increasing on the versions 1 to
    40, from 208 at version 1 to 29648 at version 40, the bounds of its
    assertion; for any other version it throws "Version number out of
    range". *)
Theorem getNumRawDataModules_increasing (v w : Z) :
  1 <= v -> v < w -> w <= 40 ->
  exists a b,
    getNumRawDataModules v = Ok a /\ getNumRawDataModules w = Ok b /\ a < b /\
    getNumRawDataModules 1 = Ok 208 /\ getNumRawDataModules 40 = Ok 29648 /\
    forall u, ~ (1 <= u <= 40) -> getNumRawDataModules u = Throw VersionOutOfRange.
Proof.
  intros Hv Hvw Hw.
  destruct (getNumRawDataModules_formula v ltac:(lia)) as [Ha _].
  destruct (getNumRawDataModules_formula w ltac:(lia)) as [Hb _].
  exists (rawDataModulesFormula v), (rawDataModulesFormula w).
  split; [exact Ha |]. split; [exact Hb |].
  split; [by apply rawDataModulesFormula_mono |].
  split; [reflexivity |]. split; [reflexivity |].
  exact getNumRawDataModules_range.
Qed.

(** The versions 6 and 7, between which the version information areas
    appear. *)
Lemma getNumRawDataModules_increasing_witness :
  exists a b,
    getNumRawDataModules 6 = Ok a /\ getNumRawDataModules 7 = Ok b /\ a < b /\
    getNumRawDataModules 1 = Ok 208 /\ getNumRawDataModules 40 = Ok 29648 /\
    forall u, ~ (1 <= u <= 40) -> getNumRawDataModules u = Throw VersionOutOfRange.
Proof. apply (getNumRawDataModules_increasing 6 7); lia. Defined.

(** ** The range check of the multiplication *)

Lemma ToUint32_idem n : JS.ToUint32 (JS.ToUint32 n) = JS.ToUint32 n.
Proof. unfold JS.ToUint32. by rewrite <- Z.land_assoc, Z.land_diag. Qed.

Lemma ToInt32_ToUint32 n : JS.ToInt32 (JS.ToUint32 n) = JS.ToInt32 n.
Proof. unfold JS.ToInt32. by rewrite ToUint32_idem. Qed.

Lemma shru_ToUint32 a n : JS.shru (JS.ToUint32 a) n = JS.shru a n.
Proof. unfold JS.shru. by rewrite ToUint32_idem. Qed.

Lemma multiplyStep_ToUint32 x y z i :
  multiplyStep (JS.ToUint32 x) (JS.ToUint32 y) z i = multiplyStep x y z i.
Proof.
  unfold multiplyStep. cbv zeta. rewrite shru_ToUint32.
  destruct (and_one (JS.shru y i)) as [-> | ->].
  - by rewrite !Z.mul_0_l.
  - rewrite !Z.mul_1_l. unfold JS.xor. by rewrite ToInt32_ToUint32.
Qed.

Lemma fold_left_pointwise {A B : Type} (f g : A -> B -> A) :
  (forall a b, f a b = g a b) -> forall l a, fold_left f l a = fold_left g l a.
Proof.
  intros Hfg l. induction l as [| b l IH]; intros a; cbn [fold_left]; [reflexivity |].
  by rewrite Hfg, IH.
Qed.

Lemma multiply_ToUint32 x y :
  reedSolomonMultiply x y = reedSolomonMultiply (JS.ToUint32 x) (JS.ToUint32 y).
Proof.
  unfold reedSolomonMultiply. rewrite !shru_ToUint32. cbv zeta.
  by rewrite (fold_left_pointwise _ _ (multiplyStep_ToUint32 x y)).
Qed.

Lemma multiply_out_of_range x y :
  0 <= x < 2 ^ 32 -> 0 <= y < 2 ^ 32 -> ~ (x <= 255 /\ y <= 255) ->
  reedSolomonMultiply x y = Throw ByteOutOfRange.
Proof.
  intros Hx Hy Hn. unfold reedSolomonMultiply.
  assert (forall n, 0 <= n < 2 ^ 32 -> JS.shru n 8 = n / 2 ^ 8) as Hshru.
  { intros n Hn'. unfold JS.shru. rewrite ToUint32_small by lia.
    change (Z.land 8 31) with 8. apply Z.shiftr_div_pow2. lia. }
  rewrite !Hshru by assumption.
  destruct (negb (x / 2 ^ 8 =? 0) || negb (y / 2 ^ 8 =? 0)) eqn:Hc; [reflexivity |].
  exfalso. apply Hn.
  apply orb_false_elim in Hc as [H1 H2].
  apply negb_false_iff, Z.eqb_eq in H1, H2.
  split; [apply Z.div_small_iff in H1 | apply Z.div_small_iff in H2]; lia.
Qed.

(** X13: the range check of [reedSolomonMultiply] reads its arguments
    modulo 2^32, as [>>>] does: an integer that is a byte modulo 2^32 is
    accepted and multiplied as that byte, any other is rejected with "Byte
    out of range"; the final "Assertion error" is thrown for no integers at
    all. *)
Theorem multiply_range_check (x y : Z) :
  reedSolomonMultiply x y = reedSolomonMultiply (x mod 2 ^ 32) (y mod 2 ^ 32) /\
  (reedSolomonMultiply x y = Throw ByteOutOfRange <->
   ~ (x mod 2 ^ 32 <= 255 /\ y mod 2 ^ 32 <= 255)) /\
  reedSolomonMultiply x y <> Throw AssertionError.
Proof.
  rewrite (multiply_ToUint32 x y), !ToUint32_mod.
  pose proof (Z.mod_pos_bound x (2 ^ 32) ltac:(lia)) as Hx.
  pose proof (Z.mod_pos_bound y (2 ^ 32) ltac:(lia)) as Hy.
  split; [reflexivity |].
  destruct (decide (x mod 2 ^ 32 <= 255 /\ y mod 2 ^ 32 <= 255)) as [[Hbx Hby] | Hn].
  - destruct (multiply_byte (x mod 2 ^ 32) (y mod 2 ^ 32)) as (z & -> & _);
      [unfold Byte; lia .. |].
    split; [| discriminate]. split; [discriminate | tauto].
  - rewrite (multiply_out_of_range _ _ Hx Hy Hn).
    split; [| discriminate]. split; [intros _; exact Hn | reflexivity].
Qed.

(** ** The remainder is additive in the data *)

Lemma addScaled_lxor f1 f2 :
  Byte f1 -> Byte f2 ->
  forall r1 r2 g,
    Forall Byte g -> length r1 = length r2 ->
    addScaled (Z.lxor f1 f2) (zip_with Z.lxor r1 r2) g =
    zip_with Z.lxor (addScaled f1 r1 g) (addScaled f2 r2 g).
Proof.
  intros Hf1 Hf2 r1. induction r1 as [| x1 t1 IH]; intros [| x2 t2] g Hg Hlen;
    try discriminate; [reflexivity |].
  destruct g as [| c g]; [reflexivity |].
  apply Forall_cons in Hg as [Hc Hg]. injection Hlen as Hlen.
  cbn [zip_with addScaled]. rewrite IH by assumption. f_equal.
  rewrite mul_lxor_r by assumption. lxor_ac.
Qed.

Lemma remainderLoop_lxor divisor :
  Forall Byte divisor -> divisor <> [] ->
  forall d1 d2 r1 r2,
    Forall Byte d1 -> Forall Byte d2 -> length d1 = length d2 ->
    Forall Byte r1 -> Forall Byte r2 ->
    length r1 = length divisor -> length r2 = length divisor ->
    exists e1 e2,
      foldM (remainderStep divisor) d1 r1 = Ok e1 /\
      foldM (remainderStep divisor) d2 r2 = Ok e2 /\
      foldM (remainderStep divisor) (zip_with Z.lxor d1 d2) (zip_with Z.lxor r1 r2) =
      Ok (zip_with Z.lxor e1 e2).
Proof.
  intros Hdiv Hne d1. induction d1 as [| b1 d1 IH];
    intros [| b2 d2] r1 r2 Hd1 Hd2 Hlen Hr1 Hr2 Hl1 Hl2; try discriminate.
  - by exists r1, r2.
  - apply Forall_cons in Hd1 as [Hb1 Hd1]. apply Forall_cons in Hd2 as [Hb2 Hd2].
    injection Hlen as Hlen.
    destruct divisor as [| c g] eqn:Hg; [done |]. rewrite <- Hg in *.
    assert (length divisor = S (length g)) as Hlg by (by rewrite Hg).
    destruct r1 as [| x1 t1]; [rewrite Hlg in Hl1; discriminate |].
    destruct r2 as [| x2 t2]; [rewrite Hlg in Hl2; discriminate |].
    apply Forall_cons in Hr1 as [Hx1 Ht1]. apply Forall_cons in Hr2 as [Hx2 Ht2].
    cbn [length] in Hl1, Hl2.
    assert (forall t, Forall Byte t -> Forall Byte (t ++ [0])) as Hsnoc.
    { intros t Ht. apply Forall_app. split; [exact Ht |].
      constructor; [exact byte_0 | constructor]. }
    cbn [zip_with foldM].
    rewrite (remainderStep_eq divisor x1 t1 b1) by (assumption || lia).
    rewrite (remainderStep_eq divisor x2 t2 b2) by (assumption || lia).
    rewrite (remainderStep_eq divisor (Z.lxor x1 x2) (zip_with Z.lxor t1 t2)
               (Z.lxor b1 b2)).
    2, 3, 5: auto with bytes.
    2:{ clear -Ht1 Ht2. revert t2 Ht2.
        induction Ht1 as [| a t1 Ha Ht1 IH]; intros [| b t2] Ht2;
          cbn [zip_with]; try constructor.
        - apply Forall_cons in Ht2 as [Hb Ht2]. by apply lxor_byte.
        - apply Forall_cons in Ht2 as [Hb Ht2]. by apply IH. }
    2:{ rewrite length_zip_with. lia. }
    cbn [bind].
    destruct (IH d2 (addScaled (Z.lxor b1 x1) (t1 ++ [0]) divisor)
                 (addScaled (Z.lxor b2 x2) (t2 ++ [0]) divisor))
      as (e1 & e2 & He1 & He2 & He); try assumption; auto with bytes.
    { rewrite addScaled_length, length_app. cbn [length]. lia. }
    { rewrite addScaled_length, length_app. cbn [length]. lia. }
    exists e1, e2. split; [exact He1 |]. split; [exact He2 |].
    rewrite <- He. f_equal.
    rewrite <- addScaled_lxor; auto with bytes.
    2:{ rewrite !length_app. cbn [length]. lia. }
    f_equal; [lxor_ac |].
    rewrite zip_with_app by lia. reflexivity.
Qed.

(** X14: on bytes and a divisor that is not empty the remainder is additive
    in the data: the remainder of the [^] of two data sequences of the same
    length is the [^] of their remainders, so the codewords form a linear
    code. *)
Theorem reedSolomonComputeRemainder_additive (d1 d2 divisor : list Z) :
  Forall Byte d1 -> Forall Byte d2 -> length d1 = length d2 ->
  Forall Byte divisor -> divisor <> [] ->
  exists e1 e2,
    reedSolomonComputeRemainder d1 divisor = Ok e1 /\
    reedSolomonComputeRemainder d2 divisor = Ok e2 /\
    reedSolomonComputeRemainder (zip_with JS.xor d1 d2) divisor =
    Ok (zip_with JS.xor e1 e2).
Proof.
  intros Hd1 Hd2 Hlen Hdiv Hne. unfold reedSolomonComputeRemainder.
  assert (Forall Byte (map (fun _ => 0) divisor)) as Hz.
  { rewrite map_zero. apply Forall_replicate, byte_0. }
  destruct (remainderLoop_lxor divisor Hdiv Hne d1 d2
              (map (fun _ => 0) divisor) (map (fun _ => 0) divisor))
    as (e1 & e2 & He1 & He2 & He); try assumption; try apply length_map.
  exists e1, e2. split; [exact He1 |]. split; [exact He2 |].
  assert (forall l1 l2, Forall Byte l1 -> Forall Byte l2 ->
            zip_with JS.xor l1 l2 = zip_with Z.lxor l1 l2) as Hxor.
  { intros l1. induction l1 as [| a l1 IH]; intros [| b l2] H1 H2; try reflexivity.
    apply Forall_cons in H1 as [Ha H1]. apply Forall_cons in H2 as [Hb H2].
    cbn [zip_with]. by rewrite xor_lxor, IH. }
  rewrite (Hxor d1 d2) by assumption.
  destruct (reedSolomonComputeRemainder_bytes d1 divisor Hd1 Hdiv Hne)
    as (e1' & He1' & _ & Hb1).
  destruct (reedSolomonComputeRemainder_bytes d2 divisor Hd2 Hdiv Hne)
    as (e2' & He2' & _ & Hb2).
  unfold reedSolomonComputeRemainder in He1', He2'.
  rewrite He1 in He1'. rewrite He2 in He2'.
  injection He1' as <-. injection He2' as <-.
  rewrite (Hxor e1 e2) by assumption.
  rewrite <- He. f_equal.
  rewrite map_zero. generalize (length divisor). intros n.
  induction n as [| n IH]; [reflexivity |]. cbn [replicate zip_with]. by rewrite <- IH.
Qed.

(** Two data sequences of three bytes, and the divisor x^2 + 3x + 2. *)
Lemma reedSolomonComputeRemainder_additive_witness :
  exists e1 e2,
    reedSolomonComputeRemainder [32; 91; 11] [3; 2] = Ok e1 /\
    reedSolomonComputeRemainder [17; 236; 64] [3; 2] = Ok e2 /\
    reedSolomonComputeRemainder (zip_with JS.xor [32; 91; 11] [17; 236; 64]) [3; 2] =
    Ok (zip_with JS.xor e1 e2).
Proof.
  apply (reedSolomonComputeRemainder_additive [32; 91; 11] [17; 236; 64] [3; 2]);
    [repeat constructor; unfold Byte; lia ..| discriminate].
Defined.

(** ** The output is made of bytes *)

Lemma interleave_Forall (P : Z -> Prop) blocks p :
  Forall (Forall P) blocks ->
  post (Forall P) (fun _ => True) (interleave blocks p).
Proof.
  intros Hblocks. unfold interleave.
  destruct (blocks !! 0%nat) as [block0 |]; [| exact I].
  apply post_foldM; [| constructor].
  intros result i _ Hres. unfold interleaveStep.
  eapply post_weaken with (P := Forall P) (E := fun _ => True); [| auto | auto].
  apply (post_forEach (fun _ => Forall P)); [| exact Hres].
  intros j block s Hj Hs. cbn [Nat.add].
  destruct (_ || _); [| exact Hs].
  unfold get. destruct (block !! Z.to_nat i) as [b |] eqn:Hb; cbn [bind post]; [| exact I].
  apply Forall_app. split; [exact Hs |]. constructor; [| constructor].
  eapply Forall_lookup_1; [| exact Hb].
  eapply Forall_lookup_1; [exact Hblocks | exact Hj].
Qed.

(** X15: in a call that satisfies the preconditions every element of the
    output is a byte, as the return type says: the data bytes are bytes by
    the precondition, and the ECC bytes because the remainder of bytes by
    the divisor is made of bytes. *)
Theorem addEccAndInterleave_bytes (data : list Z) (QrCode : QRCode) :
  callPre data QrCode ->
  exists out, addEccAndInterleave data QrCode = Ok out /\ Forall Byte out.
Proof.
  intros Hpre. destruct (addEccAndInterleave_eq data QrCode Hpre)
    as (blocks & g & out & Hrun & Hg & Hout & _ & _ & Hof & _).
  exists out. split; [exact Hout |].
  assert (Forall (Forall Byte) blocks) as Hblocks.
  { apply Forall_lookup. intros j block Hj.
    destruct (Hof j block Hj) as (ecc & Hecc & ->).
    pose proof (reedSolomonComputeDivisor_post (tableEccLen QrCode)) as Hdiv.
    rewrite Hg in Hdiv. cbn [post] in Hdiv. destruct Hdiv as (_ & Hglen & Hgb).
    assert (Forall Byte (blockData data (paramsOf QrCode) (Z.of_nat j))) as Hdat
        by apply slice_Forall, (pre_bytes _ _ Hpre).
    destruct (reedSolomonComputeRemainder_bytes _ g Hdat Hgb) as (ecc' & Hecc' & _ & Hb).
    { intros ->. cbn [length] in Hglen. destruct Hpre. lia. }
    rewrite Hecc in Hecc'. injection Hecc' as <-.
    apply Forall_app. split; [exact Hdat |]. apply Forall_app. split; [| exact Hb].
    unfold padOf. destruct (_ <? _); repeat constructor; unfold Byte; lia. }
  pose proof (interleave_Forall Byte blocks (paramsOf QrCode) Hblocks) as Hpost.
  unfold addEccAndInterleave in Hout. rewrite Hrun in Hout. cbn [bind] in Hout.
  destruct (interleave blocks (paramsOf QrCode)) as [r | e]; [| discriminate].
  cbn [bind post] in *. destruct (negb _); [discriminate |].
  by injection Hout as <-.
Qed.

(** The output for a version 5-Q symbol. *)
Lemma addEccAndInterleave_bytes_witness :
  exists out, addEccAndInterleave data5Q qr5Q = Ok out /\ Forall Byte out.
Proof.
  apply (addEccAndInterleave_bytes data5Q qr5Q).
  constructor; try (vm_compute; intuition discriminate); try reflexivity.
  apply Forall_seqZ. unfold Byte. lia.
Defined.

(** ** Two consequences: the parity of a block, and a single block *)

Lemma evalPoly_one (p : list Z) :
  Forall Byte p -> evalPoly p 1 = fold_left Z.lxor p 0.
Proof.
  intros Hp. unfold evalPoly. generalize 0, byte_0.
  induction Hp as [| c p Hc Hp IH]; intros acc Hacc; cbn [fold_left]; [reflexivity |].
  rewrite mul_1_r by assumption. apply IH. auto with bytes.
Qed.

(** X16: the bytes of a codeword have even parity in every bit: the [^] of
    the data bytes and of the bytes of their remainder by the divisor of a
    degree from 1 to 255 is 0, because 1, the power 0 of 2, is a root of
    every divisor. *)
Theorem codeword_parity (data : list Z) (d : Z) :
  Forall Byte data -> 1 <= d <= 255 ->
  exists g ecc,
    reedSolomonComputeDivisor d = Ok g /\
    reedSolomonComputeRemainder data g = Ok ecc /\
    fold_left Z.lxor (data ++ ecc) 0 = 0.
Proof.
  intros Hdata Hd. pose proof (reedSolomonComputeDivisor_eval d) as Hpost.
  destruct (reedSolomonComputeDivisor d) as [g | e] eqn:Hg; cbn [post] in Hpost; [| tauto].
  destruct (remainder_syndromes data d g Hdata Hg) as (ecc & Hecc & _ & Hb & Hsyn).
  exists g, ecc. split; [reflexivity |]. split; [exact Hecc |].
  rewrite <- evalPoly_one by (apply Forall_app; by split).
  apply (Hsyn 0%nat). lia.
Qed.

(** The parity of the block of a version 1-M symbol. *)
Lemma codeword_parity_witness :
  exists g ecc,
    reedSolomonComputeDivisor 10 = Ok g /\
    reedSolomonComputeRemainder data1M g = Ok ecc /\
    fold_left Z.lxor (data1M ++ ecc) 0 = 0.
Proof.
  apply (codeword_parity data1M 10); [| lia].
  unfold data1M. repeat constructor; unfold Byte; lia.
Defined.

(** X17: when the table gives one block, a call that satisfies the
    preconditions returns the data followed by its ECC, the remainder of
    the data by the divisor: nothing is interleaved and the pad byte of the
    block is left out. *)
Theorem addEccAndInterleave_single_block (data : list Z) (QrCode : QRCode) :
  callPre data QrCode -> tableNumBlocks QrCode = 1 ->
  exists g ecc,
    reedSolomonComputeDivisor (tableEccLen QrCode) = Ok g /\
    reedSolomonComputeRemainder data g = Ok ecc /\
    addEccAndInterleave data QrCode = Ok (data ++ ecc).
Proof.
  intros Hpre HB1. destruct (addEccAndInterleave_eq data QrCode Hpre)
    as (blocks & g & out & Hrun & Hg & Hout & Hlout & Hlen & Hof & Hplaces & _).
  destruct (callPre_wf data QrCode Hpre) as [Hp Hwf].
  destruct (lookup_lt_is_Some_2 blocks 0%nat) as [block Hblock]; [lia |].
  destruct (Hof _ _ Hblock) as (ecc & Hecc & Hshape).
  specialize (Hplaces) with (j := 0%nat) (block := block).
  pose proof (blockData_concat data (paramsOf QrCode) _ 1%nat Hwf eq_refl) as Hcat.
  assert (Z.of_nat (length ecc) = tableEccLen QrCode) as Hlecc.
  { destruct (remainder_syndromes (blockData data (paramsOf QrCode) 0)
                (tableEccLen QrCode) g) as (ecc' & Hecc' & Hl & _);
      [apply slice_Forall, (pre_bytes _ _ Hpre) | exact Hg |].
    change (Z.of_nat 0) with 0 in Hecc. rewrite Hecc in Hecc'. by injection Hecc' as <-. }
  destruct Hwf as [HB HNS HR HE Hfit Hl].
  set (p := paramsOf QrCode) in *.
  change (numBlocks p) with (tableNumBlocks QrCode) in *.
  change (blockEccLen p) with (tableEccLen QrCode) in *.
  rewrite HB1 in *.
  assert (numShortBlocks p = 1) as HS by lia.
  assert (blockData data p 0 = data) as Hdat.
  { change (seqZ 0 (Z.of_nat 1)) with [0] in Hcat. cbn [map concat] in Hcat.
    rewrite app_nil_r in Hcat. rewrite Hcat by lia. apply take_ge.
    unfold cursor. change (blockEccLen p) with (tableEccLen QrCode). lia. }
  clear Hcat.
  change (Z.of_nat 0) with 0 in Hecc, Hshape. rewrite Hdat in Hecc, Hshape.
  assert (padOf p 0 = [0]) as Hpad by (unfold padOf; by rewrite HS).
  rewrite Hpad in Hshape.
  exists g, ecc. split; [exact Hg |]. split; [exact Hecc |]. rewrite Hout. f_equal.
  apply list_eq. intros n.
  destruct (decide (n < length (data ++ ecc))%nat) as [Hn | Hn].
  2:{ rewrite !lookup_ge_None_2; [reflexivity | lia |].
      rewrite length_app in Hn. lia. }
  rewrite length_app in Hn.
  destruct (decide (n < length data)%nat) as [Hnd | Hnd].
  - rewrite lookup_app_l by exact Hnd.
    specialize (Hplaces n Hblock).
    rewrite <- (lookup_app_l data ([0] ++ ecc)), <- Hshape by exact Hnd.
    rewrite <- Hplaces.
    + f_equal. unfold outIndex. change (numBlocks p) with (tableNumBlocks QrCode).
      change (blockEccLen p) with (tableEccLen QrCode). rewrite HB1.
      destruct (Z.of_nat n <? _) eqn:Hlt; lia.
    + rewrite Hshape, !length_app. cbn [length]. lia.
    + unfold kept. change (blockEccLen p) with (tableEccLen QrCode). lia.
  - specialize (Hplaces (S n) Hblock).
    replace ((data ++ ecc) !! n) with (block !! S n).
    2:{ rewrite Hshape, !lookup_app_r by (cbn [length]; lia).
        f_equal. cbn [length]. lia. }
    rewrite <- Hplaces.
    + f_equal. unfold outIndex. change (numBlocks p) with (tableNumBlocks QrCode).
      change (blockEccLen p) with (tableEccLen QrCode). rewrite HB1, HS.
      destruct (Z.of_nat (S n) <? _) eqn:Hlt; [apply Z.ltb_lt in Hlt |]; lia.
    + rewrite Hshape, !length_app. cbn [length]. lia.
    + unfold kept. change (blockEccLen p) with (tableEccLen QrCode). lia.
Qed.

(** The one block of a version 1-M symbol. *)
Lemma addEccAndInterleave_single_block_witness :
  exists g ecc,
    reedSolomonComputeDivisor (tableEccLen qr1M) = Ok g /\
    reedSolomonComputeRemainder data1M g = Ok ecc /\
    addEccAndInterleave data1M qr1M = Ok (data1M ++ ecc).
Proof.
  apply (addEccAndInterleave_single_block data1M qr1M); [| reflexivity].
  constructor; try (vm_compute; intuition discriminate); try reflexivity.
  unfold data1M. repeat constructor; unfold Byte; lia.
Defined.
